(** * Digital Ghost: the extraction, decoding and decryption pipeline

  A shallow embedding of the Python sources

  - [spiral_reader.py]      (module [Spiral]),
  - [lsb_extractor.py]      (module [Lsb]),
  - [decoder.py]            (module [Decoder]),
  - [fragment_assembler.py] (module [Assembler]),

  preceded by the parts of the Python runtime the sources call (module
  [Py]).  The first half of the file holds the definitions, the second half
  the properties proved about them. *)

From Stdlib Require Import String Ascii ZArith List Bool Lia Permutation Sorted.
Import ListNotations.

#[local] Open Scope Z_scope.

(* ================================================================= *)
(** * Part I: the programs *)
(* ================================================================= *)

(* ----------------------------------------------------------------- *)
(** ** The Python runtime used by the sources *)

Module Py.

(** A [str] is a sequence of code points and a [bytes] object a sequence of
    integers in [0, 256).  Arguments documented as "bytes or string" are
    values of either kind. *)
Definition str : Type := list Z.
Definition bytes : Type := list Z.

Inductive value : Type :=
| Str (s : str)
| Bytes (b : bytes).

Definition is_byte (b : Z) : Prop := 0 <= b < 256.

(** A string literal of the sources, as code points. *)
Definition lit (s : string) : str :=
  map (fun a => Z.of_N (N_of_ascii a)) (list_ascii_of_string s).

Fixpoint str_eqb (a b : list Z) : bool :=
  match a, b with
  | [], [] => true
  | x :: a', y :: b' => (x =? y) && str_eqb a' b'
  | _, _ => false
  end.

(** Truthiness of a string: [if s:] holds for non-empty strings. *)
Definition truthy (s : str) : bool :=
  match s with [] => false | _ :: _ => true end.

(** *** Exceptions *)

Inductive exn : Type :=
| ZeroDivisionError
| ValueError
| TypeError
| UnicodeEncodeError
| BinasciiError.

Inductive outcome (A : Type) : Type :=
| Return (a : A)
| Raise (e : exn).
Arguments Return {A} a.
Arguments Raise {A} e.

Definition bind {A B : Type} (m : outcome A) (k : A -> outcome B) : outcome B :=
  match m with
  | Return a => k a
  | Raise e => Raise e
  end.

Notation "x <- m ;; k" := (bind m (fun x => k))
  (at level 61, m at next level, right associativity).

(** [try: ... except: return None], and [except Exception] alike: none of the
    exceptions above escapes either. *)
Definition catch {A : Type} (m : outcome A) : option A :=
  match m with
  | Return a => Some a
  | Raise _ => None
  end.

(** *** [str.encode()] (UTF-8)

    Surrogate code points cannot be encoded: [UnicodeEncodeError]. *)
Definition utf8_encode_char (c : Z) : outcome bytes :=
  if c <? 0x80 then Return [c]
  else if c <? 0x800 then
    Return [Z.lor 0xC0 (Z.shiftr c 6); Z.lor 0x80 (Z.land c 0x3F)]
  else if c <? 0x10000 then
    if (0xD800 <=? c) && (c <=? 0xDFFF) then Raise UnicodeEncodeError
    else Return [Z.lor 0xE0 (Z.shiftr c 12);
                 Z.lor 0x80 (Z.land (Z.shiftr c 6) 0x3F);
                 Z.lor 0x80 (Z.land c 0x3F)]
  else
    Return [Z.lor 0xF0 (Z.shiftr c 18);
            Z.lor 0x80 (Z.land (Z.shiftr c 12) 0x3F);
            Z.lor 0x80 (Z.land (Z.shiftr c 6) 0x3F);
            Z.lor 0x80 (Z.land c 0x3F)].

Fixpoint encode (s : str) : outcome bytes :=
  match s with
  | [] => Return []
  | c :: s' =>
      b <- utf8_encode_char c ;;
      bs <- encode s' ;;
      Return (b ++ bs)
  end.

(** [data.encode()] under [if isinstance(data, str)]. *)
Definition as_bytes (v : value) : outcome bytes :=
  match v with
  | Str s => encode s
  | Bytes b => Return b
  end.

(** *** [bytes.decode('utf-8', errors='ignore')]

    The decoder of CPython: an ill-formed sequence is dropped up to, and
    not including, the first byte that cannot continue it, and decoding
    resumes there; a sequence cut short by the end of the input is
    dropped. *)
Definition is_continuation (b : Z) : bool := (0x80 <=? b) && (b <? 0xC0).

Fixpoint decode_utf8_ignore (bs : bytes) : str :=
  match bs with
  | [] => []
  | ch :: s1 =>
      if ch <? 0x80 then ch :: decode_utf8_ignore s1
      else if ch <? 0xC2 then decode_utf8_ignore s1
      else if ch <? 0xE0 then
        match s1 with
        | [] => []
        | ch2 :: s2 =>
            if is_continuation ch2
            then (Z.shiftl ch 6 + ch2 - (Z.shiftl 0xC0 6 + 0x80))
                   :: decode_utf8_ignore s2
            else decode_utf8_ignore s1
        end
      else if ch <? 0xF0 then
        match s1 with
        | [] => []
        | ch2 :: s2 =>
            if negb (is_continuation ch2)
               || (if ch2 <? 0xA0 then ch =? 0xE0 else ch =? 0xED)
            then decode_utf8_ignore s1
            else
              match s2 with
              | [] => []
              | ch3 :: s3 =>
                  if is_continuation ch3
                  then (Z.shiftl ch 12 + Z.shiftl ch2 6 + ch3
                        - (Z.shiftl 0xE0 12 + Z.shiftl 0x80 6 + 0x80))
                         :: decode_utf8_ignore s3
                  else decode_utf8_ignore s2
              end
        end
      else if ch <? 0xF5 then
        match s1 with
        | [] => []
        | ch2 :: s2 =>
            if negb (is_continuation ch2)
               || (if ch2 <? 0x90 then ch =? 0xF0 else ch =? 0xF4)
            then decode_utf8_ignore s1
            else
              match s2 with
              | [] => []
              | ch3 :: s3 =>
                  if negb (is_continuation ch3) then decode_utf8_ignore s2
                  else
                    match s3 with
                    | [] => []
                    | ch4 :: s4 =>
                        if is_continuation ch4
                        then (Z.shiftl ch 18 + Z.shiftl ch2 12
                              + Z.shiftl ch3 6 + ch4
                              - (Z.shiftl 0xF0 18 + Z.shiftl 0x80 12
                                 + Z.shiftl 0x80 6 + 0x80))
                               :: decode_utf8_ignore s4
                        else decode_utf8_ignore s3
                    end
              end
        end
      else decode_utf8_ignore s1
  end.

(** *** [str.isspace] and [str.strip()] *)

Definition isspace (c : Z) : bool :=
  ((0x09 <=? c) && (c <=? 0x0D)) || ((0x1C <=? c) && (c <=? 0x20))
  || (c =? 0x85) || (c =? 0xA0) || (c =? 0x1680)
  || ((0x2000 <=? c) && (c <=? 0x200A))
  || (c =? 0x2028) || (c =? 0x2029) || (c =? 0x202F) || (c =? 0x205F)
  || (c =? 0x3000).

Fixpoint lstrip (s : str) : str :=
  match s with
  | [] => []
  | c :: s' => if isspace c then lstrip s' else s
  end.

Definition strip (s : str) : str := rev (lstrip (rev (lstrip s))).

(** *** [base64.b64decode(s)] with its default [validate=False]

    [binascii.a2b_base64] in its default, non-strict mode. *)

(** [table_a2b_base64]: the value of a character of the alphabet. *)
Definition b64_value (c : Z) : option Z :=
  if (65 <=? c) && (c <=? 90) then Some (c - 65)            (* A-Z *)
  else if (97 <=? c) && (c <=? 122) then Some (c - 97 + 26) (* a-z *)
  else if (48 <=? c) && (c <=? 57) then Some (c - 48 + 52)  (* 0-9 *)
  else if c =? 43 then Some 62                              (* + *)
  else if c =? 47 then Some 63                              (* / *)
  else None.

Definition BASE64_PAD : Z := 61.                            (* = *)

(** The decoding loop, with its variables [quad_pos], [leftchar] and [pads]
    and the output built so far.  A pad that completes the quad ends the
    decoding ([goto done]) and the rest of the input is not read; any other
    pad, and any character outside the alphabet, is skipped. *)
Fixpoint a2b_loop (input : bytes) (quad_pos leftchar pads : Z) (out : bytes)
  : outcome bytes :=
  match input with
  | [] => if quad_pos =? 0 then Return out else Raise BinasciiError
  | this_ch :: rest =>
      if this_ch =? BASE64_PAD then
        if 2 <=? quad_pos then
          if 4 <=? quad_pos + (pads + 1) then Return out
          else a2b_loop rest quad_pos leftchar (pads + 1) out
        else a2b_loop rest quad_pos leftchar pads out
      else
        match b64_value this_ch with
        | None => a2b_loop rest quad_pos leftchar pads out
        | Some v =>
            if quad_pos =? 0 then a2b_loop rest 1 v 0 out
            else if quad_pos =? 1 then
              a2b_loop rest 2 (Z.land v 0x0f) 0
                       (out ++ [Z.lor (Z.shiftl leftchar 2) (Z.shiftr v 4)])
            else if quad_pos =? 2 then
              a2b_loop rest 3 (Z.land v 0x03) 0
                       (out ++ [Z.lor (Z.shiftl leftchar 4) (Z.shiftr v 2)])
            else
              a2b_loop rest 0 0 0 (out ++ [Z.lor (Z.shiftl leftchar 6) v])
        end
  end.

Definition a2b_base64 (data : bytes) : outcome bytes := a2b_loop data 0 0 0 [].

(** [_bytes_from_decode_data]: a [str] argument must be ASCII. *)
Definition isascii (s : str) : bool := forallb (fun c => c <? 128) s.

Definition b64decode (s : value) : outcome bytes :=
  match s with
  | Str t => if isascii t then a2b_base64 t else Raise ValueError
  | Bytes b => a2b_base64 b
  end.

(** *** The codec [rot_13]

    [rot13_map] sends the letters A-Z and a-z thirteen places on, within
    their case, and [str.translate] leaves every other character as it is. *)
Definition rot13_char (c : Z) : Z :=
  if (65 <=? c) && (c <=? 90) then (c - 65 + 13) mod 26 + 65
  else if (97 <=? c) && (c <=? 122) then (c - 97 + 13) mod 26 + 97
  else c.

Definition codecs_decode_rot_13 (data : value) : outcome str :=
  match data with
  | Str s => Return (map rot13_char s)
  | Bytes _ => Raise TypeError
  end.

(** *** Dictionaries with string keys

    A [dict] keeps its keys in the order of their first insertion. *)
Definition dict (V : Type) : Type := list (string * V).

Fixpoint dict_get {V : Type} (k : string) (d : dict V) : option V :=
  match d with
  | [] => None
  | (k', v) :: d' => if String.eqb k k' then Some v else dict_get k d'
  end.

Fixpoint dict_set {V : Type} (k : string) (v : V) (d : dict V) : dict V :=
  match d with
  | [] => [(k, v)]
  | (k', v') :: d' =>
      if String.eqb k k' then (k, v) :: d' else (k', v') :: dict_set k v d'
  end.

End Py.

(* ----------------------------------------------------------------- *)
(** ** spiral_reader.py *)

Module Spiral.

Definition coord : Type := (Z * Z)%type.

(** The local variables [x], [y] and [coordinates] of
    [generate_spiral_coordinates]. *)
Record state : Type := mkState {
  pos_x : Z;
  pos_y : Z;
  coordinates : list coord
}.

(** [0 <= x < width and 0 <= y < height] *)
Definition in_bounds (width height x y : Z) : bool :=
  (0 <=? x) && (x <? width) && (0 <=? y) && (y <? height).

(** [len(coordinates) >= width * height] *)
Definition filled (width height : Z) (cs : list coord) : bool :=
  width * height <=? Z.of_nat (length cs).

(** One [for _ in range(n)] loop of the body.  The four loops differ in the
    variable they move only: [x += dx] is the leg [(dx, 0)] and [y += dy]
    the leg [(0, dy)].  The [break] leaves the loop with the state reached
    so far. *)
Fixpoint leg (width height dx dy : Z) (n : nat) (st : state) : state :=
  match n with
  | O => st
  | S n' =>
      let x := pos_x st + dx in
      let y := pos_y st + dy in
      let cs := if in_bounds width height x y
                then coordinates st ++ [(x, y)]
                else coordinates st in
      let st' := mkState x y cs in
      if filled width height cs then st' else leg width height dx dy n' st'
  end.

(** The [while len(coordinates) < width * height] loop; [fuel] bounds the
    number of iterations, [None] is "fuel exhausted".  Every [break] of the
    body leaves the [while] loop, whose only successor is
    [return coordinates]. *)
Fixpoint spiral_loop (fuel : nat) (width height : Z) (clockwise : bool)
         (step : nat) (st : state) : option (list coord) :=
  match fuel with
  | O => None
  | S fuel' =>
      if filled width height (coordinates st) then Some (coordinates st) else
      let dx := if clockwise then 1 else -1 in
      let st := leg width height dx 0 step st in
      if filled width height (coordinates st) then Some (coordinates st) else
      let dy := if clockwise then 1 else -1 in
      let st := leg width height 0 dy step st in
      if filled width height (coordinates st) then Some (coordinates st) else
      let step := S step in
      let dx := if clockwise then -1 else 1 in
      let st := leg width height dx 0 step st in
      if filled width height (coordinates st) then Some (coordinates st) else
      let dy := if clockwise then -1 else 1 in
      let st := leg width height 0 dy step st in
      if filled width height (coordinates st) then Some (coordinates st) else
      spiral_loop fuel' width height clockwise (S step) st
  end.

(** [generate_spiral_coordinates(width, height, clockwise)].  Python's [//]
    is floor division, which is [Z.div]. *)
Definition generate_spiral_coordinates (fuel : nat) (width height : Z)
           (clockwise : bool) : option (list coord) :=
  let x := width / 2 in
  let y := height / 2 in
  spiral_loop fuel width height clockwise 1 (mkState x y [(x, y)]).

(** Every pixel coordinate of a [width] by [height] image. *)
Definition zrange (n : Z) : list Z := map Z.of_nat (seq 0 (Z.to_nat n)).

Definition all_coordinates (width height : Z) : list coord :=
  list_prod (zrange width) (zrange height).

End Spiral.

(* ----------------------------------------------------------------- *)
(** ** lsb_extractor.py *)

Module Lsb.
Import Py.

(** [binary_string]: the extracted bits, in traversal order. *)
Definition bitstream : Type := list bool.

(** The variables [byte_data], [ascii_text] and [corrupted] of the
    conversion loop of [extract_lsb_from_channel]. *)
Record decoded : Type := mkDecoded {
  raw_bytes : bytes;
  ascii_text : str;
  possibly_corrupted : bool
}.

(** [range(start, stop, step)], for a positive [step]. *)
Definition range (start stop step : Z) : list Z :=
  map (fun k => start + Z.of_nat k * step)
      (seq 0 (Z.to_nat ((stop - start + step - 1) / step))).

(** [range(0, len(binary_string) - 7, 8)]: the offset of every complete
    group of eight bits. *)
Definition byte_offsets (binary_string : bitstream) : list Z :=
  range 0 (Z.of_nat (length binary_string) - 7) 8.

(** [int(byte, 2)] *)
Definition int2 (byte : list bool) : Z :=
  fold_left (fun acc (b : bool) => 2 * acc + (if b then 1 else 0)) byte 0.

(** [binary_string[i:i+8]] *)
Definition slice8 (binary_string : bitstream) (i : Z) : list bool :=
  firstn 8 (skipn (Z.to_nat i) binary_string).

(** [32 <= byte_value <= 126 or byte_value in [10, 13, 9]] *)
Definition printable (byte_value : Z) : bool :=
  ((32 <=? byte_value) && (byte_value <=? 126))
  || (byte_value =? 10) || (byte_value =? 13) || (byte_value =? 9).

(** The [for i in range(...)] loop. *)
Fixpoint convert_loop (binary_string : bitstream) (offsets : list Z)
         (st : decoded) : decoded :=
  match offsets with
  | [] => st
  | i :: offsets' =>
      let byte_value := int2 (slice8 binary_string i) in
      let byte_data := raw_bytes st ++ [byte_value] in
      if printable byte_value then
        convert_loop binary_string offsets'
          (mkDecoded byte_data (ascii_text st ++ [byte_value])
                     (possibly_corrupted st))
      else if byte_value =? 0 then
        mkDecoded byte_data (ascii_text st) (possibly_corrupted st)
      else
        convert_loop binary_string offsets'
          (mkDecoded byte_data (ascii_text st) true)
  end.

(** The strict conversion of a channel's bit stream to bytes and text. *)
Definition convert_strict (binary_string : bitstream) : decoded :=
  convert_loop binary_string (byte_offsets binary_string)
               (mkDecoded [] [] false).

End Lsb.

(* ----------------------------------------------------------------- *)
(** ** decoder.py *)

Module Decoder.
Import Py.

(** [decode_base64(data)]; [None] is the failure value. *)
Definition decode_base64 (data : value) : option str :=
  catch (decoded_bytes <- match data with
                          | Str s => b64decode (Str (strip s))
                          | Bytes b => b64decode (Bytes b)
                          end ;;
         Return (decode_utf8_ignore decoded_bytes)).

(** [decode_rot13(data)] *)
Definition decode_rot13 (data : value) : option str :=
  catch (codecs_decode_rot_13 data).

(** [layer.lower()], on the ASCII names the layers have. *)
Definition lower_char (a : ascii) : ascii :=
  let n := nat_of_ascii a in
  if ((65 <=? n) && (n <=? 90))%nat then ascii_of_nat (n + 32) else a.

Fixpoint lower (s : string) : string :=
  match s with
  | EmptyString => EmptyString
  | String a s' => String (lower_char a) (lower s')
  end.

(** [decode_multi_layer(data, layers)] *)
Fixpoint decode_multi_layer (result : value) (layers : list string)
  : option value :=
  match layers with
  | [] => Some result
  | layer :: layers' =>
      if String.eqb (lower layer) "base64" then
        match decode_base64 result with
        | None => None
        | Some r => decode_multi_layer (Str r) layers'
        end
      else if String.eqb (lower layer) "rot13" then
        match decode_rot13 result with
        | None => None
        | Some r => decode_multi_layer (Str r) layers'
        end
      else decode_multi_layer result layers'
  end.

(** [c in base64_chars] *)
Definition base64_chars (c : Z) : bool :=
  ((65 <=? c) && (c <=? 90)) || ((97 <=? c) && (c <=? 122))
  || ((48 <=? c) && (c <=? 57)) || (c =? 43) || (c =? 47) || (c =? 61).

(** [if r:] for the result [r] of a decoding step: neither [None] nor the
    empty string. *)
Definition succeeded (r : option str) : bool :=
  match r with
  | Some s => truthy s
  | None => false
  end.

Definition store (label : string) (r : option str) (results : dict str)
  : dict str :=
  match r with
  | Some s => dict_set label s results
  | None => results
  end.

(** [auto_detect_and_decode(data)], for a string [data]. *)
Definition auto_detect_and_decode (data : str) : dict str :=
  let results : dict str := [] in
  (* Try Base64 *)
  let results :=
    if forallb (fun c => base64_chars c || isspace c) data then
      let b64_result := decode_base64 (Str data) in
      if succeeded b64_result then store "base64" b64_result results
      else results
    else results in
  (* Try ROT-13 *)
  let rot13_result := decode_rot13 (Str data) in
  let results :=
    if succeeded rot13_result
       && negb (match rot13_result with
                | Some r => str_eqb r data
                | None => false
                end)
    then store "rot13" rot13_result results
    else results in
  (* Try Base64 then ROT-13 *)
  let results :=
    match dict_get "base64" results with
    | Some b64 =>
        let b64_rot13 := decode_rot13 (Str b64) in
        if succeeded b64_rot13 then store "base64_then_rot13" b64_rot13 results
        else results
    | None => results
    end in
  (* Try ROT-13 then Base64 *)
  let results :=
    match rot13_result with
    | Some r =>
        if truthy r then
          let rot13_b64 := decode_base64 (Str r) in
          if succeeded rot13_b64
          then store "rot13_then_base64" rot13_b64 results
          else results
        else results
    | None => results
    end in
  results.

End Decoder.

(* ----------------------------------------------------------------- *)
(** ** fragment_assembler.py *)

Module Assembler.
Import Py.

(** [key * n] *)
Fixpoint repeat_bytes (key : bytes) (n : nat) : bytes :=
  match n with
  | O => []
  | S n' => key ++ repeat_bytes key n'
  end.

(** [xor_decrypt(data, key)].  The integer division by [len(key)] raises
    [ZeroDivisionError] for an empty key. *)
Definition xor_decrypt (data key : value) : outcome bytes :=
  data <- as_bytes data ;;
  key <- as_bytes key ;;
  if (length key =? 0)%nat then Raise ZeroDivisionError
  else
    let key_repeated :=
      firstn (length data)
             (repeat_bytes key (length data / length key + 1)) in
    Return (map (fun dk => Z.lxor (fst dk) (snd dk)) (combine data key_repeated)).

(** [key.ljust(n, b'\0')] *)
Definition ljust (key : bytes) (n : nat) : bytes :=
  key ++ repeat 0 (n - length key).

(** The key normalisation of [aes_decrypt]. *)
Definition normalize_key (key : bytes) : bytes :=
  if (length key <? 16)%nat then ljust key 16
  else if (length key <? 24)%nat then firstn 16 key
  else if (length key <? 32)%nat then ljust key 24
  else firstn 32 key.

(** [padding.PKCS7(128).unpadder()], [update] then [finalize]. *)
Definition pkcs7_unpad (padded : bytes) : outcome bytes :=
  match rev padded with
  | [] => Raise ValueError
  | n :: _ =>
      if negb (length padded mod 16 =? 0)%nat then Raise ValueError
      else if (1 <=? n) && (n <=? 16)
              && forallb (fun b => b =? n) (firstn (Z.to_nat n) (rev padded))
      then Return (firstn (length padded - Z.to_nat n) padded)
      else Raise ValueError
  end.

(** "Convert encrypted_data to bytes if needed": a string is decoded as
    base64 and, when that fails, encoded; the encoding is outside any [try]. *)
Definition to_encrypted_bytes (encrypted_data : value) : outcome bytes :=
  match encrypted_data with
  | Str s =>
      match b64decode (Str s) with
      | Return b => Return b
      | Raise _ => encode s
      end
  | Bytes b => Return b
  end.

Section Ciphers.

(** The primitives of the libraries [hashlib] and [cryptography]:
    [hashlib.sha256(key).digest()], and the AES-CBC decryption of a
    whole number of blocks under a key of a valid size. *)
Variable sha256 : bytes -> bytes.
Variable aes_cbc_decrypt : bytes -> bytes -> bytes -> bytes.

(** [str.isalpha], of one character. *)
Variable isalpha : Z -> bool.

(** [aes_decrypt(encrypted_data, key)], with [iv=None].  [algorithms.AES]
    raises [ValueError] unless the key has 16, 24 or 32 bytes, and
    [decryptor.finalize()] unless the data is a whole number of blocks. *)
Definition aes_decrypt (encrypted_data : bytes) (key : value) : outcome bytes :=
  key <- as_bytes key ;;
  let key := normalize_key key in
  let iv := firstn 16 (sha256 key) in
  if negb ((length key =? 16) || (length key =? 24) || (length key =? 32))%nat
  then Raise ValueError
  else if negb (length encrypted_data mod 16 =? 0)%nat then Raise ValueError
  else
    let decrypted_padded := aes_cbc_decrypt key iv encrypted_data in
    match pkcs7_unpad decrypted_padded with
    | Return decrypted => Return decrypted
    | Raise _ => Return decrypted_padded
    end.

(** [result and any(c.isalpha() for c in result)] *)
Definition readable (result : str) : bool :=
  truthy result && existsb isalpha result.

(** [decrypt_final(encrypted_data, key, method)] *)
Definition decrypt_final (encrypted_data key : value) (method : string)
  : outcome (option str) :=
  let results : dict str := [] in
  encrypted_bytes <- to_encrypted_bytes encrypted_data ;;
  let results :=
    if String.eqb method "xor" || String.eqb method "auto" then
      match xor_decrypt (Bytes encrypted_bytes) key with
      | Return decrypted =>
          dict_set "xor" (decode_utf8_ignore decrypted) results
      | Raise _ => results
      end
    else results in
  let results :=
    if String.eqb method "aes" || String.eqb method "auto" then
      match aes_decrypt encrypted_bytes key with
      | Return decrypted =>
          dict_set "aes" (decode_utf8_ignore decrypted) results
      | Raise _ => results
      end
    else results in
  if String.eqb method "auto" then
    match find (fun item => readable (snd item)) results with
    | Some (_, result) => Return (Some result)
    | None =>
        match results with
        | (_, first) :: _ => Return (Some first)
        | [] => Return None
        end
    end
  else Return (dict_get method results).

End Ciphers.

Section Fragments.

(** The keys of a [dict] of fragments, with the equality that looks a key
    up and the order [sorted] puts them in. *)
Variable K : Type.
Variable K_eqb : K -> K -> bool.
Variable K_leb : K -> K -> bool.

(** [fragments], a list of strings or a [dict] of them (its items, in
    insertion order; a [dict] holds a key once). *)
Inductive fragments : Type :=
| FragmentList (l : list str)
| FragmentDict (d : list (K * str)).

(** [fragments.get(key, default)]; also [fragments[key]] for a key of the
    [dict]. *)
Fixpoint fragments_get (d : list (K * str)) (key : K) (default : str) : str :=
  match d with
  | [] => default
  | (k, v) :: d' => if K_eqb key k then v else fragments_get d' key default
  end.

(** [sorted(keys)]: the keys in ascending order. *)
Fixpoint insert_key (k : K) (l : list K) : list K :=
  match l with
  | [] => [k]
  | k' :: l' => if K_leb k k' then k :: l else k' :: insert_key k l'
  end.

Definition sorted (keys : list K) : list K := fold_right insert_key [] keys.

(** [assemble_fragments(fragments, order)]; an empty [order] is falsy, as
    [None] is. *)
Definition assemble_fragments (fragments : fragments) (order : option (list K))
  : str :=
  let ordered_fragments :=
    match fragments with
    | FragmentDict d =>
        match order with
        | Some (key :: keys) =>
            map (fun key => fragments_get d key []) (key :: keys)
        | _ =>
            map (fun key => fragments_get d key []) (sorted (map fst d))
        end
    | FragmentList l => l
    end in
  concat (filter truthy ordered_fragments).

End Fragments.

End Assembler.

(* ----------------------------------------------------------------- *)
(** ** Images (PIL) *)

Module Image.

(** What [pixels[x, y]] gives: an integer for an image of one band, the
    tuple of its band values otherwise. *)
Inductive pixel : Type :=
| Band (v : Z)
| Bands (vs : list Z).

(** An opened image: [img.size] and the pixel access object [img.load()]. *)
Record image : Type := mkImage {
  img_width : Z;
  img_height : Z;
  pixels : Z -> Z -> pixel
}.

(** [pixels[x, y]].  A negative index counts from the far edge; an index
    outside the image raises [IndexError], which is [None] here. *)
Definition getpixel (img : image) (x y : Z) : option pixel :=
  let x := if x <? 0 then img_width img + x else x in
  let y := if y <? 0 then img_height img + y else y in
  if (0 <=? x) && (x <? img_width img) && (0 <=? y) && (y <? img_height img)
  then Some (pixels img x y)
  else None.

End Image.

(* ----------------------------------------------------------------- *)
(** ** lsb_extractor.py and spiral_reader.py: reading an image *)

Module Extractor.
Import Py Image Lsb.

(** [channels_to_extract] *)
Definition channels_to_extract : dict nat :=
  [("red"%string, 0%nat); ("green"%string, 1%nat); ("blue"%string, 2%nat)].

(** "Determine which channels to process" *)
Definition channels_of (channel : string) : list string :=
  if String.eqb channel "all" then ["red"; "green"; "blue"]%string
  else [Decoder.lower channel].

(** The bit appended for a pixel: [str(channel_value & 1)] when the pixel is
    a tuple longer than [ch_index], nothing otherwise. *)
Definition pixel_bits (ch_index : nat) (p : pixel) : bitstream :=
  match p with
  | Bands vs =>
      match nth_error vs ch_index with
      | Some channel_value => [Z.land channel_value 1 =? 1]
      | None => []
      end
  | Band _ => []
  end.

(** The bits of the pixels at the given coordinates, in order; [None] when a
    pixel access raises. *)
Fixpoint read_bits (img : image) (ch_index : nat) (coords : list (Z * Z))
  : option bitstream :=
  match coords with
  | [] => Some []
  | (x, y) :: coords' =>
      match getpixel img x y with
      | None => None
      | Some pixel =>
          match read_bits img ch_index coords' with
          | None => None
          | Some bits => Some (pixel_bits ch_index pixel ++ bits)
          end
      end
  end.

(** [for y in range(height): for x in range(width)] *)
Definition raster_coordinates (width height : Z) : list (Z * Z) :=
  flat_map (fun y => map (fun x => (x, y)) (range 0 width 1)) (range 0 height 1).

(** The characters of the inline base64 check: the alphabet, the pad, line
    feed and carriage return. *)
Definition base64_line_chars (c : Z) : bool :=
  Decoder.base64_chars c || (c =? 10) || (c =? 13).

(** "Try Base64 decoding": the value stored under ['base64_decoded'], if
    any. *)
Definition try_base64 (ascii_text : str) : option str :=
  if truthy ascii_text && (10 <? length ascii_text)%nat then
    if forallb base64_line_chars (strip ascii_text) then
      catch (decoded <- b64decode (Str (strip ascii_text)) ;;
             Return (decode_utf8_ignore decoded))
    else None
  else None.

(** [binary_string[:100] + '...' if len(binary_string) > 100 else
    binary_string], the bits being the characters 0 and 1. *)
Definition binary_preview (binary_string : bitstream) : str :=
  let chars := map (fun b : bool => if b then 49 else 48) in
  if (100 <? length binary_string)%nat
  then chars (firstn 100 binary_string) ++ lit "..."
  else chars binary_string.

(** [results[ch_name]] of [extract_lsb_from_channel]. *)
Record channel_data : Type := mkChannelData {
  total_bits : nat;
  total_bytes : nat;
  binary : str;
  converted : decoded;
  base64_decoded : option str
}.

Definition channel_entry (binary_string : bitstream) : channel_data :=
  let c := convert_strict binary_string in
  mkChannelData (length binary_string) (length (raw_bytes c))
                (binary_preview binary_string) c (try_base64 (ascii_text c)).

(** [for ch_name in channels]; an exception leaves the function through
    [except Exception: ... return None]. *)
Fixpoint extract_channels (img : image) (channels : list string)
         (results : dict channel_data) : option (dict channel_data) :=
  match channels with
  | [] => Some results
  | ch_name :: channels' =>
      match dict_get ch_name channels_to_extract with
      | None => extract_channels img channels' results
      | Some ch_index =>
          match read_bits img ch_index
                          (raster_coordinates (img_width img) (img_height img)) with
          | None => None
          | Some bits =>
              extract_channels img channels'
                               (dict_set ch_name (channel_entry bits) results)
          end
      end
  end.

(** [extract_lsb_from_channel(image_path, channel)], for the image the path
    opens. *)
Definition extract_lsb_from_channel (img : image) (channel : string)
  : option (dict channel_data) :=
  extract_channels img (channels_of channel) [].

End Extractor.

Module SpiralReader.
Import Py Image Lsb Spiral.

(** The variables [byte_data] and [ascii_text] of the conversion loop of
    [read_spiral_lsb]. *)
Record spiral_text : Type := mkSpiralText {
  byte_data : bytes;
  text : str
}.

(** The [for i in range(0, len(binary_string), 8)] loop: an incomplete last
    group of bits ends it. *)
Fixpoint convert_loop (binary_string : bitstream) (offsets : list Z)
         (st : spiral_text) : spiral_text :=
  match offsets with
  | [] => st
  | i :: offsets' =>
      let byte := slice8 binary_string i in
      if (length byte <? 8)%nat then st
      else
        let byte_value := int2 byte in
        let data := byte_data st ++ [byte_value] in
        if printable byte_value then
          convert_loop binary_string offsets'
                       (mkSpiralText data (text st ++ [byte_value]))
        else if byte_value =? 0 then mkSpiralText data (text st)
        else convert_loop binary_string offsets' (mkSpiralText data (text st))
  end.

Definition convert_tolerant (binary_string : bitstream) : spiral_text :=
  convert_loop binary_string
               (range 0 (Z.of_nat (length binary_string)) 8)
               (mkSpiralText [] []).

(** [results[ch_name]] of [read_spiral_lsb]. *)
Record spiral_data : Type := mkSpiralData {
  total_bits : nat;
  total_bytes : nat;
  binary : str;
  converted : spiral_text
}.

Definition spiral_entry (binary_string : bitstream) : spiral_data :=
  let c := convert_tolerant binary_string in
  mkSpiralData (length binary_string) (length (byte_data c))
               (Extractor.binary_preview binary_string) c.

(** [for ch_name in channels], over the spiral coordinates. *)
Fixpoint extract_channels (img : image) (spiral_coords : list coord)
         (channels : list string) (results : dict spiral_data)
  : option (dict spiral_data) :=
  match channels with
  | [] => Some results
  | ch_name :: channels' =>
      match dict_get ch_name Extractor.channels_to_extract with
      | None => extract_channels img spiral_coords channels' results
      | Some ch_index =>
          match Extractor.read_bits img ch_index spiral_coords with
          | None => None
          | Some bits =>
              extract_channels img spiral_coords channels'
                               (dict_set ch_name (spiral_entry bits) results)
          end
      end
  end.

(** [read_spiral_lsb(image_path, clockwise, channel)], for the image the
    path opens.  The outer [None] is "fuel exhausted" in the generation of
    the coordinates, the inner one the [None] returned after an exception. *)
Definition read_spiral_lsb (fuel : nat) (img : image) (clockwise : bool)
           (channel : string) : option (option (dict spiral_data)) :=
  match generate_spiral_coordinates fuel (img_width img) (img_height img)
                                    clockwise with
  | None => None
  | Some spiral_coords =>
      Some (extract_channels img spiral_coords
                             (Extractor.channels_of channel) [])
  end.

End SpiralReader.

(* ================================================================= *)
(** * Part II: properties *)
(* ================================================================= *)

(* ----------------------------------------------------------------- *)
(** ** The spiral visits every pixel exactly once *)

Module SpiralSpec.
Import Spiral.

Example spiral_3x2 :
  generate_spiral_coordinates 5 3 2 true
  = Some [(1, 1); (2, 1); (0, 1); (0, 0); (1, 0); (2, 0)].
Proof. reflexivity. Qed.

Example spiral_2x3_ccw :
  generate_spiral_coordinates 5 2 3 false
  = Some [(1, 1); (0, 1); (0, 0); (1, 0); (1, 2); (0, 2)].
Proof. reflexivity. Qed.

(** *** Grid facts *)

Definition inb (width height : Z) (p : coord) : Prop :=
  0 <= fst p < width /\ 0 <= snd p < height.

Lemma in_bounds_spec width height x y :
  in_bounds width height x y = true <-> inb width height (x, y).
Proof.
  unfold in_bounds, inb; simpl.
  rewrite !andb_true_iff, !Z.leb_le, !Z.ltb_lt. lia.
Qed.

Lemma in_zrange n z : In z (zrange n) <-> 0 <= z < n.
Proof.
  unfold zrange. rewrite in_map_iff. split.
  - intros (i & <- & Hi). apply in_seq in Hi. lia.
  - intros Hz. exists (Z.to_nat z). split; [lia | apply in_seq; lia].
Qed.

Lemma in_all_coordinates width height p :
  In p (all_coordinates width height) <-> inb width height p.
Proof.
  destruct p as [x y]. unfold all_coordinates, inb, coord.
  rewrite in_prod_iff, !in_zrange. reflexivity.
Qed.

Lemma length_all_coordinates width height :
  0 <= width -> 0 <= height ->
  Z.of_nat (length (all_coordinates width height)) = width * height.
Proof.
  intros Hw Hh. unfold all_coordinates, zrange, coord.
  rewrite length_prod, !length_map, !length_seq. nia.
Qed.

(** A list is [safe] when it holds pixels of the image only, each once. *)
Definition safe (width height : Z) (cs : list coord) : Prop :=
  NoDup cs /\ forall p, In p cs -> inb width height p.

(** A safe list that has reached [width * height] entries is an enumeration
    of the image. *)
Lemma safe_filled_enumeration width height cs :
  0 <= width -> 0 <= height ->
  safe width height cs -> filled width height cs = true ->
  Permutation cs (all_coordinates width height)
  /\ Z.of_nat (length cs) = width * height.
Proof.
  intros Hw Hh [Hnd Hin] Hfull.
  unfold filled in Hfull. apply Z.leb_le in Hfull.
  pose proof (length_all_coordinates width height Hw Hh) as Hlen.
  assert (Hperm : Permutation cs (all_coordinates width height)).
  { apply NoDup_Permutation_bis; [assumption | lia |].
    intros p Hp. apply in_all_coordinates. auto. }
  split; [assumption |].
  rewrite (Permutation_length Hperm). assumption.
Qed.

(** *** One leg of the spiral *)

Section Legs.
Variables width height : Z.

(** [covers R cs]: the list holds, once each, the pixels of the region [R]. *)
Definition covers (R : coord -> Prop) (cs : list coord) : Prop :=
  NoDup cs /\ forall p, In p cs <-> inb width height p /\ R p.

Lemma covers_ext (R R' : coord -> Prop) cs :
  (forall p, R p <-> R' p) -> covers R cs -> covers R' cs.
Proof.
  intros HR [Hnd Hin]. split; [assumption |].
  intros p. rewrite Hin, HR. reflexivity.
Qed.

Lemma covers_safe R cs : covers R cs -> safe width height cs.
Proof.
  intros [Hnd Hin]. split; [assumption |].
  intros p Hp. apply Hin in Hp. tauto.
Qed.

(** The [n] cells reached from [(x, y)] by steps of [(dx, dy)]. *)
Definition segment (x y dx dy : Z) (n : nat) (p : coord) : Prop :=
  exists i, 1 <= i <= Z.of_nat n /\ p = (x + i * dx, y + i * dy).

Lemma covers_step R cs x y :
  covers R cs -> ~ R (x, y) ->
  covers (fun p => R p \/ p = (x, y))
         (if in_bounds width height x y then cs ++ [(x, y)] else cs).
Proof.
  intros [Hnd Hin] Hfresh.
  destruct (in_bounds width height x y) eqn:Hb.
  - apply in_bounds_spec in Hb. split.
    + apply NoDup_app; [assumption | repeat constructor; simpl; tauto |].
      intros a Ha [<- | []]. apply Hin in Ha. tauto.
    + intros p. rewrite in_app_iff, Hin. simpl. split.
      * intros [[? ?] | [<- | []]]; auto.
      * intros [? [? | ->]]; auto.
  - split; [assumption |].
    intros p. rewrite Hin. split.
    + tauto.
    + intros [Hp [? | ->]]; [tauto |].
      apply in_bounds_spec in Hp. congruence.
Qed.

Lemma leg_spec dx dy n :
  dx <> 0 \/ dy <> 0 ->
  forall st R,
    covers R (coordinates st) ->
    (forall i, 1 <= i <= Z.of_nat n ->
               ~ R (pos_x st + i * dx, pos_y st + i * dy)) ->
    safe width height (coordinates (leg width height dx dy n st))
    /\ (filled width height (coordinates (leg width height dx dy n st)) = false ->
        pos_x (leg width height dx dy n st) = pos_x st + Z.of_nat n * dx
        /\ pos_y (leg width height dx dy n st) = pos_y st + Z.of_nat n * dy
        /\ covers (fun p => R p \/ segment (pos_x st) (pos_y st) dx dy n p)
                  (coordinates (leg width height dx dy n st))).
Proof.
  intros Hd. induction n as [| n IH]; intros st R Hc Hfree.
  - simpl. split; [eapply covers_safe; eassumption |].
    intros _. split; [lia | split; [lia |]].
    apply (covers_ext R); [| assumption].
    intros p. split; [tauto |].
    intros [HR | (i & Hi & _)]; [assumption | simpl in Hi; lia].
  - cbn [leg].
    assert (Hc1 := covers_step R (coordinates st)
                     (pos_x st + dx) (pos_y st + dy) Hc).
    assert (Hfresh : ~ R (pos_x st + dx, pos_y st + dy)).
    { specialize (Hfree 1). rewrite !Z.mul_1_l in Hfree. apply Hfree. lia. }
    specialize (Hc1 Hfresh).
    set (cs1 := if in_bounds width height (pos_x st + dx) (pos_y st + dy)
                then coordinates st ++ [(pos_x st + dx, pos_y st + dy)]
                else coordinates st) in *.
    destruct (filled width height cs1) eqn:Hf.
    + simpl. split; [eapply covers_safe; eassumption | congruence].
    + specialize (IH (mkState (pos_x st + dx) (pos_y st + dy) cs1) _ Hc1).
      simpl pos_x in IH. simpl pos_y in IH. simpl coordinates in IH.
      destruct IH as [Hsafe Hnext].
      { intros i Hi [HR | Heq].
        - apply (Hfree (i + 1)); [lia |].
          replace (pos_x st + (i + 1) * dx) with (pos_x st + dx + i * dx) by lia.
          replace (pos_y st + (i + 1) * dy) with (pos_y st + dy + i * dy) by lia.
          exact HR.
        - injection Heq as Hx Hy. destruct Hd; nia. }
      split; [assumption |].
      intros Hnf. destruct (Hnext Hnf) as (Hx & Hy & Hcov).
      rewrite Nat2Z.inj_succ. split; [lia | split; [lia |]].
      revert Hcov. apply covers_ext.
      intros p. unfold segment. rewrite Nat2Z.inj_succ. split.
      * intros [[HR | ->] | (i & Hi & ->)]; auto.
        -- right. exists 1. split; [lia | f_equal; lia].
        -- right. exists (i + 1). split; [lia | f_equal; lia].
      * intros [HR | (i & Hi & ->)]; auto.
        destruct (Z.eq_dec i 1) as [-> | Hne].
        -- left. right. f_equal; lia.
        -- right. exists (i - 1). split; [lia | f_equal; lia].
Qed.

End Legs.

(** *** The rings of the spiral *)

(** The legs run right, down, left, up when clockwise, and mirrored through
    the centre otherwise. *)
Definition sign (clockwise : bool) : Z := if clockwise then 1 else -1.

(** The cells visited when [k] iterations of the [while] loop are complete:
    in coordinates [(u, v)] relative to the centre (mirrored for the
    counterclockwise spiral), the square of radius [k] less its first row,
    of which only the corner [(-k, -k)], where the walk stands, is visited. *)
Definition ring (width height : Z) (clockwise : bool) (k : Z) (p : coord) : Prop :=
  let u := sign clockwise * (fst p - width / 2) in
  let v := sign clockwise * (snd p - height / 2) in
  (- k <= u <= k /\ - k < v <= k) \/ (u = - k /\ v = - k).

Ltac ring_arith :=
  unfold ring, sign in *; cbn [fst snd] in *;
  repeat match goal with
         | H : _ \/ _ |- _ => destruct H
         | H : _ /\ _ |- _ => destruct H
         | H : segment _ _ _ _ _ _ |- _ => destruct H as (? & ? & ?)
         | H : (_, _) = (_, _) |- _ => injection H as ? ?
         end;
  subst; try lia.

(** The next leg of the walk, for a state that is not yet [filled]. *)
Ltac next_leg st' Hx Hy Hc :=
  match goal with
  | Hcov : covers ?w ?h ?R (coordinates ?st)
    |- context [leg ?w ?h ?dx ?dy ?n ?st] =>
      let Hs := fresh "Hsafe" in
      let Hn := fresh "Hnext" in
      let F := fresh "F" in
      destruct (leg_spec w h dx dy n ltac:(lia) st R Hcov) as [Hs Hn];
      [ intros ? ? ?; ring_arith
      | set (st' := leg w h dx dy n st) in *;
        destruct (filled w h (coordinates st')) eqn:F;
        [ left; exists (coordinates st'); auto
        | destruct (Hn eq_refl) as (Hx & Hy & Hc); clear Hn Hcov ] ]
  end.

Lemma round_spec width height clockwise fuel k step st :
  0 <= k -> Z.of_nat step = 2 * k + 1 ->
  pos_x st = width / 2 - sign clockwise * k ->
  pos_y st = height / 2 - sign clockwise * k ->
  covers width height (ring width height clockwise k) (coordinates st) ->
  filled width height (coordinates st) = false ->
  (exists cs,
      spiral_loop (S fuel) width height clockwise step st = Some cs
      /\ safe width height cs /\ filled width height cs = true)
  \/ (exists st',
         spiral_loop (S fuel) width height clockwise step st
         = spiral_loop fuel width height clockwise (S (S step)) st'
         /\ pos_x st' = width / 2 - sign clockwise * (k + 1)
         /\ pos_y st' = height / 2 - sign clockwise * (k + 1)
         /\ covers width height (ring width height clockwise (k + 1))
                   (coordinates st')).
Proof.
  intros Hk Hstep Hx Hy Hc F0.
  cbn [spiral_loop]. rewrite F0.
  pose proof (Nat2Z.inj_succ step) as Hstep'.
  destruct clockwise.
  - next_leg st1 Hx1 Hy1 Hc1. next_leg st2 Hx2 Hy2 Hc2.
    next_leg st3 Hx3 Hy3 Hc3. next_leg st4 Hx4 Hy4 Hc4.
    right. exists st4. split; [reflexivity |].
    split; [unfold sign in *; lia | split; [unfold sign in *; lia |]].
    revert Hc4. apply covers_ext. intros [x y]. split.
    + intros; ring_arith.
    + intros Hr.
      assert (Hcases :
                ring width height true k (x, y)
                \/ (y - height / 2 = - k /\ - k + 1 <= x - width / 2 <= k + 1)
                \/ (x - width / 2 = k + 1 /\ - k + 1 <= y - height / 2 <= k + 1)
                \/ (y - height / 2 = k + 1 /\ - k - 1 <= x - width / 2 <= k)
                \/ (x - width / 2 = - k - 1 /\ - k - 1 <= y - height / 2 <= k))
        by (unfold ring, sign in *; cbn [fst snd] in *; lia).
      clear Hr.
      destruct Hcases as [Hr | [Hr | [Hr | [Hr | Hr]]]].
      * auto.
      * left; left; left; right. exists (x - width / 2 + k).
        split; [lia | f_equal; unfold sign in *; lia].
      * left; left; right. exists (y - height / 2 + k).
        split; [lia | f_equal; unfold sign in *; lia].
      * left; right. exists (k + 1 - (x - width / 2)).
        split; [lia | f_equal; unfold sign in *; lia].
      * right. exists (k + 1 - (y - height / 2)).
        split; [lia | f_equal; unfold sign in *; lia].
  - next_leg st1 Hx1 Hy1 Hc1. next_leg st2 Hx2 Hy2 Hc2.
    next_leg st3 Hx3 Hy3 Hc3. next_leg st4 Hx4 Hy4 Hc4.
    right. exists st4. split; [reflexivity |].
    split; [unfold sign in *; lia | split; [unfold sign in *; lia |]].
    revert Hc4. apply covers_ext. intros [x y]. split.
    + intros; ring_arith.
    + intros Hr.
      assert (Hcases :
                ring width height false k (x, y)
                \/ (height / 2 - y = - k /\ - k + 1 <= width / 2 - x <= k + 1)
                \/ (width / 2 - x = k + 1 /\ - k + 1 <= height / 2 - y <= k + 1)
                \/ (height / 2 - y = k + 1 /\ - k - 1 <= width / 2 - x <= k)
                \/ (width / 2 - x = - k - 1 /\ - k - 1 <= height / 2 - y <= k))
        by (unfold ring, sign in *; cbn [fst snd] in *; lia).
      clear Hr.
      destruct Hcases as [Hr | [Hr | [Hr | [Hr | Hr]]]].
      * auto.
      * left; left; left; right. exists (width / 2 - x + k).
        split; [lia | f_equal; unfold sign in *; lia].
      * left; left; right. exists (height / 2 - y + k).
        split; [lia | f_equal; unfold sign in *; lia].
      * left; right. exists (k + 1 - (width / 2 - x)).
        split; [lia | f_equal; unfold sign in *; lia].
      * right. exists (k + 1 - (height / 2 - y)).
        split; [lia | f_equal; unfold sign in *; lia].
Qed.

(** *** Termination of the walk *)

Lemma NoDup_zrange n : NoDup (zrange n).
Proof.
  unfold zrange. apply NoDup_map_NoDup_ForallPairs; [| apply seq_NoDup].
  intros a b _ _. apply Nat2Z.inj.
Qed.

Lemma NoDup_list_prod {A B : Type} (l : list A) (l' : list B) :
  NoDup l -> NoDup l' -> NoDup (list_prod l l').
Proof.
  intros Hl Hl'. induction Hl as [| a l Ha Hl IH]; simpl; [constructor |].
  apply NoDup_app; [| assumption |].
  - apply NoDup_map_NoDup_ForallPairs; [| assumption].
    intros b b' _ _ Heq. congruence.
  - intros [a' b] Hin Hin'. apply in_map_iff in Hin as (b' & Heq & _).
    apply in_prod_iff in Hin' as [Hin' _]. congruence.
Qed.

(** Once the ring is wider than the image, every pixel has been visited. *)
Lemma ring_filled width height clockwise k cs :
  1 <= width -> 1 <= height -> width + height <= k ->
  covers width height (ring width height clockwise k) cs ->
  filled width height cs = true.
Proof.
  intros Hw Hh Hk [Hnd Hin].
  unfold filled. apply Z.leb_le.
  rewrite <- (length_all_coordinates width height) by lia.
  apply inj_le, NoDup_incl_length.
  - apply NoDup_list_prod; apply NoDup_zrange.
  - intros [x y] Hp. apply in_all_coordinates in Hp. apply Hin.
    split; [assumption |].
    destruct Hp as [Hx Hy]. cbn [fst snd] in Hx, Hy.
    assert (0 <= width / 2 < width) by (split; [apply Z.div_pos | apply Z.div_lt]; lia).
    assert (0 <= height / 2 < height) by (split; [apply Z.div_pos | apply Z.div_lt]; lia).
    unfold ring, sign; cbn [fst snd]. destruct clockwise; lia.
Qed.

Lemma spiral_loop_terminates width height clockwise :
  1 <= width -> 1 <= height ->
  forall fuel k step st,
    0 <= k -> Z.of_nat step = 2 * k + 1 ->
    pos_x st = width / 2 - sign clockwise * k ->
    pos_y st = height / 2 - sign clockwise * k ->
    covers width height (ring width height clockwise k) (coordinates st) ->
    width + height <= k + Z.of_nat fuel ->
    exists cs,
      spiral_loop (S fuel) width height clockwise step st = Some cs
      /\ safe width height cs /\ filled width height cs = true.
Proof.
  intros Hw Hh.
  induction fuel as [| fuel IH]; intros k step st Hk Hstep Hx Hy Hc Hfuel;
    destruct (filled width height (coordinates st)) eqn:F0.
  - exists (coordinates st). cbn [spiral_loop]. rewrite F0.
    split; [reflexivity | split; [eapply covers_safe; eassumption | reflexivity]].
  - rewrite (ring_filled width height clockwise k) in F0;
      [discriminate | lia | lia | simpl in Hfuel; lia | assumption].
  - exists (coordinates st). cbn [spiral_loop]. rewrite F0.
    split; [reflexivity | split; [eapply covers_safe; eassumption | reflexivity]].
  - destruct (round_spec width height clockwise (S fuel) k step st
                Hk Hstep Hx Hy Hc F0)
      as [Hdone | (st' & Heq & Hx' & Hy' & Hc')]; [exact Hdone |].
    rewrite Heq. apply (IH (k + 1)); try assumption; lia.
Qed.

(** More fuel does not change a result. *)
Lemma spiral_loop_fuel_mono width height clockwise fuel :
  forall step st cs,
    spiral_loop fuel width height clockwise step st = Some cs ->
    spiral_loop (S fuel) width height clockwise step st = Some cs.
Proof.
  induction fuel as [| fuel IH]; intros step st cs H; [discriminate |].
  cbn [spiral_loop] in H.
  remember (S fuel) as fuel' eqn:Hfuel. cbn [spiral_loop].
  repeat match type of H with
         | (if ?c then _ else _) = _ =>
             destruct c; [exact H |]
         end.
  subst fuel'. apply IH, H.
Qed.

Lemma spiral_loop_fuel_le width height clockwise step st cs fuel fuel' :
  (fuel <= fuel')%nat ->
  spiral_loop fuel width height clockwise step st = Some cs ->
  spiral_loop fuel' width height clockwise step st = Some cs.
Proof.
  induction 1 as [| fuel' _ IH]; [trivial |].
  intros H. apply spiral_loop_fuel_mono, IH, H.
Qed.

(** C1.  For every image of width and height at least 1 and either
    direction, [generate_spiral_coordinates] returns (given at least
    [width + height + 1] iterations of fuel, and the same list for any larger
    amount) a list of exactly [width * height] coordinates, without
    duplicates, whose members are exactly the coordinates in bounds: a
    permutation of all pixel coordinates.  Square images are not special. *)
Theorem spiral_is_permutation (width height : Z) (clockwise : bool) :
  1 <= width -> 1 <= height ->
  exists cs,
    (forall fuel, (Z.to_nat (width + height) < fuel)%nat ->
                  generate_spiral_coordinates fuel width height clockwise = Some cs)
    /\ Z.of_nat (length cs) = width * height
    /\ NoDup cs
    /\ (forall x y, In (x, y) cs <-> 0 <= x < width /\ 0 <= y < height)
    /\ Permutation cs (all_coordinates width height).
Proof.
  intros Hw Hh.
  destruct (spiral_loop_terminates width height clockwise Hw Hh
              (Z.to_nat (width + height)) 0 1%nat
              (mkState (width / 2) (height / 2) [(width / 2, height / 2)]))
    as (cs & Hrun & Hsafe & Hfull); simpl; try lia.
  { assert (0 <= width / 2 < width) by (split; [apply Z.div_pos | apply Z.div_lt]; lia).
    assert (0 <= height / 2 < height) by (split; [apply Z.div_pos | apply Z.div_lt]; lia).
    split.
    - repeat constructor. simpl. tauto.
    - intros [x y]. unfold inb, ring, sign; simpl. split.
      + intros [Heq | []]. injection Heq as <- <-. destruct clockwise; lia.
      + intros [_ Hr]. left. f_equal; destruct clockwise; lia. }
  destruct (safe_filled_enumeration width height cs) as [Hperm Hlen];
    try assumption; try lia.
  exists cs. split; [| split; [assumption | split; [apply Hsafe | split; [| assumption]]]].
  - intros fuel Hfuel. unfold generate_spiral_coordinates.
    eapply spiral_loop_fuel_le; [| exact Hrun]. lia.
  - intros x y. rewrite (Permutation_in' (eq_refl (x, y)) Hperm).
    rewrite in_all_coordinates. reflexivity.
Qed.

(** The theorem at a 3 by 2 image, clockwise. *)
Lemma spiral_is_permutation_witness :
  1 <= 3 /\ 1 <= 2 /\
  exists cs,
    (forall fuel, (Z.to_nat (3 + 2) < fuel)%nat ->
                  generate_spiral_coordinates fuel 3 2 true = Some cs)
    /\ Z.of_nat (length cs) = 3 * 2
    /\ NoDup cs
    /\ (forall x y, In (x, y) cs <-> 0 <= x < 3 /\ 0 <= y < 2)
    /\ Permutation cs (all_coordinates 3 2).
Proof.
  split; [lia | split; [lia |]].
  apply (spiral_is_permutation 3 2 true); lia.
Defined.

End SpiralSpec.

(* ----------------------------------------------------------------- *)
(** ** Strict conversion of a bit stream *)

Module LsbSpec.
Import Py Lsb.

(** The bytes of a bit stream: its complete groups of eight bits, most
    significant bit first. *)
Definition packed (binary_string : bitstream) : bytes :=
  map (fun i => int2 (slice8 binary_string i)) (byte_offsets binary_string).

(** The bytes before the first null byte, and those up to and including
    it. *)
Fixpoint before_null (bs : bytes) : bytes :=
  match bs with
  | [] => []
  | b :: bs' => if b =? 0 then [] else b :: before_null bs'
  end.

Fixpoint through_null (bs : bytes) : bytes :=
  match bs with
  | [] => []
  | b :: bs' => if b =? 0 then [b] else b :: through_null bs'
  end.

(** The unbroken run of printable bytes at the head of a byte sequence: it
    ends at the first byte that is null or not printable. *)
Fixpoint printable_prefix (bs : bytes) : bytes :=
  match bs with
  | [] => []
  | b :: bs' => if printable b then b :: printable_prefix bs' else []
  end.

Definition bits_of_byte (b : Z) : list bool :=
  map (fun k => Z.testbit b (Z.of_nat k)) [7; 6; 5; 4; 3; 2; 1; 0]%nat.

Definition bits_of (bs : bytes) : bitstream := flat_map bits_of_byte bs.

Example packed_AB : packed (bits_of [0x41; 0x42] ++ [true; false; true]) = [0x41; 0x42].
Proof. reflexivity. Qed.

Lemma printable_not_null b : printable b = true -> (b =? 0) = false.
Proof.
  unfold printable. rewrite !orb_true_iff, andb_true_iff, !Z.leb_le, !Z.eqb_eq.
  intros H. apply Z.eqb_neq. lia.
Qed.

Lemma convert_loop_spec binary_string offsets :
  forall st,
    let bs := map (fun i => int2 (slice8 binary_string i)) offsets in
    convert_loop binary_string offsets st
    = mkDecoded (raw_bytes st ++ through_null bs)
                (ascii_text st ++ filter printable (before_null bs))
                (possibly_corrupted st
                 || existsb (fun b => negb (printable b)) (before_null bs)).
Proof.
  induction offsets as [| i offsets IH]; intros st; cbn zeta.
  - destruct st; simpl. rewrite !app_nil_r, orb_false_r. reflexivity.
  - cbn [convert_loop map through_null before_null].
    set (v := int2 (slice8 binary_string i)).
    destruct (printable v) eqn:Hp.
    + rewrite (printable_not_null v Hp), IH. cbn [raw_bytes ascii_text possibly_corrupted].
      cbn [filter existsb]. rewrite Hp. cbn [negb orb].
      rewrite <- !app_assoc. reflexivity.
    + destruct (v =? 0) eqn:Hz.
      * cbn [filter existsb]. rewrite app_nil_r, orb_false_r. reflexivity.
      * rewrite IH. cbn [raw_bytes ascii_text possibly_corrupted].
        cbn [filter existsb]. rewrite Hp. cbn [negb orb].
        rewrite <- !app_assoc, orb_true_r. reflexivity.
Qed.

(** C4, as the code has it.  In the strict conversion of any bit stream the
    recorded bytes are the packed bytes up to and including the first null
    byte, where extraction stops; [possibly_corrupted] is set exactly when a
    byte before that null byte is not printable, and such a byte does not
    stop the extraction; [ascii_text] holds every printable byte before the
    first null byte, in order, the bytes that are not printable being
    skipped. *)
Theorem convert_strict_spec (binary_string : bitstream) :
  let bs := packed binary_string in
  let r := convert_strict binary_string in
  raw_bytes r = through_null bs
  /\ possibly_corrupted r = existsb (fun b => negb (printable b)) (before_null bs)
  /\ ascii_text r = filter printable (before_null bs).
Proof.
  cbn zeta. unfold convert_strict, packed.
  rewrite convert_loop_spec. simpl. auto.
Qed.

(** C4, as the specification words it: the text is not the printable prefix of the
    bytes.  For the bytes 0x41, 0x01, 0x42 the byte 0x01 sets the flag and
    the text goes on past it. *)
Lemma ascii_text_not_printable_prefix :
  packed (bits_of [0x41; 0x01; 0x42]) = [0x41; 0x01; 0x42]
  /\ ascii_text (convert_strict (bits_of [0x41; 0x01; 0x42])) = [0x41; 0x42]
  /\ possibly_corrupted (convert_strict (bits_of [0x41; 0x01; 0x42])) = true
  /\ printable_prefix (packed (bits_of [0x41; 0x01; 0x42])) = [0x41]
  /\ ascii_text (convert_strict (bits_of [0x41; 0x01; 0x42]))
     <> printable_prefix (packed (bits_of [0x41; 0x01; 0x42])).
Proof.
  repeat split; try reflexivity.
  vm_compute. discriminate.
Qed.

End LsbSpec.

(* ----------------------------------------------------------------- *)
(** ** The encoding layer *)

Module DecoderSpec.
Import Py Decoder.

Example decode_base64_hello :
  decode_base64 (Str (lit "SGVsbG8=")) = Some (lit "Hello").
Proof. reflexivity. Qed.

Example decode_rot13_hello :
  decode_rot13 (Str (lit "Uryyb, Jbeyq!")) = Some (lit "Hello, World!").
Proof. reflexivity. Qed.

(** *** ROT-13 *)

Definition is_upper (c : Z) : Prop := 65 <= c <= 90.
Definition is_lower (c : Z) : Prop := 97 <= c <= 122.

(** Case analysis on the range tests of a goal. *)
Ltac range_cases :=
  repeat match goal with
         | |- context [(?a <=? ?c) && (?c <=? ?b)] =>
             let E := fresh "E" in
             destruct ((a <=? c) && (c <=? b)) eqn:E;
             [ apply andb_true_iff in E as [?%Z.leb_le ?%Z.leb_le]
             | apply andb_false_iff in E as [?%Z.leb_gt | ?%Z.leb_gt] ]
         end.

Lemma rot13_char_rotates c :
  (is_upper c -> is_upper (rot13_char c)
                 /\ (rot13_char c - 65) mod 26 = (c - 65 + 13) mod 26)
  /\ (is_lower c -> is_lower (rot13_char c)
                    /\ (rot13_char c - 97) mod 26 = (c - 97 + 13) mod 26)
  /\ (~ is_upper c -> ~ is_lower c -> rot13_char c = c).
Proof.
  unfold is_upper, is_lower, rot13_char.
  pose proof (Z.mod_pos_bound (c - 65 + 13) 26 ltac:(lia)).
  pose proof (Z.mod_pos_bound (c - 97 + 13) 26 ltac:(lia)).
  range_cases; repeat split; intros; try lia;
    match goal with
    | |- (?m + ?k - ?k) mod 26 = ?m =>
        replace (m + k - k) with m by lia; apply Z.mod_mod; lia
    end.
Qed.

Lemma rot13_char_involutive c : rot13_char (rot13_char c) = c.
Proof.
  unfold rot13_char.
  pose proof (Z.mod_pos_bound (c - 65 + 13) 26 ltac:(lia)).
  pose proof (Z.mod_pos_bound (c - 97 + 13) 26 ltac:(lia)).
  range_cases; try lia.
  - replace ((c - 65 + 13) mod 26 + 65 - 65 + 13)
      with ((c - 65 + 13) mod 26 + 13) by lia.
    rewrite Zplus_mod_idemp_l.
    replace (c - 65 + 13 + 13) with (c - 65 + 1 * 26) by lia.
    rewrite Z.mod_add, Z.mod_small; lia.
  - replace ((c - 97 + 13) mod 26 + 97 - 97 + 13)
      with ((c - 97 + 13) mod 26 + 13) by lia.
    rewrite Zplus_mod_idemp_l.
    replace (c - 97 + 13 + 13) with (c - 97 + 1 * 26) by lia.
    rewrite Z.mod_add, Z.mod_small; lia.
Qed.

Lemma map_rot13_involutive (x : str) : map rot13_char (map rot13_char x) = x.
Proof.
  rewrite map_map. rewrite <- (map_id x) at 2.
  apply map_ext. intros c. apply rot13_char_involutive.
Qed.

(** C8.  [decode_rot13] never fails on a string: it returns the string with
    every character mapped by [rot13_char], which moves a letter A-Z or a-z
    thirteen places on within its case and keeps any other character; and
    decoding the result again gives the original string back, for every
    string and so for every alphabetic one. *)
Theorem decode_rot13_involution (x : str) :
  decode_rot13 (Str x) = Some (map rot13_char x)
  /\ decode_rot13 (Str (map rot13_char x)) = Some x
  /\ length (map rot13_char x) = length x
  /\ Forall (fun c =>
               (is_upper c -> is_upper (rot13_char c)
                              /\ (rot13_char c - 65) mod 26 = (c - 65 + 13) mod 26)
               /\ (is_lower c -> is_lower (rot13_char c)
                                 /\ (rot13_char c - 97) mod 26 = (c - 97 + 13) mod 26)
               /\ (~ is_upper c -> ~ is_lower c -> rot13_char c = c)) x.
Proof.
  split; [reflexivity |].
  split; [unfold decode_rot13; simpl; f_equal; apply map_rot13_involutive |].
  split; [apply length_map |].
  apply Forall_forall. intros c _. apply rot13_char_rotates.
Qed.

(** *** Base64 *)

Example decode_base64_missing_padding :
  decode_base64 (Str (lit "SGVsbG8")) = None.
Proof. reflexivity. Qed.

Lemma base64_chars_value c :
  base64_chars c = false -> (c =? BASE64_PAD) = false /\ b64_value c = None.
Proof.
  unfold base64_chars, b64_value, BASE64_PAD. intros H.
  repeat (apply orb_false_iff in H as [H ?]).
  repeat match goal with
         | E : ?b = false |- context [?b] => rewrite E
         end.
  auto.
Qed.

Lemma isspace_not_base64 c : isspace c = true -> base64_chars c = false.
Proof.
  unfold isspace, base64_chars.
  rewrite !orb_true_iff, !andb_true_iff, !Z.leb_le, !Z.eqb_eq. intros H.
  repeat (apply orb_false_iff; split);
    try apply andb_false_iff; rewrite ?Z.leb_gt, ?Z.eqb_neq; lia.
Qed.

Lemma base64_chars_ascii c : base64_chars c = true -> (c <? 128) = true.
Proof.
  unfold base64_chars.
  rewrite !orb_true_iff, !andb_true_iff, !Z.leb_le, !Z.eqb_eq, Z.ltb_lt. lia.
Qed.

(** Characters outside the alphabet and the pad are skipped by the loop. *)
Lemma a2b_loop_filter input :
  forall quad_pos leftchar pads out,
    a2b_loop (filter base64_chars input) quad_pos leftchar pads out
    = a2b_loop input quad_pos leftchar pads out.
Proof.
  induction input as [| c rest IH]; intros q lc p out; [reflexivity |].
  cbn [filter]. destruct (base64_chars c) eqn:Hc.
  - cbn [a2b_loop]. rewrite !IH.
    destruct (b64_value c); rewrite ?IH; reflexivity.
  - destruct (base64_chars_value c Hc) as [Hpad Hval].
    cbn [a2b_loop]. rewrite Hpad, Hval. apply IH.
Qed.

(** The quad position reached after the characters of a string that holds
    no pad. *)
Lemma a2b_loop_data body :
  ~ In BASE64_PAD body ->
  forall quad_pos leftchar out,
    0 <= quad_pos < 4 ->
    exists leftchar' out',
    forall rest,
      a2b_loop (body ++ rest) quad_pos leftchar 0 out
      = a2b_loop rest
                 ((quad_pos + Z.of_nat (length (filter base64_chars body))) mod 4)
                 leftchar' 0 out'.
Proof.
  induction body as [| c body IH]; intros Hpad q lc out Hq.
  - exists lc, out. intros rest. simpl. rewrite Z.add_0_r, Z.mod_small by lia.
    reflexivity.
  - assert (Hc : (c =? BASE64_PAD) = false)
      by (apply Z.eqb_neq; intros ->; apply Hpad; left; reflexivity).
    assert (Hbody : ~ In BASE64_PAD body) by (intros H; apply Hpad; right; exact H).
    cbn [app a2b_loop filter]. rewrite Hc.
    destruct (base64_chars c) eqn:Hb.
    + destruct (b64_value c) as [v |] eqn:Hv.
      * cbn [length]. rewrite Nat2Z.inj_succ.
        assert (Hq4 : q = 0 \/ q = 1 \/ q = 2 \/ q = 3) by lia.
        destruct Hq4 as [-> | [-> | [-> | ->]]]; cbn [Z.eqb Pos.eqb];
          match goal with
          | |- exists _ _, forall rest, a2b_loop _ ?q' ?l ?p ?o = _ =>
              destruct (IH Hbody q' l o ltac:(lia)) as (lc' & out' & Heq);
              exists lc', out'; intros rest; rewrite Heq; f_equal
          end.
        -- f_equal; lia.
        -- f_equal; lia.
        -- f_equal; lia.
        -- replace (3 + Z.succ (Z.of_nat (length (filter base64_chars body))))
             with (0 + Z.of_nat (length (filter base64_chars body)) + 1 * 4) by lia.
           rewrite Z.mod_add by lia. reflexivity.
      * exfalso. revert Hb Hv. unfold base64_chars, b64_value.
        fold BASE64_PAD. rewrite Hc, orb_false_r. intros Hb.
        repeat match goal with
               | |- context [if ?b then _ else _] => destruct b; try discriminate
               end.
    + destruct (base64_chars_value c Hb) as [_ Hval]. rewrite Hval.
      apply IH; assumption.
Qed.

(** A quad is completed by two pads after two characters and by one pad
    after three; pads are skipped elsewhere. *)
Definition padding_completes (quad_pos : Z) (p : nat) : bool :=
  (quad_pos =? 0) || ((quad_pos =? 2) && (2 <=? p)%nat)
  || ((quad_pos =? 3) && (1 <=? p)%nat).

Lemma a2b_loop_skipped_pads p quad_pos leftchar out :
  0 <= quad_pos < 2 ->
  a2b_loop (repeat BASE64_PAD p) quad_pos leftchar 0 out
  = if quad_pos =? 0 then Return out else Raise BinasciiError.
Proof.
  intros Hq. induction p as [| p IH]; [reflexivity |].
  cbn [repeat a2b_loop]. rewrite Z.eqb_refl.
  destruct (Z.leb_spec 2 quad_pos); [lia | exact IH].
Qed.

Lemma a2b_loop_pads p quad_pos leftchar out :
  0 <= quad_pos < 4 ->
  a2b_loop (repeat BASE64_PAD p) quad_pos leftchar 0 out
  = if padding_completes quad_pos p then Return out else Raise BinasciiError.
Proof.
  intros Hq.
  assert (Hq4 : quad_pos = 0 \/ quad_pos = 1 \/ quad_pos = 2 \/ quad_pos = 3) by lia.
  destruct Hq4 as [-> | [-> | [-> | ->]]].
  - rewrite a2b_loop_skipped_pads by lia. reflexivity.
  - rewrite a2b_loop_skipped_pads by lia. reflexivity.
  - destruct p as [| [| p]]; reflexivity.
  - destruct p as [| p]; reflexivity.
Qed.

(** [strip] removes white space only, from both ends. *)
Lemma filter_lstrip (f : Z -> bool) s :
  (forall c, isspace c = true -> f c = false) ->
  filter f (lstrip s) = filter f s.
Proof.
  intros Hf. induction s as [| c s IH]; [reflexivity |].
  cbn [lstrip]. destruct (isspace c) eqn:Hc; [| reflexivity].
  cbn [filter]. rewrite (Hf c Hc). exact IH.
Qed.

Lemma filter_strip (f : Z -> bool) s :
  (forall c, isspace c = true -> f c = false) ->
  filter f (strip s) = filter f s.
Proof.
  intros Hf. unfold strip.
  rewrite filter_rev, filter_lstrip, filter_rev, rev_involutive, filter_lstrip;
    auto.
Qed.

Lemma in_lstrip c s : In c (lstrip s) -> In c s.
Proof.
  induction s as [| d s IH]; [trivial |].
  cbn [lstrip]. destruct (isspace d); [right; auto | trivial].
Qed.

Lemma in_strip c s : In c (strip s) -> In c s.
Proof.
  unfold strip. intros H.
  apply in_rev, in_lstrip, in_rev, in_lstrip in H. exact H.
Qed.

Lemma lstrip_base64 s : forallb base64_chars s = true -> lstrip s = s.
Proof.
  destruct s as [| c s]; [reflexivity |].
  cbn [forallb lstrip]. intros H. apply andb_true_iff in H as [Hc _].
  destruct (isspace c) eqn:Hs; [| reflexivity].
  apply isspace_not_base64 in Hs. congruence.
Qed.

Lemma strip_base64 s : forallb base64_chars s = true -> strip s = s.
Proof.
  intros H. unfold strip. rewrite (lstrip_base64 s H).
  rewrite lstrip_base64, rev_involutive; [reflexivity |].
  apply forallb_forall. intros c Hc. apply in_rev in Hc.
  revert c Hc. apply forallb_forall. exact H.
Qed.

Lemma isascii_sub (s t : str) :
  (forall c, In c t -> In c s) -> isascii s = true -> isascii t = true.
Proof.
  unfold isascii. intros Hsub Hs. apply forallb_forall. intros c Hc.
  apply Hsub in Hc. revert c Hc. apply forallb_forall. exact Hs.
Qed.

Lemma a2b_base64_strip text :
  a2b_base64 (strip text) = a2b_base64 text.
Proof.
  unfold a2b_base64.
  rewrite <- (a2b_loop_filter (strip text)).
  rewrite (filter_strip base64_chars) by apply isspace_not_base64.
  apply a2b_loop_filter.
Qed.

Lemma decode_base64_ascii text :
  isascii text = true ->
  decode_base64 (Str text)
  = option_map decode_utf8_ignore (catch (a2b_base64 text)).
Proof.
  intros Hascii. unfold decode_base64, b64decode.
  rewrite (isascii_sub text (strip text) (fun c => in_strip c text) Hascii).
  rewrite a2b_base64_strip. destruct (a2b_base64 text); reflexivity.
Qed.

(** The padding of [n] data characters by [p] pads is too short. *)
Definition padding_too_short (n : Z) (p : nat) : Prop :=
  n mod 4 = 1 \/ (n mod 4 = 2 /\ (p < 2)%nat) \/ (n mod 4 = 3 /\ p = 0%nat).

Lemma padding_completes_false n p :
  padding_completes (n mod 4) p = false <-> padding_too_short n p.
Proof.
  unfold padding_completes, padding_too_short.
  pose proof (Z.mod_pos_bound n 4 ltac:(lia)) as Hn.
  rewrite !orb_false_iff, !andb_false_iff, !Z.eqb_neq, !Nat.leb_gt. lia.
Qed.

(** C3, as the code has it.  [decode_base64] returns [None] for a string
    that, once stripped, holds a character that is not ASCII.  In an ASCII
    string the characters outside the base64 alphabet and the pad are
    discarded before decoding: the string without them decodes to the same
    result.  An ASCII string made of characters other than the pad followed
    by [p] pads fails to decode exactly when its padding is too short for the
    number of its characters of the alphabet; padding in excess is
    accepted. *)
Theorem decode_base64_failure (text : str) :
  (isascii (strip text) = false -> decode_base64 (Str text) = None)
  /\ (isascii text = true ->
      decode_base64 (Str text)
      = decode_base64 (Str (filter base64_chars text)))
  /\ (forall (body : str) (p : nat),
         text = body ++ repeat BASE64_PAD p ->
         isascii text = true -> ~ In BASE64_PAD body ->
         (decode_base64 (Str text) = None
          <-> padding_too_short
                (Z.of_nat (length (filter base64_chars body))) p)).
Proof.
  split; [| split].
  - unfold decode_base64, b64decode. intros ->. reflexivity.
  - intros Hascii. rewrite !decode_base64_ascii; trivial.
    + unfold a2b_base64. rewrite a2b_loop_filter. reflexivity.
    + apply (isascii_sub text); [| exact Hascii].
      intros c Hc. apply filter_In in Hc. tauto.
  - intros body p -> Hascii Hpad.
    rewrite <- padding_completes_false.
    rewrite decode_base64_ascii by exact Hascii. unfold a2b_base64.
    destruct (a2b_loop_data body Hpad 0 0 [] ltac:(lia)) as (lc & out & Heq).
    rewrite Heq, Z.add_0_l.
    rewrite a2b_loop_pads by (apply Z.mod_pos_bound; lia).
    destruct (padding_completes _ p); cbn; split; congruence.
Qed.

(** The three parts of the theorem at one input each: a character that is
    not ASCII, a character outside the alphabet, and one pad where two are
    needed. *)
Lemma decode_base64_failure_witness :
  decode_base64 (Str [0x53; 0xE9]) = None
  /\ decode_base64 (Str (lit "SGVs!bG8="))
     = decode_base64 (Str (filter base64_chars (lit "SGVs!bG8=")))
  /\ decode_base64 (Str (lit "SGVsbA=")) = None.
Proof.
  split; [| split].
  - apply (proj1 (decode_base64_failure [0x53; 0xE9])). reflexivity.
  - apply (proj1 (proj2 (decode_base64_failure (lit "SGVs!bG8=")))). reflexivity.
  - apply (proj2 (proj2 (decode_base64_failure (lit "SGVsbA=")))
             (lit "SGVsbA") 1%nat).
    + reflexivity.
    + reflexivity.
    + vm_compute. intuition discriminate.
    + right. left. split; [reflexivity | lia].
Defined.

(** C3, as the specification words it: a string with a character outside the base64
    alphabet, the pad and white space is decoded all the same. *)
Lemma decode_base64_accepts_foreign_character :
  In 33 (lit "SGVs!bG8=")
  /\ base64_chars 33 = false /\ isspace 33 = false
  /\ decode_base64 (Str (lit "SGVs!bG8=")) = Some (lit "Hello")
  /\ decode_base64 (Str (lit "SGVs!bG8=")) <> None.
Proof.
  repeat split; try reflexivity.
  - vm_compute. tauto.
  - vm_compute. discriminate.
Qed.

(** *** Chains of one layer *)

(** C9.  A chain made of the single layer "base64" gives what
    [decode_base64] gives, the failure value [None] included. *)
Theorem decode_multi_layer_base64 (text : value) :
  decode_multi_layer text ["base64"%string]
  = option_map Str (decode_base64 text).
Proof.
  cbn [decode_multi_layer].
  change (String.eqb (lower "base64") "base64") with true. cbn iota.
  destruct (decode_base64 text); reflexivity.
Qed.

(** *** Automatic detection *)

(** A result that counts as a success: neither [None] nor empty. *)
Definition nonempty (r : option str) : option str :=
  match r with
  | Some s => if truthy s then Some s else None
  | None => None
  end.

Definition gate (data : str) : bool :=
  forallb (fun c => base64_chars c || isspace c) data.

Ltac label_cases :=
  repeat match goal with
         | |- context [String.eqb ?l ?k] =>
             destruct (String.eqb_spec l k); [subst; simpl; tauto |]
         end.

(** C6, as the code has it.  The mapping returned by
    [auto_detect_and_decode] holds: under "base64" the base64 decoding of
    the input, when every character of the input is of the base64 alphabet,
    a pad or white space, and the decoding is neither a failure nor empty;
    under "rot13" the ROT-13 of the input, when that is not empty and differs
    from the input; under "base64_then_rot13" the ROT-13 of the "base64"
    entry, when there is one; under "rot13_then_base64" the base64 decoding
    of the ROT-13 of the input, when the latter is not empty and the decoding
    is neither a failure nor empty; and nothing else. *)
Theorem auto_detect_and_decode_entries (data : str) :
  dict_get "base64" (auto_detect_and_decode data)
  = (if gate data then nonempty (decode_base64 (Str data)) else None)
  /\ dict_get "rot13" (auto_detect_and_decode data)
     = (if truthy (map rot13_char data)
           && negb (str_eqb (map rot13_char data) data)
        then Some (map rot13_char data) else None)
  /\ dict_get "base64_then_rot13" (auto_detect_and_decode data)
     = option_map (map rot13_char)
                  (dict_get "base64" (auto_detect_and_decode data))
  /\ dict_get "rot13_then_base64" (auto_detect_and_decode data)
     = (if truthy (map rot13_char data)
        then nonempty (decode_base64 (Str (map rot13_char data))) else None)
  /\ forall label,
       dict_get label (auto_detect_and_decode data) <> None ->
       In label ["base64"; "rot13"; "base64_then_rot13"; "rot13_then_base64"]%string.
Proof.
  unfold auto_detect_and_decode, gate, nonempty, decode_rot13,
    codecs_decode_rot_13, catch, succeeded, store.
  generalize (decode_base64 (Str (map rot13_char data))).
  generalize (decode_base64 (Str data)).
  generalize (str_eqb (map rot13_char data) data).
  generalize (forallb (fun c => base64_chars c || isspace c) data).
  generalize (map rot13_char data).
  intros r g e b rb.
  destruct g, e, b as [[| cb b] |], rb as [[| crb rb] |], r as [| cr r]; cbn;
    (split; [reflexivity
            | split; [reflexivity
                     | split; [reflexivity | split; [reflexivity |]]]]);
    intros label; label_cases;
    intros H; exfalso; apply H; reflexivity.
Qed.

(** C6, as the specification words it: for the input "====" the base64 step is
    attempted and returns the empty string, which is not [None], and so does
    the base64 step after ROT-13; the mapping holds neither. *)
Lemma auto_detect_drops_empty_results :
  gate (lit "====") = true
  /\ decode_base64 (Str (lit "====")) = Some []
  /\ decode_rot13 (Str (lit "====")) = Some (lit "====")
  /\ dict_get "base64" (auto_detect_and_decode (lit "====")) = None
  /\ dict_get "rot13_then_base64" (auto_detect_and_decode (lit "====")) = None
  /\ auto_detect_and_decode (lit "====") = [].
Proof. repeat split. Qed.

End DecoderSpec.

(* ----------------------------------------------------------------- *)
(** ** Decryption *)

Module AssemblerSpec.
Import Py Assembler.

(** *** The XOR stream *)

Definition xor_pair (dk : Z * Z) : Z := Z.lxor (fst dk) (snd dk).

(** [key_repeated], for data of [n] bytes. *)
Definition key_stream (key : bytes) (n : nat) : bytes :=
  firstn n (repeat_bytes key (n / length key + 1)).

Lemma xor_decrypt_bytes data key k :
  as_bytes key = Return k -> k <> [] ->
  xor_decrypt (Bytes data) key
  = Return (map xor_pair (combine data (key_stream k (length data)))).
Proof.
  intros Hk Hne. unfold xor_decrypt. cbn [as_bytes bind]. rewrite Hk. cbn [bind].
  destruct k as [| b k]; [contradiction | reflexivity].
Qed.

Lemma length_repeat_bytes key n :
  length (repeat_bytes key n) = (n * length key)%nat.
Proof.
  induction n as [| n IH]; [reflexivity |].
  cbn [repeat_bytes]. rewrite length_app, IH. reflexivity.
Qed.

(** The repeated key covers the data. *)
Lemma length_key_stream key n : key <> [] -> length (key_stream key n) = n.
Proof.
  intros Hne. unfold key_stream.
  rewrite length_firstn, length_repeat_bytes.
  assert (Hlen : length key <> 0%nat) by (destruct key; [contradiction | discriminate]).
  pose proof (Nat.mul_succ_div_gt n (length key) Hlen). nia.
Qed.

Lemma length_xor data stream :
  (length data <= length stream)%nat ->
  length (map xor_pair (combine data stream)) = length data.
Proof. intros H. rewrite length_map, length_combine. lia. Qed.

Lemma xor_twice data :
  forall stream,
    (length data <= length stream)%nat ->
    map xor_pair (combine (map xor_pair (combine data stream)) stream) = data.
Proof.
  induction data as [| d data IH]; intros [| s stream] H; simpl in H;
    try reflexivity; try lia.
  cbn [combine map]. rewrite IH by lia.
  unfold xor_pair at 1. cbn [fst snd]. unfold xor_pair. cbn [fst snd].
  rewrite Z.lxor_assoc, Z.lxor_nilpotent, Z.lxor_0_r. reflexivity.
Qed.

(** The output is a [bytes] object when the data and the key are. *)
Lemma xor_bytes data :
  forall stream,
    Forall is_byte data -> Forall is_byte stream ->
    Forall is_byte (map xor_pair (combine data stream)).
Proof.
  induction data as [| d data IH]; intros [| s stream] Hd Hs; cbn; auto.
  inversion Hd as [| ? ? Hd1 Hd2]; inversion Hs as [| ? ? Hs1 Hs2]; subst.
  constructor; [| apply IH; assumption].
  unfold xor_pair, is_byte in *. cbn [fst snd].
  assert (Hnn : 0 <= Z.lxor d s) by (apply Z.lxor_nonneg; lia).
  split; [assumption |].
  destruct (Z.eq_dec (Z.lxor d s) 0) as [-> | Hnz]; [lia |].
  apply Z.log2_lt_cancel. change (Z.log2 256) with 8.
  destruct (Z.eq_dec d 0) as [-> | Hd0].
  - rewrite Z.lxor_0_l. destruct (Z.eq_dec s 0) as [-> | Hs0]; [reflexivity |].
    apply Z.log2_lt_pow2; lia.
  - destruct (Z.eq_dec s 0) as [-> | Hs0].
    + rewrite Z.lxor_0_r. apply Z.log2_lt_pow2; lia.
    + pose proof (Z.log2_lxor d s ltac:(lia) ltac:(lia)).
      assert (Z.log2 d < 8) by (apply Z.log2_lt_pow2; lia).
      assert (Z.log2 s < 8) by (apply Z.log2_lt_pow2; lia).
      lia.
Qed.

Example xor_flag :
  xor_decrypt (Str (lit "FLAG{test}")) (Str (lit "k"))
  = Return [45; 39; 42; 44; 16; 31; 14; 24; 31; 22].
Proof. reflexivity. Qed.

(** *** What [str.encode()] accepts *)

(** A surrogate code point, which UTF-8 does not encode. *)
Definition surrogate (c : Z) : bool := (0xD800 <=? c) && (c <=? 0xDFFF).

(** A value that the conversion [v.encode()] under [isinstance(v, str)]
    accepts: a [bytes] object, or a string without a surrogate. *)
Definition encodable (v : value) : bool :=
  match v with
  | Str s => negb (existsb surrogate s)
  | Bytes _ => true
  end.

(** [len(v)]: the characters of a string, the bytes of a [bytes] object. *)
Definition len (v : value) : nat :=
  match v with
  | Str s => length s
  | Bytes b => length b
  end.

Lemma utf8_encode_char_outcome c :
  if surrogate c then utf8_encode_char c = Raise UnicodeEncodeError
  else exists b, utf8_encode_char c = Return b /\ (1 <= length b)%nat.
Proof.
  unfold surrogate, utf8_encode_char.
  destruct ((0xD800 <=? c) && (c <=? 0xDFFF)) eqn:E.
  - apply andb_true_iff in E as [E1 E2]. apply Z.leb_le in E1, E2.
    destruct (Z.ltb_spec c 0x80); [lia |].
    destruct (Z.ltb_spec c 0x800); [lia |].
    destruct (Z.ltb_spec c 0x10000); [reflexivity | lia].
  - destruct (c <? 0x80); [eexists; split; [reflexivity | simpl; lia] |].
    destruct (c <? 0x800); [eexists; split; [reflexivity | simpl; lia] |].
    destruct (c <? 0x10000); eexists; split; try reflexivity; simpl; lia.
Qed.

(** [s.encode()] raises for a string with a surrogate, and for no other;
    every character gives at least one byte. *)
Lemma encode_outcome s :
  if existsb surrogate s then encode s = Raise UnicodeEncodeError
  else exists bs, encode s = Return bs /\ (length s <= length bs)%nat.
Proof.
  induction s as [| c s IH]; cbn [existsb encode].
  - exists []. split; [reflexivity | simpl; lia].
  - pose proof (utf8_encode_char_outcome c) as Hc.
    destruct (surrogate c); cbn [orb].
    + rewrite Hc. reflexivity.
    + destruct Hc as (b & -> & Hb). cbn [bind].
      destruct (existsb surrogate s).
      * rewrite IH. reflexivity.
      * destruct IH as (bs & -> & Hbs). cbn [bind].
        eexists. split; [reflexivity |].
        rewrite length_app. cbn [length]. lia.
Qed.

Lemma as_bytes_encodable v :
  encodable v = true ->
  exists b, as_bytes v = Return b /\ (len v <= length b)%nat
            /\ (len v = 0%nat -> b = []).
Proof.
  destruct v as [s | b]; cbn [encodable as_bytes len].
  - intros He. apply negb_true_iff in He.
    pose proof (encode_outcome s) as Hs. rewrite He in Hs.
    destruct Hs as (bs & Hbs & Hlen). exists bs.
    split; [exact Hbs |]. split; [exact Hlen |].
    intros H0. destruct s; [| discriminate].
    cbn [encode] in Hbs. congruence.
  - intros _. exists b. split; [reflexivity |]. split; [lia |].
    intros H0. destruct b; [reflexivity | discriminate].
Qed.

Lemma as_bytes_not_encodable v :
  encodable v = false -> as_bytes v = Raise UnicodeEncodeError.
Proof.
  destruct v as [s | b]; cbn [encodable as_bytes]; [| discriminate].
  intros He. apply negb_false_iff in He.
  pose proof (encode_outcome s) as Hs. rewrite He in Hs. exact Hs.
Qed.

(** *** The self-inverse law *)

(** C7.  For every byte string and every key of at least one character or
    byte that is bytes or a string without a surrogate, [xor_decrypt]
    returns the bytes of the data XORed with the repeated key, and
    decrypting these with the key gives the data back.  With a string key
    that holds a surrogate it raises [UnicodeEncodeError].  The ciphertext
    of "FLAG{test}" under the key "k" is 45, 39, 42, 44, 16, 31, 14, 24, 31,
    22, and decrypts, with the key "k", to "FLAG{test}". *)
Theorem xor_decrypt_self_inverse :
  (forall (data : bytes) (key : value),
      encodable key = true -> (1 <= len key)%nat ->
      exists k out,
        as_bytes key = Return k
        /\ xor_decrypt (Bytes data) key = Return out
        /\ out = map xor_pair (combine data (key_stream k (length data)))
        /\ xor_decrypt (Bytes out) key = Return data)
  /\ (forall (data : bytes) (key : value),
         encodable key = false ->
         xor_decrypt (Bytes data) key = Raise UnicodeEncodeError)
  /\ xor_decrypt (Str (lit "FLAG{test}")) (Str (lit "k"))
     = Return [45; 39; 42; 44; 16; 31; 14; 24; 31; 22]
  /\ xor_decrypt (Bytes [45; 39; 42; 44; 16; 31; 14; 24; 31; 22]) (Str (lit "k"))
     = Return (lit "FLAG{test}").
Proof.
  split; [| split; [| split; reflexivity]].
  - intros data key He Hlen.
    destruct (as_bytes_encodable key He) as (k & Hk & Hle & _).
    assert (Hne : k <> []) by (intros ->; simpl in Hle; lia).
    exists k, (map xor_pair (combine data (key_stream k (length data)))).
    split; [exact Hk |].
    split; [apply xor_decrypt_bytes; assumption |].
    split; [reflexivity |].
    rewrite (xor_decrypt_bytes _ key k Hk Hne).
    rewrite length_xor by (rewrite length_key_stream; auto).
    rewrite xor_twice by (rewrite length_key_stream; auto).
    reflexivity.
  - intros data key He. unfold xor_decrypt. cbn [as_bytes bind].
    rewrite (as_bytes_not_encodable key He). reflexivity.
Qed.

(** The law at the data 1, 2, 3, 4, 5 and the key "ab". *)
Lemma xor_decrypt_self_inverse_witness :
  exists k out,
    as_bytes (Str (lit "ab")) = Return k
    /\ xor_decrypt (Bytes [1; 2; 3; 4; 5]) (Str (lit "ab")) = Return out
    /\ out = map xor_pair (combine [1; 2; 3; 4; 5] (key_stream k 5))
    /\ xor_decrypt (Bytes out) (Str (lit "ab")) = Return [1; 2; 3; 4; 5].
Proof.
  apply (proj1 xor_decrypt_self_inverse [1; 2; 3; 4; 5] (Str (lit "ab"))).
  - reflexivity.
  - simpl. lia.
Defined.

(** C7, as the specification words it: the key made of the one code point
    U+D800 is not empty, and [xor_decrypt] with it returns nothing, the first
    time already. *)
Lemma xor_decrypt_surrogate_key :
  len (Str [0xD800]) = 1%nat
  /\ xor_decrypt (Bytes (lit "FLAG{test}")) (Str [0xD800])
     = Raise UnicodeEncodeError
  /\ ~ (exists out,
           xor_decrypt (Bytes (lit "FLAG{test}")) (Str [0xD800]) = Return out
           /\ xor_decrypt (Bytes out) (Str [0xD800])
              = Return (lit "FLAG{test}")).
Proof.
  split; [reflexivity |]. split; [reflexivity |].
  intros (out & H & _). discriminate H.
Qed.

(** *** The empty key *)

(** C10.  For data and a key that are bytes or strings without a surrogate:
    with a key of length 0 [xor_decrypt] raises [ZeroDivisionError],
    whatever the data; with a key of length 1 or more it returns, and its
    output is as long as the bytes of the data (the data itself when it is
    bytes, its encoding, of at least one byte for a character, when it is a
    string).  When the data or the key is a string that holds a surrogate,
    it raises [UnicodeEncodeError], whatever the length of the key. *)
Theorem xor_decrypt_total_iff_key (data key : value) :
  (encodable data = true -> encodable key = true ->
   exists d,
     as_bytes data = Return d
     /\ (len data <= length d)%nat
     /\ (forall b, data = Bytes b -> d = b)
     /\ (len key = 0%nat -> xor_decrypt data key = Raise ZeroDivisionError)
     /\ ((1 <= len key)%nat ->
         exists out, xor_decrypt data key = Return out
                     /\ length out = length d))
  /\ (encodable data = false \/ encodable key = false ->
      xor_decrypt data key = Raise UnicodeEncodeError).
Proof.
  split.
  - intros Hed Hek.
    destruct (as_bytes_encodable data Hed) as (d & Hd & Hld & _).
    destruct (as_bytes_encodable key Hek) as (k & Hk & Hlk & Hk0).
    exists d. split; [exact Hd |]. split; [exact Hld |].
    split; [intros b ->; cbn [as_bytes] in Hd; congruence |].
    unfold xor_decrypt. rewrite Hd, Hk. cbn [bind]. split.
    + intros H0. rewrite (Hk0 H0). reflexivity.
    + intros Hlen.
      assert (Hne : k <> []) by (intros ->; simpl in Hlk; lia).
      destruct (Nat.eqb_spec (length k) 0) as [E | _]; [lia |].
      eexists. split; [reflexivity |].
      fold (key_stream k (length d)). fold xor_pair.
      apply length_xor. rewrite length_key_stream; auto.
  - intros H. unfold xor_decrypt.
    destruct (encodable data) eqn:Hed.
    + destruct H as [H | Hek]; [discriminate |].
      destruct (as_bytes_encodable data Hed) as (d & -> & _). cbn [bind].
      rewrite (as_bytes_not_encodable key Hek). reflexivity.
    + rewrite (as_bytes_not_encodable data Hed). reflexivity.
Qed.

(** The theorem at the data "abc": the empty key, and the key "k". *)
Lemma xor_decrypt_total_iff_key_witness :
  xor_decrypt (Str (lit "abc")) (Bytes []) = Raise ZeroDivisionError
  /\ (exists out,
         xor_decrypt (Str (lit "abc")) (Str (lit "k")) = Return out
         /\ length out = 3%nat)
  /\ xor_decrypt (Str (lit "abc")) (Str [0xDC00]) = Raise UnicodeEncodeError.
Proof.
  split; [| split].
  - destruct (proj1 (xor_decrypt_total_iff_key (Str (lit "abc")) (Bytes []))
                    eq_refl eq_refl) as (d & Hd & _ & _ & H0 & _).
    apply H0. reflexivity.
  - destruct (proj1 (xor_decrypt_total_iff_key (Str (lit "abc")) (Str (lit "k")))
                    eq_refl eq_refl) as (d & Hd & _ & _ & _ & H1).
    destruct H1 as (out & Hout & Hlen); [simpl; lia |].
    exists out. split; [exact Hout |]. rewrite Hlen.
    injection Hd as <-. reflexivity.
  - apply (proj2 (xor_decrypt_total_iff_key (Str (lit "abc")) (Str [0xDC00]))).
    right. reflexivity.
Defined.

(** C10, as the specification words it: for the data made of the one code
    point U+D800 the error with a key of length 0 is not the division by
    zero, and with a key of length 1 the call returns nothing; and for the
    data "e acute", of length 1, the output has two bytes. *)
Lemma xor_decrypt_surrogate_data :
  len (Bytes []) = 0%nat
  /\ xor_decrypt (Str [0xD800]) (Bytes []) = Raise UnicodeEncodeError
  /\ xor_decrypt (Str [0xD800]) (Bytes []) <> Raise ZeroDivisionError
  /\ len (Bytes [107]) = 1%nat
  /\ xor_decrypt (Str [0xD800]) (Bytes [107]) = Raise UnicodeEncodeError
  /\ len (Str [0xE9]) = 1%nat
  /\ xor_decrypt (Str [0xE9]) (Bytes [107]) = Return [168; 194].
Proof. repeat split. discriminate. Qed.

(** *** The key of the block cipher *)

Lemma length_ljust key n : (length key <= n)%nat -> length (ljust key n) = n.
Proof. intros H. unfold ljust. rewrite length_app, repeat_length. lia. Qed.

(** Keys shorter than 24 bytes, of 24 bytes, and of 32 bytes or more are
    brought to a size of the cipher. *)
Lemma normalize_key_length key :
  (length key <= 24 \/ 32 <= length key)%nat ->
  In (length (normalize_key key)) [16; 24; 32]%nat.
Proof.
  intros H. unfold normalize_key.
  destruct (Nat.ltb_spec (length key) 16).
  { rewrite length_ljust by lia. simpl; auto. }
  destruct (Nat.ltb_spec (length key) 24).
  { rewrite length_firstn, Nat.min_l by lia. simpl; auto. }
  destruct (Nat.ltb_spec (length key) 32).
  { rewrite length_ljust by lia. simpl; auto. }
  rewrite length_firstn, Nat.min_l by lia. simpl; auto.
Qed.

(** [ljust] does not shorten: a key of 24 to 31 bytes is kept as it is. *)
Lemma normalize_key_unchanged key :
  (24 <= length key < 32)%nat -> normalize_key key = key.
Proof.
  intros H. unfold normalize_key.
  destruct (Nat.ltb_spec (length key) 16); [lia |].
  destruct (Nat.ltb_spec (length key) 24); [lia |].
  destruct (Nat.ltb_spec (length key) 32); [| lia].
  unfold ljust. replace (24 - length key)%nat with 0%nat by lia.
  apply app_nil_r.
Qed.

(** C2, at a key of 25 bytes: the key used has 25 bytes, which is none of
    16, 24 and 32, and [aes_decrypt] raises [ValueError] on it whatever the
    data. *)
Theorem normalize_key_25_bytes :
  length (normalize_key (repeat 65 25)) = 25%nat
  /\ forall sha256 aes_cbc_decrypt encrypted_data,
       aes_decrypt sha256 aes_cbc_decrypt encrypted_data (Bytes (repeat 65 25))
       = Raise ValueError.
Proof. split; [reflexivity | intros; reflexivity]. Qed.

(** *** Automatic choice of the method *)

Section Auto.
Variable sha256 : bytes -> bytes.
Variable aes_cbc_decrypt : bytes -> bytes -> bytes -> bytes.
Variable isalpha : Z -> bool.

(** The two candidate results: the decrypted text of a method when the
    method did not fail. *)
Definition xor_result (encrypted_bytes : bytes) (key : value) : option str :=
  option_map decode_utf8_ignore (catch (xor_decrypt (Bytes encrypted_bytes) key)).

Definition aes_result (encrypted_bytes : bytes) (key : value) : option str :=
  option_map decode_utf8_ignore
             (catch (aes_decrypt sha256 aes_cbc_decrypt encrypted_bytes key)).

(** "contains at least one alphabetic character" *)
Definition has_alpha (text : str) : bool := existsb isalpha text.

(** The choice as the specification words it: the first of the XOR and the
    block-cipher result with an alphabetic character; failing that, a result
    that exists; failing that, nothing. *)
Definition auto_choice (xor aes : option str) : option str :=
  match xor, aes with
  | Some x, Some a =>
      if has_alpha x then Some x else if has_alpha a then Some a else Some x
  | Some x, None => Some x
  | None, Some a => Some a
  | None, None => None
  end.

Lemma readable_has_alpha text : readable isalpha text = has_alpha text.
Proof. destruct text; reflexivity. Qed.

(** The choice, for data that converts to the bytes [encrypted_bytes]. *)
Lemma decrypt_final_auto_converted (encrypted_data key : value)
      (encrypted_bytes : bytes) :
  to_encrypted_bytes encrypted_data = Return encrypted_bytes ->
  decrypt_final sha256 aes_cbc_decrypt isalpha encrypted_data key "auto"
  = Return (auto_choice (xor_result encrypted_bytes key)
                        (aes_result encrypted_bytes key)).
Proof.
  intros Hb. unfold decrypt_final, xor_result, aes_result, auto_choice.
  rewrite Hb. cbn [bind].
  change (String.eqb "auto" "xor") with false.
  change (String.eqb "auto" "aes") with false.
  change (String.eqb "auto" "auto") with true.
  cbn [orb].
  destruct (xor_decrypt (Bytes encrypted_bytes) key) as [x | ex];
    destruct (aes_decrypt sha256 aes_cbc_decrypt encrypted_bytes key) as [a | ea];
    cbn -[decode_utf8_ignore readable has_alpha];
    rewrite ?readable_has_alpha;
    repeat match goal with
           | |- context [has_alpha ?t] => destruct (has_alpha t)
           end;
    reflexivity.
Qed.

(** "Convert encrypted_data to bytes if needed" returns for bytes and for a
    string without a surrogate, and raises for a string with one: it is not
    ASCII, so that [b64decode] refuses it, and it does not encode. *)
Lemma to_encrypted_bytes_outcome (encrypted_data : value) :
  if encodable encrypted_data
  then exists encrypted_bytes,
         to_encrypted_bytes encrypted_data = Return encrypted_bytes
  else to_encrypted_bytes encrypted_data = Raise UnicodeEncodeError.
Proof.
  destruct encrypted_data as [s | b]; cbn [encodable to_encrypted_bytes];
    [| eexists; reflexivity].
  pose proof (encode_outcome s) as Hs.
  destruct (existsb surrogate s) eqn:He; cbn [negb].
  - assert (Hascii : isascii s = false).
    { apply existsb_exists in He as (c & Hin & Hc).
      destruct (isascii s) eqn:Ha; [| reflexivity].
      unfold isascii in Ha. rewrite forallb_forall in Ha.
      specialize (Ha c Hin). apply Z.ltb_lt in Ha.
      unfold surrogate in Hc. apply andb_true_iff in Hc as [Hc _].
      apply Z.leb_le in Hc. lia. }
    cbn [b64decode]. rewrite Hascii. exact Hs.
  - destruct (b64decode (Str s)) as [b | e]; [eexists; reflexivity |].
    destruct Hs as (bs & Hbs & _). exists bs. exact Hbs.
Qed.

(** C5.  For every key and every data that is bytes or a string without a
    surrogate, [decrypt_final] with the method "auto" computes the XOR and
    the block-cipher result for the bytes of the data and returns the first
    of them, in that order, that has an alphabetic character; if neither has
    one, the result that exists (the XOR one when both do), and [None] when
    neither exists.  For data that is a string with a surrogate it raises
    [UnicodeEncodeError]. *)
Theorem decrypt_final_auto (encrypted_data key : value) :
  (encodable encrypted_data = true ->
   exists encrypted_bytes,
     to_encrypted_bytes encrypted_data = Return encrypted_bytes
     /\ decrypt_final sha256 aes_cbc_decrypt isalpha encrypted_data key "auto"
        = Return (auto_choice (xor_result encrypted_bytes key)
                              (aes_result encrypted_bytes key)))
  /\ (encodable encrypted_data = false ->
      decrypt_final sha256 aes_cbc_decrypt isalpha encrypted_data key "auto"
      = Raise UnicodeEncodeError).
Proof.
  pose proof (to_encrypted_bytes_outcome encrypted_data) as Hb.
  split; intros He; rewrite He in Hb.
  - destruct Hb as (encrypted_bytes & Hb). exists encrypted_bytes.
    split; [exact Hb |]. apply decrypt_final_auto_converted. exact Hb.
  - unfold decrypt_final. rewrite Hb. reflexivity.
Qed.

End Auto.

(** An instance of the primitives, to run the definitions: a digest of
    zeros, a cipher that returns the ciphertext, and the ASCII letters. *)
Definition ascii_isalpha (c : Z) : bool :=
  ((65 <=? c) && (c <=? 90)) || ((97 <=? c) && (c <=? 122)).

(** The theorem at the ciphertext of "FLAG{test}" under the key "k": the
    XOR result is chosen. *)
Lemma decrypt_final_auto_witness :
  decrypt_final (fun _ => repeat 0 32) (fun _ _ data => data) ascii_isalpha
                (Bytes [45; 39; 42; 44; 16; 31; 14; 24; 31; 22])
                (Str (lit "k")) "auto"
  = Return (Some (lit "FLAG{test}")).
Proof.
  destruct (proj1 (decrypt_final_auto
                     (fun _ => repeat 0 32) (fun _ _ data => data) ascii_isalpha
                     (Bytes [45; 39; 42; 44; 16; 31; 14; 24; 31; 22])
                     (Str (lit "k"))) eq_refl)
    as (encrypted_bytes & Hb & ->).
  injection Hb as <-. reflexivity.
Defined.

(** C5, as the specification words it: for the data made of the one code
    point U+D800 no result exists, and [decrypt_final] does not return
    [None]: it raises. *)
Lemma decrypt_final_surrogate_data :
  decrypt_final (fun _ => repeat 0 32) (fun _ _ data => data) ascii_isalpha
                (Str [0xD800]) (Str (lit "k")) "auto"
  = Raise UnicodeEncodeError
  /\ decrypt_final (fun _ => repeat 0 32) (fun _ _ data => data) ascii_isalpha
                   (Str [0xD800]) (Str (lit "k")) "auto"
     <> Return None.
Proof. split; [reflexivity | discriminate]. Qed.

End AssemblerSpec.

(* ----------------------------------------------------------------- *)
(** ** Packing bits into bytes *)

Module ConversionSpec.
Import Py Lsb.
Import LsbSpec.

(** *** Packing *)

Lemma int2_bits_of_byte b : is_byte b -> int2 (bits_of_byte b) = b.
Proof.
  intros Hb.
  assert (Hall : forallb (fun n => int2 (bits_of_byte (Z.of_nat n)) =? Z.of_nat n)
                         (seq 0 256) = true) by (vm_compute; reflexivity).
  rewrite forallb_forall in Hall.
  specialize (Hall (Z.to_nat b)).
  unfold is_byte in Hb. rewrite Z2Nat.id in Hall by lia.
  apply Z.eqb_eq, Hall, in_seq. lia.
Qed.

Lemma byte_offsets_short tail :
  (length tail < 8)%nat -> byte_offsets tail = [].
Proof.
  intros H. apply length_zero_iff_nil.
  unfold byte_offsets, range. rewrite length_map, length_seq.
  replace (Z.of_nat (length tail) - 7 - 0 + 8 - 1) with (Z.of_nat (length tail)) by lia.
  rewrite Z.div_small by lia. reflexivity.
Qed.

Lemma byte_offsets_app byte rest :
  length byte = 8%nat ->
  byte_offsets (byte ++ rest) = 0 :: map (Z.add 8) (byte_offsets rest).
Proof.
  intros Hlen. unfold byte_offsets, range. rewrite length_app, Hlen.
  replace (Z.of_nat (8 + length rest) - 7 - 0 + 8 - 1)
    with (Z.of_nat (length rest) + 1 * 8) by lia.
  replace (Z.of_nat (length rest) - 7 - 0 + 8 - 1) with (Z.of_nat (length rest)) by lia.
  rewrite Z.div_add by lia.
  rewrite Z2Nat.inj_add by (try apply Z.div_pos; lia).
  change (Z.to_nat 1) with 1%nat. rewrite Nat.add_1_r.
  cbn [seq map]. f_equal.
  rewrite <- seq_shift, !map_map.
  apply map_ext. intros k. lia.
Qed.

Lemma slice8_app_0 byte rest :
  length byte = 8%nat -> slice8 (byte ++ rest) 0 = byte.
Proof.
  intros Hlen. unfold slice8. change (Z.to_nat 0) with 0%nat. cbn [skipn].
  rewrite firstn_app, Hlen, Nat.sub_diag, firstn_O.
  rewrite firstn_all2 by lia. apply app_nil_r.
Qed.

Lemma slice8_app_shift byte rest i :
  length byte = 8%nat -> 0 <= i -> slice8 (byte ++ rest) (8 + i) = slice8 rest i.
Proof.
  intros Hlen Hi. unfold slice8.
  rewrite Z2Nat.inj_add by lia. change (Z.to_nat 8) with 8%nat.
  rewrite skipn_app, Hlen, skipn_all2 by lia.
  replace (8 + Z.to_nat i - 8)%nat with (Z.to_nat i) by lia. reflexivity.
Qed.

Lemma byte_offsets_nonneg binary_string i :
  In i (byte_offsets binary_string) -> 0 <= i.
Proof.
  unfold byte_offsets, range. intros H.
  apply in_map_iff in H as (k & <- & _). lia.
Qed.

(** The first eight bits make the first byte. *)
Lemma packed_app byte rest :
  length byte = 8%nat -> packed (byte ++ rest) = int2 byte :: packed rest.
Proof.
  intros Hlen. unfold packed. rewrite (byte_offsets_app byte rest Hlen).
  cbn [map]. rewrite (slice8_app_0 byte rest Hlen), map_map. f_equal.
  apply map_ext_in. intros i Hi.
  rewrite (slice8_app_shift byte rest i Hlen); [reflexivity |].
  eapply byte_offsets_nonneg, Hi.
Qed.

Lemma length_bits_of_byte b : length (bits_of_byte b) = 8%nat.
Proof. reflexivity. Qed.

(** Packing inverts the writing of bytes as bits, most significant bit
    first; up to seven bits left over are dropped. *)
Lemma packed_bits_of bs tail :
  Forall is_byte bs -> (length tail < 8)%nat ->
  packed (bits_of bs ++ tail) = bs.
Proof.
  intros Hbs Htail. induction Hbs as [| b bs Hb _ IH].
  - unfold packed. cbn [bits_of flat_map app].
    rewrite byte_offsets_short by assumption. reflexivity.
  - unfold bits_of in *. cbn [flat_map]. rewrite <- app_assoc.
    rewrite packed_app by apply length_bits_of_byte.
    rewrite int2_bits_of_byte by assumption. f_equal. exact IH.
Qed.

Lemma printable_byte c : printable c = true -> is_byte c.
Proof.
  unfold printable, is_byte.
  rewrite !orb_true_iff, andb_true_iff, !Z.leb_le, !Z.eqb_eq. lia.
Qed.

Lemma through_null_message msg junk :
  Forall (fun c => printable c = true) msg ->
  through_null (msg ++ 0 :: junk) = msg ++ [0]
  /\ before_null (msg ++ 0 :: junk) = msg
  /\ through_null msg = msg /\ before_null msg = msg
  /\ filter printable msg = msg
  /\ existsb (fun b => negb (printable b)) msg = false.
Proof.
  induction 1 as [| c msg Hc _ (IH1 & IH2 & IH3 & IH4 & IH5 & IH6)];
    [repeat split |].
  cbn [app through_null before_null filter existsb].
  rewrite (printable_not_null c Hc), Hc, IH1, IH2, IH3, IH4, IH5, IH6.
  repeat split.
Qed.

Lemma convert_strict_message (msg junk : bytes) (tail : bitstream) :
  Forall (fun c => printable c = true) msg ->
  Forall is_byte junk ->
  (length tail < 8)%nat ->
  convert_strict (bits_of msg ++ tail) = mkDecoded msg msg false
  /\ convert_strict (bits_of (msg ++ 0 :: junk) ++ tail)
     = mkDecoded (msg ++ [0]) msg false.
Proof.
  intros Hmsg Hjunk Htail.
  assert (Hbytes : Forall is_byte msg)
    by (eapply Forall_impl; [apply printable_byte | exact Hmsg]).
  assert (Hall : Forall is_byte (msg ++ 0 :: junk)).
  { apply Forall_app. split; [assumption |].
    constructor; [unfold is_byte; lia | assumption]. }
  destruct (through_null_message msg junk Hmsg)
    as (H1 & H2 & H3 & H4 & H5 & H6).
  unfold convert_strict. rewrite !convert_loop_spec.
  fold (packed (bits_of msg ++ tail)).
  fold (packed (bits_of (msg ++ 0 :: junk) ++ tail)).
  rewrite !packed_bits_of by assumption.
  cbn [raw_bytes ascii_text possibly_corrupted app orb].
  rewrite H1, H2, H3, H4, H5, H6. split; reflexivity.
Qed.

(** A message of printable characters written as bits, most significant bit
    first, is read back exactly, with no warning of corruption: up to its
    end if it is the whole stream, and up to the null byte that follows it,
    whatever bytes come after.  Up to seven bits in excess are ignored. *)
Theorem convert_strict_recovers_message (msg junk : bytes) (tail : bitstream) :
  Forall (fun c => printable c = true) msg ->
  Forall is_byte junk ->
  (length tail < 8)%nat ->
  convert_strict (bits_of msg ++ tail) = mkDecoded msg msg false
  /\ convert_strict (bits_of (msg ++ 0 :: junk) ++ tail)
     = mkDecoded (msg ++ [0]) msg false.
Proof. apply convert_strict_message. Qed.

Lemma convert_strict_recovers_message_witness :
  convert_strict (bits_of (lit "Hi") ++ [true; false]) = mkDecoded (lit "Hi") (lit "Hi") false
  /\ convert_strict (bits_of (lit "Hi" ++ 0 :: [200; 1]) ++ [true; false])
     = mkDecoded (lit "Hi" ++ [0]) (lit "Hi") false.
Proof.
  apply (convert_strict_recovers_message (lit "Hi") [200; 1] [true; false]).
  - repeat constructor.
  - repeat constructor; unfold is_byte; lia.
  - simpl; lia.
Defined.

End ConversionSpec.

(* ----------------------------------------------------------------- *)
(** ** Raster extraction *)

Module ExtractorSpec.
Import Py Image Lsb Extractor.

(** *** Raster order *)

Lemma range_unit n : range 0 n 1 = Spiral.zrange n.
Proof.
  unfold range, Spiral.zrange.
  replace ((n - 0 + 1 - 1) / 1) with n by (rewrite Z.div_1_r; lia).
  apply map_ext. intros k. lia.
Qed.

Lemma nth_error_zrange n z :
  0 <= z < n -> nth_error (Spiral.zrange n) (Z.to_nat z) = Some z.
Proof.
  intros Hz. unfold Spiral.zrange.
  rewrite nth_error_map, nth_error_seq.
  destruct (Nat.ltb_spec (Z.to_nat z) (Z.to_nat n)) as [_ | H]; [| lia].
  simpl. f_equal. lia.
Qed.

Lemma in_raster_coordinates width height x y :
  In (x, y) (raster_coordinates width height)
  <-> 0 <= x < width /\ 0 <= y < height.
Proof.
  unfold raster_coordinates. rewrite !range_unit, in_flat_map. split.
  - intros (y' & Hy & Hin). apply in_map_iff in Hin as (x' & Heq & Hx).
    injection Heq as <- <-.
    apply SpiralSpec.in_zrange in Hx, Hy. tauto.
  - intros [Hx Hy]. exists y. split; [apply SpiralSpec.in_zrange; assumption |].
    apply in_map_iff. exists x. split; [reflexivity |].
    apply SpiralSpec.in_zrange. assumption.
Qed.

(** The element at a position of a concatenation of rows of one length. *)
Lemma nth_error_flat_map_rows {A B : Type} (f : A -> list B) (n : nat) l :
  (forall a, length (f a) = n) ->
  forall i j a,
    nth_error l i = Some a -> (j < n)%nat ->
    nth_error (flat_map f l) (i * n + j) = nth_error (f a) j.
Proof.
  intros Hlen. induction l as [| b l IH]; intros i j a Hi Hj.
  - destruct i; discriminate.
  - cbn [flat_map]. destruct i as [| i].
    + injection Hi as ->. rewrite nth_error_app1; [reflexivity | rewrite Hlen; lia].
    + rewrite nth_error_app2 by (rewrite Hlen; lia).
      rewrite Hlen. replace (S i * n + j - n)%nat with (i * n + j)%nat by lia.
      apply IH; assumption.
Qed.

Lemma length_raster_coordinates width height :
  0 <= width -> 0 <= height ->
  Z.of_nat (length (raster_coordinates width height)) = width * height.
Proof.
  intros Hw Hh. unfold raster_coordinates. rewrite !range_unit.
  rewrite (flat_map_constant_length (c := Z.to_nat width)).
  - unfold Spiral.zrange. rewrite length_map, length_seq. nia.
  - intros y _. unfold Spiral.zrange. rewrite !length_map, length_seq. reflexivity.
Qed.

Lemma nth_error_raster_coordinates width height x y :
  0 <= x < width -> 0 <= y < height ->
  nth_error (raster_coordinates width height) (Z.to_nat (y * width + x))
  = Some (x, y).
Proof.
  intros Hx Hy. unfold raster_coordinates. rewrite !range_unit.
  replace (Z.to_nat (y * width + x))
    with (Z.to_nat y * Z.to_nat width + Z.to_nat x)%nat by nia.
  rewrite (nth_error_flat_map_rows _ (Z.to_nat width) _) with (a := y).
  - rewrite nth_error_map, nth_error_zrange by assumption. reflexivity.
  - intros y'. unfold Spiral.zrange. rewrite !length_map, length_seq. reflexivity.
  - apply nth_error_zrange. assumption.
  - lia.
Qed.


(** *** Reading the pixels *)

(** The value of a band of a pixel, if the pixel has it. *)
Definition band (ch_index : nat) (p : pixel) : option Z :=
  match p with
  | Bands vs => nth_error vs ch_index
  | Band _ => None
  end.

(** The least significant bit of a band of the pixel at [(x, y)]. *)
Definition lsb_at (img : image) (ch_index : nat) (x y : Z) : bool :=
  match band ch_index (pixels img x y) with
  | Some v => Z.land v 1 =? 1
  | None => false
  end.

Definition inside (img : image) (x y : Z) : Prop :=
  0 <= x < img_width img /\ 0 <= y < img_height img.

Definition bits_at (img : image) (ch_index : nat) (coords : list (Z * Z))
  : bitstream :=
  flat_map (fun c => pixel_bits ch_index (pixels img (fst c) (snd c))) coords.

Definition raster_bits (img : image) (ch_index : nat) : bitstream :=
  bits_at img ch_index (raster_coordinates (img_width img) (img_height img)).

Lemma getpixel_inside img x y :
  inside img x y -> getpixel img x y = Some (pixels img x y).
Proof.
  intros [Hx Hy]. unfold getpixel.
  destruct (Z.ltb_spec x 0); [lia |]. destruct (Z.ltb_spec y 0); [lia |].
  replace ((0 <=? x) && (x <? img_width img) && (0 <=? y) && (y <? img_height img))
    with true; [reflexivity |].
  symmetry. rewrite !andb_true_iff, !Z.leb_le, !Z.ltb_lt. lia.
Qed.

(** No access fails when every coordinate is inside the image. *)
Lemma read_bits_inside img ch_index coords :
  (forall x y, In (x, y) coords -> inside img x y) ->
  read_bits img ch_index coords = Some (bits_at img ch_index coords).
Proof.
  induction coords as [| [x y] coords IH]; intros Hin; [reflexivity |].
  cbn [read_bits]. rewrite getpixel_inside by (apply Hin; left; reflexivity).
  rewrite IH by (intros; apply Hin; right; assumption). reflexivity.
Qed.

Lemma read_raster_bits img ch_index :
  read_bits img ch_index (raster_coordinates (img_width img) (img_height img))
  = Some (raster_bits img ch_index).
Proof.
  apply read_bits_inside. intros x y H.
  apply in_raster_coordinates in H. exact H.
Qed.

Lemma length_bits_at img ch_index coords :
  (length (bits_at img ch_index coords) <= length coords)%nat.
Proof.
  induction coords as [| c coords IH]; [reflexivity |].
  unfold bits_at in *. cbn [flat_map]. rewrite length_app. cbn [length].
  assert (length (pixel_bits ch_index (pixels img (fst c) (snd c))) <= 1)%nat; [| lia].
  unfold pixel_bits. destruct (pixels img (fst c) (snd c)) as [v | vs]; simpl; [lia |].
  destruct (nth_error vs ch_index); simpl; lia.
Qed.

(** One bit for each pixel, where every pixel has the band. *)
Lemma bits_at_full img ch_index coords :
  (forall x y, In (x, y) coords -> band ch_index (pixels img x y) <> None) ->
  bits_at img ch_index coords
  = map (fun c => lsb_at img ch_index (fst c) (snd c)) coords.
Proof.
  induction coords as [| [x y] coords IH]; intros Hband; [reflexivity |].
  unfold bits_at in *. cbn [flat_map map fst snd].
  rewrite IH by (intros; apply Hband; right; assumption).
  specialize (Hband x y (or_introl eq_refl)).
  unfold lsb_at, pixel_bits, band in *.
  destruct (pixels img x y) as [v | vs]; [contradiction |].
  destruct (nth_error vs ch_index); [reflexivity | contradiction].
Qed.

(** No bit at all, where no pixel has the band. *)
Lemma bits_at_none img ch_index coords :
  (forall x y, In (x, y) coords -> band ch_index (pixels img x y) = None) ->
  bits_at img ch_index coords = [].
Proof.
  induction coords as [| [x y] coords IH]; intros Hband; [reflexivity |].
  unfold bits_at in *. cbn [flat_map fst snd].
  rewrite IH by (intros; apply Hband; right; assumption).
  specialize (Hband x y (or_introl eq_refl)).
  unfold pixel_bits, band in *.
  destruct (pixels img x y) as [v | vs]; [reflexivity |].
  rewrite Hband. reflexivity.
Qed.

(** *** The bytes of a bit stream *)

Lemma length_through_null bs :
  (length (LsbSpec.through_null bs) <= length bs)%nat.
Proof.
  induction bs as [| b bs IH]; [reflexivity |].
  cbn [LsbSpec.through_null]. destruct (b =? 0); simpl; lia.
Qed.

Lemma length_before_null bs :
  (length (LsbSpec.before_null bs) <= length (LsbSpec.through_null bs))%nat.
Proof.
  induction bs as [| b bs IH]; [reflexivity |].
  cbn [LsbSpec.through_null LsbSpec.before_null]. destruct (b =? 0); simpl; lia.
Qed.

Lemma length_byte_offsets binary_string :
  length (byte_offsets binary_string) = (length binary_string / 8)%nat.
Proof.
  unfold byte_offsets, range. rewrite length_map, length_seq.
  replace (Z.of_nat (length binary_string) - 7 - 0 + 8 - 1)
    with (Z.of_nat (length binary_string)) by lia.
  change 8 with (Z.of_nat 8). rewrite <- Nat2Z.inj_div. apply Nat2Z.id.
Qed.


Lemma channel_entry_bounds binary_string :
  (8 * total_bytes (channel_entry binary_string)
   <= total_bits (channel_entry binary_string))%nat
  /\ (length (ascii_text (converted (channel_entry binary_string)))
      <= total_bytes (channel_entry binary_string))%nat.
Proof.
  unfold channel_entry, convert_strict.
  cbn [total_bytes total_bits converted].
  rewrite LsbSpec.convert_loop_spec.
  cbn [raw_bytes ascii_text app].
  set (bs := map (fun i => int2 (slice8 binary_string i)) (byte_offsets binary_string)).
  assert (Hbs : length bs = (length binary_string / 8)%nat)
    by (unfold bs; rewrite length_map; apply length_byte_offsets).
  pose proof (length_through_null bs). pose proof (length_before_null bs).
  pose proof (filter_length_le printable (LsbSpec.before_null bs)).
  pose proof (Nat.Div0.mul_div_le (length binary_string) 8).
  split; lia.
Qed.

(** *** The result of [extract_lsb_from_channel] *)

Definition known_channel (ch_name : string) : bool :=
  match dict_get ch_name channels_to_extract with
  | Some _ => true
  | None => false
  end.

Lemma extract_one img ch_name :
  extract_channels img [ch_name] []
  = Some match dict_get ch_name channels_to_extract with
         | Some ch_index => [(ch_name, channel_entry (raster_bits img ch_index))]
         | None => []
         end.
Proof.
  cbn [extract_channels].
  destruct (dict_get ch_name channels_to_extract) as [ch_index |]; [| reflexivity].
  rewrite read_raster_bits. reflexivity.
Qed.

Lemma extract_all img :
  extract_lsb_from_channel img "all"
  = Some [("red"%string, channel_entry (raster_bits img 0));
          ("green"%string, channel_entry (raster_bits img 1));
          ("blue"%string, channel_entry (raster_bits img 2))].
Proof.
  unfold extract_lsb_from_channel, channels_of.
  change (String.eqb "all" "all") with true. cbn iota.
  cbn [extract_channels].
  change (dict_get "red" channels_to_extract) with (Some 0%nat).
  change (dict_get "green" channels_to_extract) with (Some 1%nat).
  change (dict_get "blue" channels_to_extract) with (Some 2%nat).
  cbn iota. rewrite !read_raster_bits. reflexivity.
Qed.

Lemma extract_named img channel :
  channel <> "all"%string ->
  extract_lsb_from_channel img channel
  = Some match dict_get (Decoder.lower channel) channels_to_extract with
         | Some ch_index =>
             [(Decoder.lower channel, channel_entry (raster_bits img ch_index))]
         | None => []
         end.
Proof.
  intros Hne. unfold extract_lsb_from_channel, channels_of.
  destruct (String.eqb_spec channel "all"); [contradiction |].
  apply extract_one.
Qed.

(** The raster extraction never fails.  It returns an entry for red, green
    and blue, in this order, when the channel is "all", and otherwise an
    entry for the channel named, in lower case, if it is one of the three,
    and no entry if it is not.  Every entry counts at most one bit for a
    pixel, at most one byte for eight bits, and at most one character of
    text for a byte. *)
Theorem extract_lsb_from_channel_entries (img : image) (channel : string) :
  0 <= img_width img -> 0 <= img_height img ->
  exists results,
    extract_lsb_from_channel img channel = Some results
    /\ map fst results = filter known_channel (channels_of channel)
    /\ forall ch_name e,
         In (ch_name, e) results ->
         Z.of_nat (total_bits e) <= img_width img * img_height img
         /\ (8 * total_bytes e <= total_bits e)%nat
         /\ (length (ascii_text (converted e)) <= total_bytes e)%nat.
Proof.
  intros Hw Hh.
  assert (Hentry : forall ch_index,
             Z.of_nat (total_bits (channel_entry (raster_bits img ch_index)))
             <= img_width img * img_height img
             /\ (8 * total_bytes (channel_entry (raster_bits img ch_index))
                 <= total_bits (channel_entry (raster_bits img ch_index)))%nat
             /\ (length (ascii_text (converted (channel_entry (raster_bits img ch_index))))
                 <= total_bytes (channel_entry (raster_bits img ch_index)))%nat).
  { intros ch_index. split; [| apply channel_entry_bounds].
    cbn [channel_entry total_bits]. unfold raster_bits.
    rewrite <- (length_raster_coordinates _ _ Hw Hh).
    apply inj_le, length_bits_at. }
  destruct (String.eqb_spec channel "all") as [-> | Hne].
  - eexists. split; [apply extract_all |]. split; [reflexivity |].
    intros ch_name e [H | [H | [H | []]]]; injection H as <- <-; apply Hentry.
  - eexists. split; [apply extract_named; assumption |].
    unfold channels_of. destruct (String.eqb_spec channel "all"); [contradiction |].
    cbn [filter]. unfold known_channel.
    destruct (dict_get (Decoder.lower channel) channels_to_extract) as [ch_index |].
    + split; [reflexivity |].
      intros ch_name e [H | []]. injection H as <- <-. apply Hentry.
    + split; [reflexivity | intros ch_name e []].
Qed.

(** An image in three bands of two pixels by one, and its three channels. *)
Definition two_pixels : image :=
  mkImage 2 1 (fun x _ => if x =? 0 then Bands [255; 0; 1] else Bands [0; 7; 8]).

Lemma extract_lsb_from_channel_entries_witness :
  exists results,
    extract_lsb_from_channel two_pixels "all" = Some results
    /\ map fst results = filter known_channel (channels_of "all")
    /\ forall ch_name e,
         In (ch_name, e) results ->
         Z.of_nat (total_bits e) <= 2 * 1
         /\ (8 * total_bytes e <= total_bits e)%nat
         /\ (length (ascii_text (converted e)) <= total_bytes e)%nat.
Proof.
  apply (extract_lsb_from_channel_entries two_pixels "all"); simpl; lia.
Defined.

(** In an image whose pixels all have the band of the channel named, the
    raster extraction reads one bit for each pixel, [width * height] in all,
    row after row: the bit at position [y * width + x] is the least
    significant bit of the band of the pixel at [(x, y)]. *)
Theorem extract_lsb_from_channel_row_major
        (img : image) (channel : string) (ch_index : nat) :
  0 <= img_width img -> 0 <= img_height img ->
  channel <> "all"%string ->
  dict_get (Decoder.lower channel) channels_to_extract = Some ch_index ->
  (forall x y, inside img x y -> band ch_index (pixels img x y) <> None) ->
  exists bits,
    extract_lsb_from_channel img channel
    = Some [(Decoder.lower channel, channel_entry bits)]
    /\ Z.of_nat (total_bits (channel_entry bits))
       = img_width img * img_height img
    /\ forall x y,
         inside img x y ->
         nth_error bits (Z.to_nat (y * img_width img + x))
         = Some (lsb_at img ch_index x y).
Proof.
  intros Hw Hh Hne Hch Hband. exists (raster_bits img ch_index).
  rewrite (extract_named img channel Hne), Hch.
  assert (Hbits : raster_bits img ch_index
                  = map (fun c => lsb_at img ch_index (fst c) (snd c))
                        (raster_coordinates (img_width img) (img_height img))).
  { apply bits_at_full. intros x y H. apply Hband.
    apply in_raster_coordinates in H. exact H. }
  split; [reflexivity |]. split.
  - cbn [channel_entry total_bits]. rewrite Hbits, length_map.
    apply length_raster_coordinates; assumption.
  - intros x y [Hx Hy]. rewrite Hbits, nth_error_map.
    rewrite nth_error_raster_coordinates by assumption. reflexivity.
Qed.

Lemma extract_lsb_from_channel_row_major_witness :
  exists bits,
    extract_lsb_from_channel two_pixels "Green"
    = Some [("green"%string, channel_entry bits)]
    /\ Z.of_nat (total_bits (channel_entry bits)) = 2 * 1
    /\ forall x y,
         inside two_pixels x y ->
         nth_error bits (Z.to_nat (y * 2 + x)) = Some (lsb_at two_pixels 1 x y).
Proof.
  apply (extract_lsb_from_channel_row_major two_pixels "Green" 1%nat).
  - simpl; lia.
  - simpl; lia.
  - discriminate.
  - reflexivity.
  - intros x y _. simpl. destruct (x =? 0); discriminate.
Defined.

(** In an image whose pixels lack the band of the channel named (an image
    of one band, whose pixels are integers, for one), the channel is not
    left out: its entry is there, with no bit, no byte and no text. *)
Theorem extract_lsb_from_channel_without_band
        (img : image) (channel : string) (ch_index : nat) :
  channel <> "all"%string ->
  dict_get (Decoder.lower channel) channels_to_extract = Some ch_index ->
  (forall x y, inside img x y -> band ch_index (pixels img x y) = None) ->
  exists e,
    extract_lsb_from_channel img channel = Some [(Decoder.lower channel, e)]
    /\ total_bits e = 0%nat /\ total_bytes e = 0%nat
    /\ ascii_text (converted e) = []
    /\ possibly_corrupted (converted e) = false
    /\ base64_decoded e = None.
Proof.
  intros Hne Hch Hband. exists (channel_entry []).
  rewrite (extract_named img channel Hne), Hch.
  assert (Hbits : raster_bits img ch_index = []).
  { apply bits_at_none. intros x y H. apply Hband.
    apply in_raster_coordinates in H. exact H. }
  rewrite Hbits. repeat split.
Qed.

Lemma extract_lsb_from_channel_without_band_witness :
  exists e,
    extract_lsb_from_channel (mkImage 3 2 (fun x y => Band (x + y))) "red"
    = Some [("red"%string, e)]
    /\ total_bits e = 0%nat /\ total_bytes e = 0%nat
    /\ ascii_text (converted e) = []
    /\ possibly_corrupted (converted e) = false
    /\ base64_decoded e = None.
Proof.
  apply (extract_lsb_from_channel_without_band
           (mkImage 3 2 (fun x y => Band (x + y))) "red" 0%nat).
  - discriminate.
  - reflexivity.
  - reflexivity.
Defined.

(** *** A message hidden in a band *)

(** A stream of bits laid out in the band of an image, row after row. *)
Definition embedded (img : image) (ch_index : nat) (stream : bitstream) : Prop :=
  Z.of_nat (length stream) = img_width img * img_height img
  /\ forall x y,
       inside img x y ->
       band ch_index (pixels img x y) <> None
       /\ nth_error stream (Z.to_nat (y * img_width img + x))
          = Some (lsb_at img ch_index x y).

Lemma raster_bits_embedded img ch_index stream :
  0 <= img_width img -> 0 <= img_height img ->
  embedded img ch_index stream -> raster_bits img ch_index = stream.
Proof.
  intros Hw Hh [Hlen Hbits].
  assert (Hmap : raster_bits img ch_index
                 = map (fun c => lsb_at img ch_index (fst c) (snd c))
                       (raster_coordinates (img_width img) (img_height img))).
  { apply bits_at_full. intros x y H. apply in_raster_coordinates in H.
    apply Hbits, H. }
  rewrite Hmap. apply nth_error_ext. intros n.
  destruct (Nat.lt_ge_cases n (length stream)) as [Hn | Hn].
  - assert (Hwpos : 0 < img_width img) by nia.
    set (x := Z.of_nat n mod img_width img).
    set (y := Z.of_nat n / img_width img).
    assert (Hx : 0 <= x < img_width img) by (apply Z.mod_pos_bound; lia).
    assert (Hdm : Z.of_nat n = img_width img * y + x)
      by (apply Z.div_mod; lia).
    assert (Hy : 0 <= y < img_height img).
    { split; [apply Z.div_pos; lia | nia]. }
    replace n with (Z.to_nat (y * img_width img + x)) by lia.
    rewrite nth_error_map, nth_error_raster_coordinates by assumption.
    symmetry. apply Hbits. split; assumption.
  - rewrite (proj2 (nth_error_None stream n) Hn).
    apply nth_error_None. rewrite length_map.
    apply Nat2Z.inj_le. rewrite length_raster_coordinates by assumption. lia.
Qed.

(** A message of printable characters ended by a null byte and laid out,
    most significant bit first and row after row, in the least significant
    bits of a band is what the raster extraction of that band gives as text,
    whatever the bits after the null byte; nothing is reported corrupted. *)
Theorem extract_lsb_from_channel_recovers
        (img : image) (channel : string) (ch_index : nat)
        (msg junk : bytes) (tail : bitstream) :
  0 <= img_width img -> 0 <= img_height img ->
  channel <> "all"%string ->
  dict_get (Decoder.lower channel) channels_to_extract = Some ch_index ->
  Forall (fun c => printable c = true) msg ->
  Forall is_byte junk ->
  (length tail < 8)%nat ->
  embedded img ch_index (LsbSpec.bits_of (msg ++ 0 :: junk) ++ tail) ->
  exists e,
    extract_lsb_from_channel img channel = Some [(Decoder.lower channel, e)]
    /\ ascii_text (converted e) = msg
    /\ raw_bytes (converted e) = msg ++ [0]
    /\ possibly_corrupted (converted e) = false.
Proof.
  intros Hw Hh Hne Hch Hmsg Hjunk Htail Hemb.
  rewrite (extract_named img channel Hne), Hch.
  rewrite (raster_bits_embedded img ch_index _ Hw Hh Hemb).
  eexists. split; [reflexivity |].
  cbn [channel_entry converted].
  rewrite (proj2 (ConversionSpec.convert_strict_message
                    msg junk tail Hmsg Hjunk Htail)).
  repeat split.
Qed.

(** The image of one band that holds a stream of bits. *)
Definition image_of_stream (width height : Z) (stream : bitstream) : image :=
  mkImage width height
          (fun x y =>
             Bands [if nth (Z.to_nat (y * width + x)) stream false then 1 else 0]).

Lemma embedded_image_of_stream width height stream :
  0 < width -> 0 <= height ->
  Z.of_nat (length stream) = width * height ->
  embedded (image_of_stream width height stream) 0 stream.
Proof.
  intros Hw Hh Hlen. split; [exact Hlen |].
  intros x y [Hx Hy]. cbn [image_of_stream img_width img_height] in Hx, Hy.
  split; [discriminate |].
  unfold lsb_at. cbn [image_of_stream img_width pixels band nth_error].
  rewrite (nth_error_nth' stream false) by nia.
  destruct (nth (Z.to_nat (y * width + x)) stream false); reflexivity.
Qed.

Lemma extract_lsb_from_channel_recovers_witness :
  exists e,
    extract_lsb_from_channel
      (image_of_stream 6 4 (LsbSpec.bits_of (lit "Hi" ++ 0 :: []) ++ []))
      "red"
    = Some [("red"%string, e)]
    /\ ascii_text (converted e) = lit "Hi"
    /\ raw_bytes (converted e) = lit "Hi" ++ [0]
    /\ possibly_corrupted (converted e) = false.
Proof.
  apply (extract_lsb_from_channel_recovers
           (image_of_stream 6 4 (LsbSpec.bits_of (lit "Hi" ++ 0 :: []) ++ []))
           "red" 0%nat (lit "Hi") [] []).
  - simpl; lia.
  - simpl; lia.
  - discriminate.
  - reflexivity.
  - repeat constructor.
  - constructor.
  - simpl; lia.
  - apply embedded_image_of_stream; [lia | lia | reflexivity].
Defined.

End ExtractorSpec.

(* ----------------------------------------------------------------- *)
(** ** Spiral reading *)

Module SpiralReaderSpec.
Import Py Image Lsb Spiral SpiralReader.
Import LsbSpec.

(** *** The tolerant conversion *)

Lemma tolerant_loop_spec binary_string offsets last :
  (forall i, In i offsets -> length (slice8 binary_string i) = 8%nat) ->
  match last with
  | [] => True
  | i :: _ => (length (slice8 binary_string i) < 8)%nat
  end ->
  forall st,
    convert_loop binary_string (offsets ++ last) st
    = mkSpiralText
        (byte_data st
         ++ through_null (map (fun i => int2 (slice8 binary_string i)) offsets))
        (text st
         ++ filter printable
              (before_null (map (fun i => int2 (slice8 binary_string i)) offsets))).
Proof.
  intros Hfull Hlast.
  induction offsets as [| i offsets IH]; intros st.
  - cbn [app map through_null before_null filter]. rewrite !app_nil_r.
    destruct last as [| i last]; [destruct st; reflexivity |].
    cbn [convert_loop]. apply Nat.ltb_lt in Hlast. rewrite Hlast.
    destruct st; reflexivity.
  - cbn [app convert_loop map through_null before_null].
    rewrite (Hfull i (or_introl eq_refl)). cbn [Nat.ltb Nat.leb].
    set (v := int2 (slice8 binary_string i)).
    assert (IH' := IH (fun j Hj => Hfull j (or_intror Hj))).
    destruct (printable v) eqn:Hp.
    + rewrite (printable_not_null v Hp), IH'. cbn [byte_data text filter].
      rewrite Hp, <- !app_assoc. reflexivity.
    + destruct (v =? 0) eqn:Hz.
      * cbn [filter]. rewrite app_nil_r. reflexivity.
      * rewrite IH'. cbn [byte_data text filter]. rewrite Hp, <- !app_assoc.
        reflexivity.
Qed.

Lemma length_slice8 binary_string i :
  0 <= i ->
  length (slice8 binary_string i)
  = Nat.min 8 (length binary_string - Z.to_nat i).
Proof. intros Hi. unfold slice8. rewrite length_firstn, length_skipn. reflexivity. Qed.

(** The offsets of the tolerant loop: those of the complete bytes, and one
    more when bits are left over. *)
Lemma tolerant_offsets binary_string :
  range 0 (Z.of_nat (length binary_string)) 8
  = byte_offsets binary_string
    ++ (if (length binary_string mod 8 =? 0)%nat then []
        else [8 * Z.of_nat (length binary_string / 8)]).
Proof.
  unfold byte_offsets, range.
  set (n := length binary_string).
  replace (Z.of_nat n - 7 - 0 + 8 - 1) with (Z.of_nat n) by lia.
  replace (Z.of_nat n - 0 + 8 - 1) with (Z.of_nat n + 7) by lia.
  pose proof (Nat.div_mod_eq n 8) as Hdm.
  pose proof (Nat.mod_upper_bound n 8 ltac:(lia)) as Hm.
  assert (Hq : Z.to_nat (Z.of_nat n / 8) = (n / 8)%nat).
  { change 8 with (Z.of_nat 8). rewrite <- Nat2Z.inj_div. apply Nat2Z.id. }
  rewrite Hq.
  destruct (Nat.eqb_spec (n mod 8) 0) as [Hz | Hnz].
  - rewrite app_nil_r. f_equal. f_equal.
    rewrite <- Hq. f_equal.
    replace (Z.of_nat n + 7) with (7 + Z.of_nat (n / 8) * 8) by lia.
    rewrite Z.div_add by lia. rewrite Z.div_small by lia.
    change 8 with (Z.of_nat 8). rewrite <- Nat2Z.inj_div. lia.
  - assert (Hq' : Z.to_nat ((Z.of_nat n + 7) / 8) = S (n / 8)).
    { replace (Z.of_nat n + 7)
        with (Z.of_nat (n mod 8) - 1 + (Z.of_nat (n / 8) + 1) * 8) by lia.
      rewrite Z.div_add by lia. rewrite Z.div_small by lia. lia. }
    rewrite Hq', seq_S, map_app. cbn [map Nat.add]. f_equal. f_equal. lia.
Qed.

(** On every bit stream the conversion of the spiral reader records the
    bytes and the text that the conversion of the raster extractor
    records: the complete bytes up to the first null byte, and their
    printable characters. *)
Theorem convert_tolerant_agrees (binary_string : bitstream) :
  byte_data (convert_tolerant binary_string)
  = raw_bytes (convert_strict binary_string)
  /\ text (convert_tolerant binary_string)
     = ascii_text (convert_strict binary_string).
Proof.
  unfold convert_tolerant, convert_strict.
  rewrite tolerant_offsets, convert_loop_spec.
  rewrite tolerant_loop_spec; [split; reflexivity | |].
  - intros i Hi. unfold byte_offsets, range in Hi.
    apply in_map_iff in Hi as (k & <- & Hk). apply in_seq in Hk.
    rewrite length_slice8 by lia.
    replace (Z.of_nat (length binary_string) - 7 - 0 + 8 - 1)
      with (Z.of_nat (length binary_string)) in Hk by lia.
    assert (Hq : Z.to_nat (Z.of_nat (length binary_string) / 8)
                 = (length binary_string / 8)%nat).
    { change 8 with (Z.of_nat 8). rewrite <- Nat2Z.inj_div. apply Nat2Z.id. }
    rewrite Hq in Hk.
    pose proof (Nat.div_mod_eq (length binary_string) 8). lia.
  - destruct (Nat.eqb_spec (length binary_string mod 8) 0) as [| Hnz]; [exact I |].
    rewrite length_slice8 by lia.
    pose proof (Nat.div_mod_eq (length binary_string) 8).
    pose proof (Nat.mod_upper_bound (length binary_string) 8 ltac:(lia)). lia.
Qed.

(** *** Reading along the spiral *)

(** The coordinates of the spiral: for an image of at least one pixel they
    are, given the fuel, an enumeration of the image. *)
Lemma spiral_coordinates_enumerate width height clockwise :
  1 <= width -> 1 <= height ->
  exists cs,
    (forall fuel, (Z.to_nat (width + height) < fuel)%nat ->
                  generate_spiral_coordinates fuel width height clockwise = Some cs)
    /\ Permutation cs (all_coordinates width height).
Proof.
  intros Hw Hh.
  destruct (SpiralSpec.spiral_loop_terminates width height clockwise Hw Hh
              (Z.to_nat (width + height)) 0 1%nat
              (mkState (width / 2) (height / 2) [(width / 2, height / 2)]))
    as (cs & Hrun & Hsafe & Hfull); simpl; try lia.
  { assert (0 <= width / 2 < width) by (split; [apply Z.div_pos | apply Z.div_lt]; lia).
    assert (0 <= height / 2 < height) by (split; [apply Z.div_pos | apply Z.div_lt]; lia).
    split.
    - repeat constructor. simpl. tauto.
    - intros [x y]. unfold SpiralSpec.inb, SpiralSpec.ring, SpiralSpec.sign; simpl. split.
      + intros [Heq | []]. injection Heq as <- <-. destruct clockwise; lia.
      + intros [_ Hr]. left. f_equal; destruct clockwise; lia. }
  exists cs. split.
  - intros fuel Hfuel. unfold generate_spiral_coordinates.
    eapply SpiralSpec.spiral_loop_fuel_le; [| exact Hrun]. lia.
  - apply SpiralSpec.safe_filled_enumeration; try assumption; lia.
Qed.

Lemma raster_coordinates_enumerate width height :
  0 <= width -> 0 <= height ->
  Permutation (all_coordinates width height)
              (Extractor.raster_coordinates width height).
Proof.
  intros Hw Hh. apply NoDup_Permutation_bis.
  - apply SpiralSpec.NoDup_list_prod; apply SpiralSpec.NoDup_zrange.
  - apply Nat2Z.inj_le.
    rewrite ExtractorSpec.length_raster_coordinates,
      SpiralSpec.length_all_coordinates by assumption. lia.
  - intros [x y] H. apply SpiralSpec.in_all_coordinates in H.
    apply ExtractorSpec.in_raster_coordinates. exact H.
Qed.

Lemma spiral_extract_one img spiral_coords ch_name :
  (forall x y, In (x, y) spiral_coords -> ExtractorSpec.inside img x y) ->
  extract_channels img spiral_coords [ch_name] []
  = Some match dict_get ch_name Extractor.channels_to_extract with
         | Some ch_index =>
             [(ch_name, spiral_entry (ExtractorSpec.bits_at img ch_index spiral_coords))]
         | None => []
         end.
Proof.
  intros Hin. cbn [extract_channels].
  destruct (dict_get ch_name Extractor.channels_to_extract) as [ch_index |];
    [| reflexivity].
  rewrite ExtractorSpec.read_bits_inside by assumption. reflexivity.
Qed.

(** For an image of at least one pixel and a channel named, the spiral
    reader does not fail (no coordinate of the spiral is outside the image),
    and the bits it reads are those that the raster extractor reads, each
    pixel once, in another order. *)
Theorem read_spiral_lsb_same_bits
        (img : image) (clockwise : bool) (channel : string) (fuel : nat) :
  1 <= img_width img -> 1 <= img_height img ->
  (Z.to_nat (img_width img + img_height img) < fuel)%nat ->
  channel <> "all"%string ->
  dict_get (Decoder.lower channel) Extractor.channels_to_extract <> None ->
  exists spiral_bits raster_bits,
    read_spiral_lsb fuel img clockwise channel
    = Some (Some [(Decoder.lower channel, spiral_entry spiral_bits)])
    /\ Extractor.extract_lsb_from_channel img channel
       = Some [(Decoder.lower channel, Extractor.channel_entry raster_bits)]
    /\ Permutation spiral_bits raster_bits
    /\ total_bits (spiral_entry spiral_bits)
       = Extractor.total_bits (Extractor.channel_entry raster_bits).
Proof.
  intros Hw Hh Hfuel Hne Hch.
  destruct (dict_get (Decoder.lower channel) Extractor.channels_to_extract)
    as [ch_index |] eqn:Hidx; [clear Hch | contradiction].
  destruct (spiral_coordinates_enumerate (img_width img) (img_height img)
              clockwise Hw Hh) as (cs & Hgen & Hperm).
  exists (ExtractorSpec.bits_at img ch_index cs),
    (ExtractorSpec.raster_bits img ch_index).
  assert (Hbits : Permutation (ExtractorSpec.bits_at img ch_index cs)
                              (ExtractorSpec.raster_bits img ch_index)).
  { unfold ExtractorSpec.raster_bits, ExtractorSpec.bits_at.
    apply Permutation_flat_map.
    rewrite Hperm. apply raster_coordinates_enumerate; lia. }
  split; [| split; [| split]].
  - unfold read_spiral_lsb. rewrite (Hgen fuel Hfuel).
    unfold Extractor.channels_of.
    destruct (String.eqb_spec channel "all"); [contradiction |].
    rewrite spiral_extract_one, Hidx; [reflexivity |].
    intros x y Hin. apply (Permutation_in _ Hperm) in Hin.
    apply SpiralSpec.in_all_coordinates in Hin. exact Hin.
  - rewrite (ExtractorSpec.extract_named img channel Hne), Hidx. reflexivity.
  - exact Hbits.
  - cbn [spiral_entry total_bits Extractor.channel_entry Extractor.total_bits].
    apply Permutation_length, Hbits.
Qed.

(** An image in three bands of three pixels by two. *)
Definition six_pixels : image :=
  mkImage 3 2 (fun x y => Bands [x; y; x + y]).

Lemma read_spiral_lsb_same_bits_witness :
  exists spiral_bits raster_bits,
    read_spiral_lsb 6 six_pixels true "blue"
    = Some (Some [("blue"%string, spiral_entry spiral_bits)])
    /\ Extractor.extract_lsb_from_channel six_pixels "blue"
       = Some [("blue"%string, Extractor.channel_entry raster_bits)]
    /\ Permutation spiral_bits raster_bits
    /\ total_bits (spiral_entry spiral_bits)
       = Extractor.total_bits (Extractor.channel_entry raster_bits).
Proof.
  apply (read_spiral_lsb_same_bits six_pixels true "blue" 6).
  - simpl; lia.
  - simpl; lia.
  - simpl; lia.
  - discriminate.
  - discriminate.
Defined.

(** *** Images without a pixel *)

(** When [width * height] is at most 1 the loop is not entered, and the
    centre, added without a test, is the only coordinate returned. *)
Lemma generate_spiral_single width height clockwise fuel :
  width * height <= 1 ->
  generate_spiral_coordinates (S fuel) width height clockwise
  = Some [(width / 2, height / 2)].
Proof.
  intros H. unfold generate_spiral_coordinates. cbn [spiral_loop coordinates].
  unfold filled. cbn [length].
  destruct (Z.leb_spec (width * height) (Z.of_nat 1)); [reflexivity | lia].
Qed.

(** For an image without a pixel (of width or height 0) the spiral still
    holds one coordinate, the centre, which is outside the image; reading it
    fails, and [read_spiral_lsb] returns [None] for the channel "all". *)
Theorem read_spiral_lsb_empty_image (img : image) (clockwise : bool) (fuel : nat) :
  0 <= img_width img -> 0 <= img_height img ->
  img_width img = 0 \/ img_height img = 0 ->
  generate_spiral_coordinates (S fuel) (img_width img) (img_height img) clockwise
  = Some [(img_width img / 2, img_height img / 2)]
  /\ ~ ExtractorSpec.inside img (img_width img / 2) (img_height img / 2)
  /\ read_spiral_lsb (S fuel) img clockwise "all" = Some None.
Proof.
  intros Hw Hh Hz.
  assert (Hgen := generate_spiral_single (img_width img) (img_height img)
                    clockwise fuel ltac:(nia)).
  assert (Hout : ~ ExtractorSpec.inside img (img_width img / 2) (img_height img / 2)).
  { unfold ExtractorSpec.inside.
    destruct Hz as [Hz | Hz]; rewrite Hz; change (0 / 2) with 0; lia. }
  split; [exact Hgen |]. split; [exact Hout |].
  unfold read_spiral_lsb. rewrite Hgen. f_equal.
  unfold Extractor.channels_of. change (String.eqb "all" "all") with true.
  cbn [extract_channels].
  change (dict_get "red" Extractor.channels_to_extract) with (Some 0%nat).
  cbn [Extractor.read_bits].
  assert (Hget : getpixel img (img_width img / 2) (img_height img / 2) = None).
  { unfold getpixel.
    assert (0 <= img_width img / 2) by (apply Z.div_pos; lia).
    assert (0 <= img_height img / 2) by (apply Z.div_pos; lia).
    destruct (Z.ltb_spec (img_width img / 2) 0); [lia |].
    destruct (Z.ltb_spec (img_height img / 2) 0); [lia |].
    destruct ((0 <=? img_width img / 2) && (img_width img / 2 <? img_width img)
              && (0 <=? img_height img / 2)
              && (img_height img / 2 <? img_height img)) eqn:E; [| reflexivity].
    exfalso. apply Hout. unfold ExtractorSpec.inside.
    rewrite !andb_true_iff, !Z.leb_le, !Z.ltb_lt in E. lia. }
  rewrite Hget. reflexivity.
Qed.

Lemma read_spiral_lsb_empty_image_witness :
  generate_spiral_coordinates 1 0 5 true = Some [(0 / 2, 5 / 2)]
  /\ ~ ExtractorSpec.inside (mkImage 0 5 (fun _ _ => Band 0)) (0 / 2) (5 / 2)
  /\ read_spiral_lsb 1 (mkImage 0 5 (fun _ _ => Band 0)) true "all" = Some None.
Proof.
  apply (read_spiral_lsb_empty_image (mkImage 0 5 (fun _ _ => Band 0)) true 0).
  - simpl; lia.
  - simpl; lia.
  - left; reflexivity.
Defined.

End SpiralReaderSpec.

(* ----------------------------------------------------------------- *)
(** ** Chains of decoding layers *)

Module ChainSpec.
Import Py Decoder DecoderSpec.

(** *** Chains of layers *)

(** What one layer does to the value handed to it. *)
Definition known_layer (layer : string) : bool :=
  String.eqb (lower layer) "base64" || String.eqb (lower layer) "rot13".

Lemma decode_multi_layer_chain l1 :
  forall l2 data,
    decode_multi_layer data (l1 ++ l2)
    = match decode_multi_layer data l1 with
      | Some result => decode_multi_layer result l2
      | None => None
      end.
Proof.
  induction l1 as [| layer l1 IH]; intros l2 data; [reflexivity |].
  cbn [app decode_multi_layer].
  destruct (String.eqb (lower layer) "base64").
  - destruct (decode_base64 data); [apply IH | reflexivity].
  - destruct (String.eqb (lower layer) "rot13"); [| apply IH].
    destruct (decode_rot13 data); [apply IH | reflexivity].
Qed.

(** A chain is the composition of its parts: decoding through [l1 ++ l2] is
    decoding through [l1] and then, unless that failed, through [l2]; once
    a part has failed, the chain has. *)
Theorem decode_multi_layer_composes (data : value) (l1 l2 : list string) :
  decode_multi_layer data (l1 ++ l2)
  = match decode_multi_layer data l1 with
    | Some result => decode_multi_layer result l2
    | None => None
    end.
Proof. apply decode_multi_layer_chain. Qed.

Lemma lower_char_idempotent a : lower_char (lower_char a) = lower_char a.
Proof.
  destruct a as [[] [] [] [] [] [] [] []]; reflexivity.
Qed.

Lemma lower_idempotent s : lower (lower s) = lower s.
Proof.
  induction s as [| a s IH]; [reflexivity |].
  cbn [lower]. rewrite lower_char_idempotent, IH. reflexivity.
Qed.

(** Layer names are matched without regard to case, and a name that is
    neither "base64" nor "rot13" is passed over: a chain decodes as the
    chain of its known names, in lower case. *)
Theorem decode_multi_layer_normal_form (data : value) (layers : list string) :
  decode_multi_layer data layers
  = decode_multi_layer data (map lower (filter known_layer layers)).
Proof.
  revert data. induction layers as [| layer layers IH]; intros data; [reflexivity |].
  cbn [filter decode_multi_layer]. unfold known_layer.
  destruct (String.eqb (lower layer) "base64") eqn:Hb.
  - cbn [orb map decode_multi_layer]. rewrite lower_idempotent, Hb.
    destruct (decode_base64 data); [apply IH | reflexivity].
  - destruct (String.eqb (lower layer) "rot13") eqn:Hr.
    + cbn [orb map decode_multi_layer]. rewrite lower_idempotent, Hb, Hr.
      destruct (decode_rot13 data); [apply IH | reflexivity].
    + cbn [orb]. apply IH.
Qed.

(** Two ROT-13 layers in a row undo each other on a string; on bytes the
    first one fails. *)
Theorem decode_multi_layer_rot13_twice (layers : list string) :
  (forall s,
      decode_multi_layer (Str s) ("rot13" :: "rot13" :: layers)%string
      = decode_multi_layer (Str s) layers)
  /\ (forall b,
         decode_multi_layer (Bytes b) ("rot13" :: "rot13" :: layers)%string
         = None).
Proof.
  split; intros x; cbn [decode_multi_layer];
    change (String.eqb (lower "rot13") "base64") with false;
    change (String.eqb (lower "rot13") "rot13") with true; cbn iota.
  - unfold decode_rot13. cbn [codecs_decode_rot_13 catch].
    rewrite map_rot13_involutive. reflexivity.
  - reflexivity.
Qed.

End ChainSpec.

(* ----------------------------------------------------------------- *)
(** ** Automatic detection and the chains *)

Module AutoDetectSpec.
Import Py Decoder DecoderSpec.

(** The chain of layers a method label stands for. *)
Definition layers_of (label : string) : list string :=
  if String.eqb label "base64" then ["base64"]%string
  else if String.eqb label "rot13" then ["rot13"]%string
  else if String.eqb label "base64_then_rot13" then ["base64"; "rot13"]%string
  else if String.eqb label "rot13_then_base64" then ["rot13"; "base64"]%string
  else [].

Definition labels : list string :=
  ["base64"; "rot13"; "base64_then_rot13"; "rot13_then_base64"]%string.

Definition has_label (results : dict str) (label : string) : bool :=
  match dict_get label results with
  | Some _ => true
  | None => false
  end.

Lemma decode_rot13_str s : decode_rot13 (Str s) = Some (map rot13_char s).
Proof. reflexivity. Qed.

(** What an entry of the mapping is, label by label. *)
Lemma auto_detect_sound data :
  (forall r, dict_get "base64" (auto_detect_and_decode data) = Some r ->
             decode_base64 (Str data) = Some r /\ truthy r = true)
  /\ (forall r, dict_get "rot13" (auto_detect_and_decode data) = Some r ->
                r = map rot13_char data /\ truthy r = true)
  /\ (forall r, dict_get "base64_then_rot13" (auto_detect_and_decode data) = Some r ->
                exists b, decode_base64 (Str data) = Some b
                          /\ r = map rot13_char b /\ truthy r = true)
  /\ (forall r, dict_get "rot13_then_base64" (auto_detect_and_decode data) = Some r ->
                decode_base64 (Str (map rot13_char data)) = Some r
                /\ truthy r = true)
  /\ map fst (auto_detect_and_decode data)
     = filter (has_label (auto_detect_and_decode data)) labels.
Proof.
  unfold auto_detect_and_decode, decode_rot13, codecs_decode_rot_13, catch,
    succeeded, store, has_label, labels.
  generalize (decode_base64 (Str (map rot13_char data))).
  generalize (decode_base64 (Str data)).
  generalize (str_eqb (map rot13_char data) data).
  generalize (forallb (fun c => base64_chars c || isspace c) data).
  generalize (map rot13_char data).
  intros r g e b rb.
  destruct g, e, b as [[| cb b] |], rb as [[| crb rb] |], r as [| cr r]; cbn;
    repeat match goal with |- _ /\ _ => split end;
    try reflexivity;
    intros r0 H; try discriminate; injection H as <-;
    try (split; reflexivity);
    eexists; repeat split; reflexivity.
Qed.

(** Every entry of the mapping returned by [auto_detect_and_decode] is a
    non-empty string, and it is what [decode_multi_layer] decodes from the
    same input through the chain its label names; the keys of the mapping
    come in the order base64, rot13, base64_then_rot13, rot13_then_base64. *)
Theorem auto_detect_and_decode_agrees_with_chains (data : str) :
  (forall label r,
      dict_get label (auto_detect_and_decode data) = Some r ->
      truthy r = true
      /\ decode_multi_layer (Str data) (layers_of label) = Some (Str r))
  /\ map fst (auto_detect_and_decode data)
     = filter (has_label (auto_detect_and_decode data)) labels.
Proof.
  destruct (auto_detect_sound data) as (Hb & Hr & Hbr & Hrb & Hkeys).
  split; [| exact Hkeys].
  intros label r Hget.
  assert (Hin : In label labels).
  { assert (Hl : has_label (auto_detect_and_decode data) label = true)
      by (unfold has_label; rewrite Hget; reflexivity).
    assert (Hk : In label (map fst (auto_detect_and_decode data))).
    { clear Hl. revert Hget. generalize (auto_detect_and_decode data).
      intros d. induction d as [| [k v] d IH]; [discriminate |].
      cbn [dict_get map fst]. destruct (String.eqb_spec label k).
      - intros _. left. congruence.
      - intros H. right. apply IH, H. }
    rewrite Hkeys in Hk. apply filter_In in Hk. tauto. }
  destruct Hin as [<- | [<- | [<- | [<- | []]]]].
  - destruct (Hb r Hget) as [Hd Ht]. split; [exact Ht |].
    cbn. rewrite Hd. reflexivity.
  - destruct (Hr r Hget) as [-> Ht]. split; [exact Ht | reflexivity].
  - destruct (Hbr r Hget) as (b & Hd & -> & Ht). split; [exact Ht |].
    cbn. rewrite Hd. reflexivity.
  - destruct (Hrb r Hget) as [Hd Ht]. split; [exact Ht |].
    cbn. unfold decode_rot13. cbn. rewrite Hd. reflexivity.
Qed.

(** *** The ROT-13 entry *)

Lemma str_eqb_eq a : forall b, str_eqb a b = true <-> a = b.
Proof.
  induction a as [| x a IH]; intros [| y b]; cbn; split; try discriminate;
    try reflexivity.
  - intros H. apply andb_true_iff in H as [Hx Ha].
    apply Z.eqb_eq in Hx. apply IH in Ha. congruence.
  - intros [= -> ->]. rewrite Z.eqb_refl. apply IH. reflexivity.
Qed.

Lemma rot13_char_fixed c : rot13_char c = c <-> ~ is_upper c /\ ~ is_lower c.
Proof.
  unfold rot13_char, is_upper, is_lower.
  pose proof (Z.mod_pos_bound (c - 65 + 13) 26 ltac:(lia)).
  pose proof (Z.mod_pos_bound (c - 97 + 13) 26 ltac:(lia)).
  range_cases; split; intros; try lia.
  - exfalso.
    assert (Hm : (c - 65 + 13) mod 26 = c - 65) by lia.
    destruct (Z.le_gt_cases c 77).
    + rewrite Z.mod_small in Hm by lia. lia.
    + replace (c - 65 + 13) with (c - 78 + 1 * 26) in Hm by lia.
      rewrite Z.mod_add, Z.mod_small in Hm by lia. lia.
  - exfalso.
    assert (Hm : (c - 97 + 13) mod 26 = c - 97) by lia.
    destruct (Z.le_gt_cases c 109).
    + rewrite Z.mod_small in Hm by lia. lia.
    + replace (c - 97 + 13) with (c - 110 + 1 * 26) in Hm by lia.
      rewrite Z.mod_add, Z.mod_small in Hm by lia. lia.
Qed.

Lemma map_rot13_fixed s :
  map rot13_char s = s <-> forall c, In c s -> ~ is_upper c /\ ~ is_lower c.
Proof.
  induction s as [| c s IH]; cbn [map]; split.
  - intros _ c [].
  - reflexivity.
  - intros [= Hc Hs] d [<- | Hd].
    + apply rot13_char_fixed, Hc.
    + apply IH; assumption.
  - intros H. f_equal.
    + apply rot13_char_fixed, H. left; reflexivity.
    + apply IH. intros d Hd. apply H. right; exact Hd.
Qed.

(** The mapping has an entry "rot13" exactly when the input holds a letter
    A-Z or a-z; the entry is then the input with its letters rotated. *)
Theorem auto_detect_and_decode_rot13_entry (data : str) :
  (dict_get "rot13" (auto_detect_and_decode data) <> None
   <-> exists c, In c data /\ (is_upper c \/ is_lower c))
  /\ (forall r, dict_get "rot13" (auto_detect_and_decode data) = Some r ->
                r = map rot13_char data).
Proof.
  assert (Hentry :
            dict_get "rot13" (auto_detect_and_decode data)
            = if truthy (map rot13_char data)
                 && negb (str_eqb (map rot13_char data) data)
              then Some (map rot13_char data) else None).
  { unfold auto_detect_and_decode, decode_rot13, codecs_decode_rot_13, catch,
      succeeded, store.
    generalize (decode_base64 (Str (map rot13_char data))).
    generalize (decode_base64 (Str data)).
    generalize (str_eqb (map rot13_char data) data).
    generalize (forallb (fun c => base64_chars c || isspace c) data).
    generalize (map rot13_char data).
    intros r g e b rb.
    destruct g, e, b as [[| cb b] |], rb as [[| crb rb] |], r as [| cr r];
      reflexivity. }
  rewrite Hentry. split.
  - destruct (str_eqb (map rot13_char data) data) eqn:He.
    + rewrite andb_false_r. apply str_eqb_eq in He.
      split; [congruence |].
      intros (c & Hin & Hletter).
      pose proof (proj1 (map_rot13_fixed data) He c Hin). tauto.
    + assert (Hne : map rot13_char data <> data).
      { intros H. apply str_eqb_eq in H. congruence. }
      assert (Hex : exists c, In c data /\ (is_upper c \/ is_lower c)).
      { clear Hentry He. induction data as [| c data IH]; [exfalso; apply Hne; reflexivity |].
        destruct (Z.eq_dec (rot13_char c) c) as [Hc | Hc].
        - destruct IH as (d & Hd & Hl).
          + intros H. apply Hne. cbn [map]. congruence.
          + exists d. split; [right; exact Hd | exact Hl].
        - exists c. split; [left; reflexivity |].
          unfold is_upper, is_lower.
          destruct (Z.le_gt_cases 65 c), (Z.le_gt_cases c 90),
            (Z.le_gt_cases 97 c), (Z.le_gt_cases c 122);
            try (left; lia); try (right; lia);
            exfalso; apply Hc, rot13_char_fixed; unfold is_upper, is_lower; lia. }
      split; [intros _; exact Hex |].
      intros _. destruct data as [| c data].
      * destruct Hex as (c & [] & _).
      * cbn. discriminate.
  - intros r. destruct (truthy (map rot13_char data)
                        && negb (str_eqb (map rot13_char data) data));
      congruence.
Qed.

End AutoDetectSpec.

(* ----------------------------------------------------------------- *)
(** ** Assembling the fragments *)

Module FragmentsSpec.
Import Py Assembler.

Lemma concat_truthy (l : list str) : concat (filter truthy l) = concat l.
Proof.
  induction l as [| f l IH]; [reflexivity |].
  cbn [filter]. destruct f as [| c f]; cbn [truthy concat app]; [exact IH |].
  rewrite IH. reflexivity.
Qed.

Section Keys.
Variable K : Type.
Variable K_eqb : K -> K -> bool.
Variable K_leb : K -> K -> bool.

Abbreviation get := (fragments_get K K_eqb).
Abbreviation sort := (sorted K K_leb).
Abbreviation assemble := (assemble_fragments K K_eqb K_leb).

(** A key of the [dict]. *)
Definition has_key (d : list (K * str)) (key : K) : bool :=
  existsb (K_eqb key) (map fst d).

Lemma get_missing d key default :
  has_key d key = false -> get d key default = default.
Proof.
  unfold has_key. induction d as [| [k v] d IH]; [reflexivity |].
  cbn [map fst existsb fragments_get]. intros H.
  apply orb_false_iff in H as [Hk Hd]. rewrite Hk. apply IH, Hd.
Qed.

(** For a list of fragments the result is their concatenation in the order
    of the list, whatever [order] is given; for a [dict] and an [order] that
    is not empty it is the concatenation of the fragments of the keys that
    [order] lists, in that order, a key absent from the [dict] adding
    nothing; an empty [order] is taken as no order. *)
Theorem assemble_fragments_order (l : list str) (d : list (K * str))
        (order : option (list K)) (keys : list K) :
  assemble (FragmentList K l) order = concat l
  /\ (keys <> [] ->
      assemble (FragmentDict K d) (Some keys)
      = concat (map (fun key => get d key []) (filter (has_key d) keys)))
  /\ assemble (FragmentDict K d) (Some []) = assemble (FragmentDict K d) None.
Proof.
  split; [apply concat_truthy |]. split; [| reflexivity].
  intros Hne. unfold assemble_fragments.
  destruct keys as [| key keys]; [contradiction |].
  rewrite concat_truthy.
  generalize (key :: keys). intros ks. clear.
  induction ks as [| k ks IH]; [reflexivity |].
  cbn [map filter]. destruct (has_key d k) eqn:Hk.
  - cbn [map concat]. rewrite IH. reflexivity.
  - cbn [concat]. rewrite (get_missing d k [] Hk), IH. reflexivity.
Qed.

(** *** Sorted keys *)

Hypothesis K_eqb_eq : forall a b, K_eqb a b = true <-> a = b.
Hypothesis K_leb_total : forall a b, K_leb a b = true \/ K_leb b a = true.
Hypothesis K_leb_trans :
  forall a b c, K_leb a b = true -> K_leb b c = true -> K_leb a c = true.
Hypothesis K_leb_antisym :
  forall a b, K_leb a b = true -> K_leb b a = true -> a = b.

Definition le (a b : K) : Prop := K_leb a b = true.

Lemma insert_key_perm k l : Permutation (insert_key K K_leb k l) (k :: l).
Proof.
  induction l as [| a l IH]; [reflexivity |].
  cbn [insert_key]. destruct (K_leb k a); [reflexivity |].
  rewrite IH. apply perm_swap.
Qed.

Lemma sorted_perm l : Permutation (sort l) l.
Proof.
  induction l as [| a l IH]; [reflexivity |].
  cbn [sorted fold_right]. rewrite insert_key_perm. apply perm_skip, IH.
Qed.

Lemma insert_key_sorted k l :
  StronglySorted le l -> StronglySorted le (insert_key K K_leb k l).
Proof.
  induction 1 as [| a l Hs IH Ha]; cbn [insert_key].
  - repeat constructor.
  - destruct (K_leb k a) eqn:Hk.
    + constructor; [constructor; assumption |].
      constructor; [exact Hk |].
      eapply Forall_impl; [| exact Ha]. intros b Hb. eapply K_leb_trans; eassumption.
    + constructor; [exact IH |].
      apply Forall_forall. intros b Hb.
      apply (Permutation_in _ (insert_key_perm k l)) in Hb.
      destruct Hb as [<- | Hb].
      * destruct (K_leb_total a k) as [H | H]; [exact H | congruence].
      * exact (proj1 (Forall_forall _ _) Ha b Hb).
Qed.

Lemma sorted_sorted l : StronglySorted le (sort l).
Proof.
  induction l as [| a l IH]; [constructor |].
  cbn [sorted fold_right]. apply insert_key_sorted, IH.
Qed.

Lemma sorted_unique l :
  forall l', StronglySorted le l -> StronglySorted le l' ->
             Permutation l l' -> l = l'.
Proof.
  induction l as [| a l IH]; intros l' Hl Hl' Hp.
  - apply Permutation_nil in Hp. congruence.
  - destruct l' as [| b l']; [apply Permutation_sym, Permutation_nil in Hp; discriminate |].
    apply StronglySorted_inv in Hl as [Hl Ha], Hl' as [Hl' Hb].
    assert (Hab : a = b).
    { assert (Hina : In a (b :: l')) by (apply (Permutation_in _ Hp); left; reflexivity).
      assert (Hinb : In b (a :: l))
        by (apply (Permutation_in _ (Permutation_sym Hp)); left; reflexivity).
      destruct Hina as [-> | Hina]; [reflexivity |].
      destruct Hinb as [-> | Hinb]; [reflexivity |].
      apply K_leb_antisym.
      - exact (proj1 (Forall_forall _ _) Ha b Hinb).
      - exact (proj1 (Forall_forall _ _) Hb a Hina). }
    subst b. f_equal. apply IH; try assumption.
    eapply Permutation_cons_inv, Hp.
Qed.

Lemma get_perm d d' key default :
  NoDup (map fst d) -> Permutation d d' ->
  get d key default = get d' key default.
Proof.
  intros Hnd Hp. induction Hp as [| [k v] d d' Hp IH | [k1 v1] [k2 v2] d | d d' d'' Hp1 IH1 Hp2 IH2].
  - reflexivity.
  - cbn [fragments_get]. cbn [map fst] in Hnd. apply NoDup_cons_iff in Hnd as [_ Hnd].
    rewrite IH by assumption. reflexivity.
  - cbn [fragments_get]. cbn [map fst] in Hnd.
    destruct (K_eqb key k1) eqn:H1, (K_eqb key k2) eqn:H2; try reflexivity.
    apply K_eqb_eq in H1, H2. subst.
    apply NoDup_cons_iff in Hnd as [Hnd _]. exfalso. apply Hnd. left. reflexivity.
  - rewrite IH1 by assumption. apply IH2.
    eapply Permutation_NoDup; [| exact Hnd]. apply Permutation_map, Hp1.
Qed.

(** Without an [order], the fragments of a [dict] are joined in the
    ascending order of their keys, whatever the order the keys were inserted
    in: two [dict]s with the same items give the same result. *)
Theorem assemble_fragments_sorted (d d' : list (K * str)) :
  NoDup (map fst d) -> Permutation d d' ->
  assemble (FragmentDict K d) None
  = concat (map (fun key => get d key []) (sort (map fst d)))
  /\ StronglySorted le (sort (map fst d))
  /\ Permutation (sort (map fst d)) (map fst d)
  /\ assemble (FragmentDict K d) None = assemble (FragmentDict K d') None.
Proof.
  intros Hnd Hp.
  split; [apply concat_truthy |].
  split; [apply sorted_sorted |].
  split; [apply sorted_perm |].
  unfold assemble_fragments. rewrite !concat_truthy.
  assert (Hkeys : sort (map fst d) = sort (map fst d')).
  { apply sorted_unique; try apply sorted_sorted.
    rewrite !sorted_perm. apply Permutation_map, Hp. }
  rewrite Hkeys. f_equal. apply map_ext. intros key.
  apply get_perm; assumption.
Qed.

End Keys.

(** The theorem at integer keys: the [dict]s [{2: "A", 1: "B"}] and
    [{1: "B", 2: "A"}]. *)
Lemma assemble_fragments_sorted_witness :
  assemble_fragments Z Z.eqb Z.leb (FragmentDict Z [(2, lit "A"); (1, lit "B")]) None
  = assemble_fragments Z Z.eqb Z.leb (FragmentDict Z [(1, lit "B"); (2, lit "A")]) None.
Proof.
  apply (assemble_fragments_sorted Z Z.eqb Z.leb Z.eqb_eq).
  - intros a b. rewrite !Z.leb_le. lia.
  - intros a b c. rewrite !Z.leb_le. lia.
  - intros a b. rewrite !Z.leb_le. lia.
  - repeat constructor; simpl; intuition discriminate.
  - apply perm_swap.
Defined.

Lemma assemble_fragments_order_witness :
  assemble_fragments Z Z.eqb Z.leb (FragmentDict Z [(2, lit "A"); (1, lit "B")])
                     (Some [1; 7; 2])
  = concat (map (fun key => fragments_get Z Z.eqb [(2, lit "A"); (1, lit "B")] key [])
                (filter (has_key Z Z.eqb [(2, lit "A"); (1, lit "B")]) [1; 7; 2])).
Proof.
  apply (proj1 (proj2 (assemble_fragments_order Z Z.eqb Z.leb []
                         [(2, lit "A"); (1, lit "B")] None [1; 7; 2]))).
  discriminate.
Defined.

End FragmentsSpec.

(* ----------------------------------------------------------------- *)
(** ** UTF-8 *)

Module Utf8Spec.
Import Py.

(** A code point that [str.encode()] accepts. *)
Definition scalar (c : Z) : Prop :=
  0 <= c < 0x110000 /\ ~ (0xD800 <= c <= 0xDFFF).

Lemma lor_low k x :
  In k [0x80; 0xC0; 0xE0; 0xF0] -> 0 <= x < 64 -> k + x < 256 ->
  Z.lor k x = k + x.
Proof.
  intros Hk Hx Hlt.
  assert (Hall : forallb (fun n =>
                            forallb (fun k => (256 <=? k + Z.of_nat n)
                                              || (Z.lor k (Z.of_nat n) =? k + Z.of_nat n))
                                    [0x80; 0xC0; 0xE0; 0xF0])
                         (seq 0 64) = true) by (vm_compute; reflexivity).
  rewrite forallb_forall in Hall.
  specialize (Hall (Z.to_nat x) ltac:(apply in_seq; lia)).
  rewrite forallb_forall in Hall. specialize (Hall k Hk).
  rewrite Z2Nat.id in Hall by lia.
  apply orb_true_iff in Hall as [H | H]; [apply Z.leb_le in H; lia |].
  apply Z.eqb_eq, H.
Qed.

Lemma land_63 x : 0 <= x -> Z.land x 0x3F = x mod 64.
Proof. intros _. change 0x3F with (Z.ones 6). apply Z.land_ones. lia. Qed.

Ltac utf8_arith :=
  rewrite ?Z.shiftr_div_pow2, ?Z.shiftl_mul_pow2 by lia;
  rewrite ?land_63 by (try apply Z.div_pos; lia);
  change (2 ^ 6) with 64; change (2 ^ 12) with 4096; change (2 ^ 18) with 262144.

Lemma Return_inj {A : Type} (a b : A) : Return a = Return b -> a = b.
Proof. congruence. Qed.

Lemma decode_encode_char c bs rest :
  scalar c -> utf8_encode_char c = Return bs ->
  decode_utf8_ignore (bs ++ rest) = c :: decode_utf8_ignore rest.
Proof.
  intros [Hc Hs]. unfold utf8_encode_char.
  destruct (Z.ltb_spec c 0x80) as [H1 | H1].
  { intros Hbs; apply Return_inj in Hbs; subst bs. cbn [app decode_utf8_ignore].
    destruct (Z.ltb_spec c 0x80); [reflexivity | lia]. }
  destruct (Z.ltb_spec c 0x800) as [H2 | H2].
  { intros Hbs; apply Return_inj in Hbs; subst bs. utf8_arith.
    assert (Hq : 2 <= c / 64 < 32) by (Z.div_mod_to_equations; lia).
    assert (Hr : 0 <= c mod 64 < 64) by (apply Z.mod_pos_bound; lia).
    rewrite (lor_low 0xC0 (c / 64)) by (first [lia | simpl; auto 6]).
    rewrite (lor_low 0x80 (c mod 64)) by (first [lia | simpl; auto 6]).
    cbn [app decode_utf8_ignore]. unfold is_continuation. utf8_arith.
    destruct (Z.ltb_spec (0xC0 + c / 64) 0x80); [lia |].
    destruct (Z.ltb_spec (0xC0 + c / 64) 0xC2); [lia |].
    destruct (Z.ltb_spec (0xC0 + c / 64) 0xE0); [| lia].
    destruct (Z.leb_spec 0x80 (0x80 + c mod 64)); [| lia].
    destruct (Z.ltb_spec (0x80 + c mod 64) 0xC0); [| lia].
    cbn [andb]. f_equal. Z.div_mod_to_equations. lia. }
  destruct (Z.ltb_spec c 0x10000) as [H3 | H3].
  { destruct ((0xD800 <=? c) && (c <=? 0xDFFF)) eqn:Hsur; [discriminate |].
    intros Hbs; apply Return_inj in Hbs; subst bs. utf8_arith.
    assert (Hq : 0 <= c / 4096 < 16) by (Z.div_mod_to_equations; lia).
    assert (Hm : 0 <= (c / 64) mod 64 < 64) by (apply Z.mod_pos_bound; lia).
    assert (Hr : 0 <= c mod 64 < 64) by (apply Z.mod_pos_bound; lia).
    rewrite (lor_low 0xE0 (c / 4096)) by (first [lia | simpl; auto 6]).
    rewrite (lor_low 0x80 ((c / 64) mod 64)) by (first [lia | simpl; auto 6]).
    rewrite (lor_low 0x80 (c mod 64)) by (first [lia | simpl; auto 6]).
    cbn [app decode_utf8_ignore]. unfold is_continuation. utf8_arith.
    destruct (Z.ltb_spec (0xE0 + c / 4096) 0x80); [lia |].
    destruct (Z.ltb_spec (0xE0 + c / 4096) 0xC2); [lia |].
    destruct (Z.ltb_spec (0xE0 + c / 4096) 0xE0); [lia |].
    destruct (Z.ltb_spec (0xE0 + c / 4096) 0xF0); [| lia].
    destruct (Z.leb_spec 0x80 (0x80 + (c / 64) mod 64)); [| lia].
    destruct (Z.ltb_spec (0x80 + (c / 64) mod 64) 0xC0); [| lia].
    destruct (Z.leb_spec 0x80 (0x80 + c mod 64)); [| lia].
    destruct (Z.ltb_spec (0x80 + c mod 64) 0xC0); [| lia].
    cbn [andb negb orb].
    assert (Hcheck : (if 0x80 + (c / 64) mod 64 <? 0xA0
                      then 0xE0 + c / 4096 =? 0xE0
                      else 0xE0 + c / 4096 =? 0xED) = false).
    { destruct (Z.ltb_spec (0x80 + (c / 64) mod 64) 0xA0);
        apply Z.eqb_neq; Z.div_mod_to_equations; lia. }
    rewrite Hcheck. f_equal. Z.div_mod_to_equations. lia. }
  intros Hbs; apply Return_inj in Hbs; subst bs. utf8_arith.
  assert (Hq : 0 <= c / 262144 < 5) by (Z.div_mod_to_equations; lia).
  assert (Hm1 : 0 <= (c / 4096) mod 64 < 64) by (apply Z.mod_pos_bound; lia).
  assert (Hm2 : 0 <= (c / 64) mod 64 < 64) by (apply Z.mod_pos_bound; lia).
  assert (Hr : 0 <= c mod 64 < 64) by (apply Z.mod_pos_bound; lia).
  rewrite (lor_low 0xF0 (c / 262144)) by (first [lia | simpl; auto 6]).
  rewrite (lor_low 0x80 ((c / 4096) mod 64)) by (first [lia | simpl; auto 6]).
  rewrite (lor_low 0x80 ((c / 64) mod 64)) by (first [lia | simpl; auto 6]).
  rewrite (lor_low 0x80 (c mod 64)) by (first [lia | simpl; auto 6]).
  cbn [app decode_utf8_ignore]. unfold is_continuation. utf8_arith.
  destruct (Z.ltb_spec (0xF0 + c / 262144) 0x80); [lia |].
  destruct (Z.ltb_spec (0xF0 + c / 262144) 0xC2); [lia |].
  destruct (Z.ltb_spec (0xF0 + c / 262144) 0xE0); [lia |].
  destruct (Z.ltb_spec (0xF0 + c / 262144) 0xF0); [lia |].
  destruct (Z.ltb_spec (0xF0 + c / 262144) 0xF5); [| lia].
  destruct (Z.leb_spec 0x80 (0x80 + (c / 4096) mod 64)); [| lia].
  destruct (Z.ltb_spec (0x80 + (c / 4096) mod 64) 0xC0); [| lia].
  destruct (Z.leb_spec 0x80 (0x80 + (c / 64) mod 64)); [| lia].
  destruct (Z.ltb_spec (0x80 + (c / 64) mod 64) 0xC0); [| lia].
  destruct (Z.leb_spec 0x80 (0x80 + c mod 64)); [| lia].
  destruct (Z.ltb_spec (0x80 + c mod 64) 0xC0); [| lia].
  cbn [andb negb orb].
  assert (Hcheck : (if 0x80 + (c / 4096) mod 64 <? 0x90
                    then 0xF0 + c / 262144 =? 0xF0
                    else 0xF0 + c / 262144 =? 0xF4) = false).
  { destruct (Z.ltb_spec (0x80 + (c / 4096) mod 64) 0x90);
      apply Z.eqb_neq; Z.div_mod_to_equations; lia. }
  rewrite Hcheck. f_equal. Z.div_mod_to_equations. lia.
Qed.

(** Decoding inverts encoding. *)
Lemma decode_encode s :
  forall bs, Forall scalar s -> encode s = Return bs -> decode_utf8_ignore bs = s.
Proof.
  induction s as [| c s IH]; intros bs Hs; cbn [encode].
  - intros [= <-]. reflexivity.
  - inversion Hs as [| ? ? Hc Hs']; subst.
    destruct (utf8_encode_char c) as [b |] eqn:Hb; [| discriminate].
    cbn [bind]. destruct (encode s) as [bs' |] eqn:Hbs; [| discriminate].
    cbn [bind]. intros [= <-].
    rewrite (decode_encode_char c b bs' Hc Hb). f_equal. apply IH; trivial.
Qed.

End Utf8Spec.

(* ----------------------------------------------------------------- *)
(** ** The block cipher and the methods of decryption *)

Module DecryptSpec.
Import Py Assembler AssemblerSpec.

Lemma encode_scalar s : Forall Utf8Spec.scalar s -> exists bs, encode s = Return bs.
Proof.
  induction 1 as [| c s [Hc Hs] _ (bs & IH)]; [exists []; reflexivity |].
  cbn [encode]. rewrite IH.
  assert (Hchar : exists b, utf8_encode_char c = Return b).
  { unfold utf8_encode_char.
    destruct (c <? 0x80); [eexists; reflexivity |].
    destruct (c <? 0x800); [eexists; reflexivity |].
    destruct (c <? 0x10000); [| eexists; reflexivity].
    destruct ((0xD800 <=? c) && (c <=? 0xDFFF)) eqn:E; [| eexists; reflexivity].
    apply andb_true_iff in E as [E1 E2]. apply Z.leb_le in E1, E2. lia. }
  destruct Hchar as (b & ->). eexists. reflexivity.
Qed.

(** *** The key of the block cipher *)

Lemma firstn_repeat_le {A : Type} (a : A) k m :
  (k <= m)%nat -> firstn k (repeat a m) = repeat a k.
Proof.
  revert m. induction k as [| k IH]; intros m H; [reflexivity |].
  destruct m as [| m]; [lia |]. cbn [repeat firstn]. rewrite IH by lia. reflexivity.
Qed.

(** The normalised key is the key cut, or filled with null bytes, to its
    length; that length is 16, 24 or 32 for a key of at most 24 or at least
    32 bytes. *)
Theorem normalize_key_conforms (key : bytes) :
  (length key <= 24 \/ 32 <= length key)%nat ->
  In (length (normalize_key key)) [16; 24; 32]%nat
  /\ normalize_key key
     = firstn (length (normalize_key key)) (key ++ repeat 0 32).
Proof.
  intros H. split; [apply normalize_key_length, H |].
  unfold normalize_key, ljust.
  destruct (Nat.ltb_spec (length key) 16).
  { rewrite length_app, repeat_length.
    replace (length key + (16 - length key))%nat with 16%nat by lia.
    rewrite firstn_app, firstn_all2 by lia. f_equal.
    symmetry. apply firstn_repeat_le. lia. }
  destruct (Nat.ltb_spec (length key) 24).
  { rewrite length_firstn, Nat.min_l by lia.
    rewrite firstn_app. replace (16 - length key)%nat with 0%nat by lia.
    rewrite firstn_O, app_nil_r. reflexivity. }
  destruct (Nat.ltb_spec (length key) 32).
  { rewrite length_app, repeat_length.
    replace (length key + (24 - length key))%nat with 24%nat by lia.
    rewrite firstn_app, firstn_all2 by lia. f_equal.
    symmetry. apply firstn_repeat_le. lia. }
  rewrite length_firstn, Nat.min_l by lia.
  rewrite firstn_app. replace (32 - length key)%nat with 0%nat by lia.
  rewrite firstn_O, app_nil_r. reflexivity.
Qed.

Lemma normalize_key_conforms_witness :
  In (length (normalize_key (lit "secret"))) [16; 24; 32]%nat
  /\ normalize_key (lit "secret")
     = firstn (length (normalize_key (lit "secret"))) (lit "secret" ++ repeat 0 32).
Proof.
  apply (normalize_key_conforms (lit "secret")). left. simpl. lia.
Defined.

Lemma length_normalize_key_valid key :
  ((length (normalize_key key) =? 16) || (length (normalize_key key) =? 24)
   || (length (normalize_key key) =? 32))%nat = true
  <-> (length key <= 24 \/ 32 <= length key)%nat.
Proof.
  rewrite !orb_true_iff, !Nat.eqb_eq. split.
  - intros H. destruct (Nat.le_gt_cases (length key) 24) as [| H1]; [left; assumption |].
    destruct (Nat.le_gt_cases 32 (length key)) as [| H2]; [right; assumption |].
    rewrite normalize_key_unchanged in H by lia. lia.
  - intros H. pose proof (normalize_key_length key H) as Hin.
    simpl in Hin. lia.
Qed.

(** *** The padding of the block cipher *)

Lemma forallb_repeat (n : Z) k : forallb (fun b => b =? n) (repeat n k) = true.
Proof. induction k; cbn; [reflexivity | rewrite Z.eqb_refl; assumption]. Qed.

(** A message with its padding is unpadded to the message. *)
Lemma pkcs7_unpad_padded m n :
  (1 <= n <= 16)%nat -> ((length m + n) mod 16 = 0)%nat ->
  pkcs7_unpad (m ++ repeat (Z.of_nat n) n) = Return m.
Proof.
  intros Hn Hmod. unfold pkcs7_unpad.
  rewrite rev_app_distr, rev_repeat.
  destruct n as [| n]; [lia |]. cbn [repeat app].
  rewrite length_app. cbn [length]. rewrite repeat_length, Hmod. cbn [Nat.eqb negb].
  rewrite Nat2Z.id.
  replace ((1 <=? Z.of_nat (S n)) && (Z.of_nat (S n) <=? 16)) with true
    by (symmetry; apply andb_true_iff; split; apply Z.leb_le; lia).
  change (Z.of_nat (S n) :: repeat (Z.of_nat (S n)) n ++ rev m)
    with (repeat (Z.of_nat (S n)) (S n) ++ rev m).
  rewrite firstn_app, repeat_length, Nat.sub_diag, firstn_O, app_nil_r.
  rewrite firstn_all2 by (rewrite repeat_length; lia).
  rewrite forallb_repeat. cbn [andb].
  replace (length m + S n - S n)%nat with (length m) by lia.
  rewrite firstn_app, Nat.sub_diag, firstn_O, app_nil_r, firstn_all. reflexivity.
Qed.


Section Cipher.
Variable sha256 : bytes -> bytes.
Variable aes_cbc_decrypt : bytes -> bytes -> bytes -> bytes.

(** The output of the cipher, before the padding is removed. *)
Definition decrypted_padded (encrypted_data key : bytes) : bytes :=
  aes_cbc_decrypt (normalize_key key) (firstn 16 (sha256 (normalize_key key)))
                  encrypted_data.

Lemma aes_decrypt_cases encrypted_data key k :
  as_bytes key = Return k ->
  aes_decrypt sha256 aes_cbc_decrypt encrypted_data key
  = if ((24 <? length k) && (length k <? 32))%nat
       || negb (length encrypted_data mod 16 =? 0)%nat
    then Raise ValueError
    else match pkcs7_unpad (decrypted_padded encrypted_data k) with
         | Return decrypted => Return decrypted
         | Raise _ => Return (decrypted_padded encrypted_data k)
         end.
Proof.
  intros Hk. unfold aes_decrypt, decrypted_padded. rewrite Hk. cbn [bind].
  destruct ((length (normalize_key k) =? 16) || (length (normalize_key k) =? 24)
            || (length (normalize_key k) =? 32))%nat eqn:Hvalid.
  - apply length_normalize_key_valid in Hvalid.
    replace ((24 <? length k) && (length k <? 32))%nat with false; [reflexivity |].
    symmetry. apply andb_false_iff. rewrite !Nat.ltb_ge. lia.
  - cbn [negb].
    replace ((24 <? length k) && (length k <? 32))%nat with true; [reflexivity |].
    symmetry. apply andb_true_iff. rewrite !Nat.ltb_lt.
    destruct (Nat.le_gt_cases (length k) 24) as [H1 |];
      [| destruct (Nat.le_gt_cases 32 (length k)) as [H2 |]; [| lia]].
    + rewrite (proj2 (length_normalize_key_valid k) (or_introl H1)) in Hvalid.
      discriminate.
    + rewrite (proj2 (length_normalize_key_valid k) (or_intror H2)) in Hvalid.
      discriminate.
Qed.


(** When the cipher gives a message followed by its padding, [n] bytes of
    value [n] that complete a block, [aes_decrypt] returns the message. *)
Theorem aes_decrypt_strips_padding
        (encrypted_data : bytes) (key : value) (k m : bytes) (n : nat) :
  as_bytes key = Return k ->
  (length k <= 24 \/ 32 <= length k)%nat ->
  (length encrypted_data mod 16 = 0)%nat ->
  (1 <= n <= 16)%nat -> ((length m + n) mod 16 = 0)%nat ->
  decrypted_padded encrypted_data k = m ++ repeat (Z.of_nat n) n ->
  aes_decrypt sha256 aes_cbc_decrypt encrypted_data key = Return m.
Proof.
  intros Hk Hlen Hdata Hn Hmod Hraw.
  rewrite (aes_decrypt_cases encrypted_data key k Hk), Hraw.
  rewrite pkcs7_unpad_padded by assumption.
  replace ((24 <? length k) && (length k <? 32))%nat with false
    by (symmetry; apply andb_false_iff; rewrite !Nat.ltb_ge; lia).
  rewrite Hdata. reflexivity.
Qed.

End Cipher.


Lemma aes_decrypt_strips_padding_witness :
  aes_decrypt (fun _ => repeat 0 32) (fun _ _ data => data)
              (lit "FLAG{padded}" ++ repeat 4 4) (Str (lit "key"))
  = Return (lit "FLAG{padded}").
Proof.
  apply (aes_decrypt_strips_padding (fun _ => repeat 0 32) (fun _ _ data => data)
           (lit "FLAG{padded}" ++ repeat 4 4) (Str (lit "key")) (lit "key")
           (lit "FLAG{padded}") 4).
  - reflexivity.
  - left. simpl. lia.
  - reflexivity.
  - lia.
  - reflexivity.
  - reflexivity.
Defined.

(** *** Decrypting with a method named *)

Section Methods.
Variable sha256 : bytes -> bytes.
Variable aes_cbc_decrypt : bytes -> bytes -> bytes -> bytes.
Variable isalpha : Z -> bool.

Lemma decrypt_final_bytes encrypted_bytes key method :
  decrypt_final sha256 aes_cbc_decrypt isalpha (Bytes encrypted_bytes) key method
  = Return (if String.eqb method "auto"
            then auto_choice isalpha (xor_result encrypted_bytes key)
                             (aes_result sha256 aes_cbc_decrypt encrypted_bytes key)
            else if String.eqb method "xor" then xor_result encrypted_bytes key
            else if String.eqb method "aes"
                 then aes_result sha256 aes_cbc_decrypt encrypted_bytes key
                 else None).
Proof.
  unfold decrypt_final, xor_result, aes_result, auto_choice.
  cbn [to_encrypted_bytes bind].
  destruct (String.eqb_spec method "auto") as [-> | Hauto].
  - change (String.eqb "auto" "xor") with false.
    change (String.eqb "auto" "aes") with false. cbn [orb].
    destruct (xor_decrypt (Bytes encrypted_bytes) key) as [x | ex];
      destruct (aes_decrypt sha256 aes_cbc_decrypt encrypted_bytes key) as [a | ea];
      cbn -[decode_utf8_ignore readable has_alpha];
      rewrite ?readable_has_alpha;
      repeat match goal with
             | |- context [has_alpha ?i ?t] => destruct (has_alpha i t)
             end;
      reflexivity.
  - destruct (String.eqb_spec method "xor") as [-> | Hxor].
    + change (String.eqb "xor" "aes") with false. cbn [orb].
      destruct (xor_decrypt (Bytes encrypted_bytes) key); reflexivity.
    + destruct (String.eqb_spec method "aes") as [-> | Haes].
      * cbn [orb].
        destruct (aes_decrypt sha256 aes_cbc_decrypt encrypted_bytes key);
          reflexivity.
      * cbn [orb]. cbn [dict_get]. reflexivity.
Qed.

(** For data given as bytes [decrypt_final] never raises: what the methods
    raise is caught.  It returns the XOR result for "xor", the block-cipher
    result for "aes", and [None] for a method that is none of "xor", "aes"
    and "auto"; with "xor", a key of no bytes, which makes [xor_decrypt]
    raise, gives [None] too. *)
Theorem decrypt_final_bytes_never_raises
        (encrypted_bytes : bytes) (key : value) (method : string) :
  (exists result,
      decrypt_final sha256 aes_cbc_decrypt isalpha (Bytes encrypted_bytes) key method
      = Return result)
  /\ decrypt_final sha256 aes_cbc_decrypt isalpha (Bytes encrypted_bytes) key "xor"
     = Return (xor_result encrypted_bytes key)
  /\ decrypt_final sha256 aes_cbc_decrypt isalpha (Bytes encrypted_bytes) key "aes"
     = Return (aes_result sha256 aes_cbc_decrypt encrypted_bytes key)
  /\ (~ In method ["xor"; "aes"; "auto"]%string ->
      decrypt_final sha256 aes_cbc_decrypt isalpha (Bytes encrypted_bytes) key method
      = Return None)
  /\ (as_bytes key = Return [] ->
      decrypt_final sha256 aes_cbc_decrypt isalpha (Bytes encrypted_bytes) key "xor"
      = Return None).
Proof.
  rewrite !decrypt_final_bytes.
  split; [eexists; reflexivity |]. split; [reflexivity |]. split; [reflexivity |].
  split.
  - intros Hnot. cbn [In] in Hnot.
    destruct (String.eqb_spec method "auto"); [subst; exfalso; auto 6 |].
    destruct (String.eqb_spec method "xor"); [subst; exfalso; auto 6 |].
    destruct (String.eqb_spec method "aes"); [subst; exfalso; auto 6 |].
    reflexivity.
  - intros Hk. change (String.eqb "xor" "auto") with false.
    change (String.eqb "xor" "xor") with true. cbn iota.
    unfold xor_result, xor_decrypt. cbn [as_bytes bind]. rewrite Hk. reflexivity.
Qed.

(** Text (any string without surrogates) that is XOR-encrypted with a key
    of at least one byte is given back by [decrypt_final] with the method
    "xor" and the same key and, when it has an alphabetic character, with
    the method "auto". *)
Theorem decrypt_final_xor_round_trip (text : str) (key : value) (k : bytes) :
  Forall Utf8Spec.scalar text ->
  as_bytes key = Return k -> k <> [] ->
  exists ciphertext,
    xor_decrypt (Str text) key = Return ciphertext
    /\ decrypt_final sha256 aes_cbc_decrypt isalpha (Bytes ciphertext) key "xor"
       = Return (Some text)
    /\ (existsb isalpha text = true ->
        decrypt_final sha256 aes_cbc_decrypt isalpha (Bytes ciphertext) key "auto"
        = Return (Some text)).
Proof.
  intros Htext Hk Hne.
  destruct (encode_scalar text Htext) as (t & Ht).
  exists (map xor_pair (combine t (key_stream k (length t)))).
  assert (Henc : xor_decrypt (Str text) key
                 = Return (map xor_pair (combine t (key_stream k (length t))))).
  { unfold xor_decrypt. cbn [as_bytes]. rewrite Ht, Hk. cbn [bind].
    destruct k as [| b k]; [contradiction | reflexivity]. }
  assert (Hdec : xor_result (map xor_pair (combine t (key_stream k (length t)))) key
                 = Some text).
  { unfold xor_result. rewrite (xor_decrypt_bytes _ key k Hk Hne).
    rewrite length_xor by (rewrite length_key_stream; auto).
    rewrite xor_twice by (rewrite length_key_stream; auto).
    cbn [catch option_map]. f_equal. apply Utf8Spec.decode_encode; assumption. }
  split; [exact Henc |]. rewrite !decrypt_final_bytes, Hdec.
  split; [reflexivity |].
  intros Halpha. change (String.eqb "auto" "auto") with true. cbn iota.
  unfold auto_choice, has_alpha. rewrite Halpha.
  destruct (aes_result sha256 aes_cbc_decrypt _ key); reflexivity.
Qed.

End Methods.

Lemma decrypt_final_bytes_never_raises_witness :
  decrypt_final (fun _ => repeat 0 32) (fun _ _ data => data) ascii_isalpha
                (Bytes (lit "data")) (Bytes []) "xor"
  = Return None.
Proof.
  apply (proj2 (proj2 (proj2 (proj2
           (decrypt_final_bytes_never_raises
              (fun _ => repeat 0 32) (fun _ _ data => data) ascii_isalpha
              (lit "data") (Bytes []) "xor"))))).
  reflexivity.
Defined.

Lemma decrypt_final_xor_round_trip_witness :
  exists ciphertext,
    xor_decrypt (Str [0x46; 0xE9; 0x20AC; 0x1F600]) (Str (lit "key")) = Return ciphertext
    /\ decrypt_final (fun _ => repeat 0 32) (fun _ _ data => data) ascii_isalpha
                     (Bytes ciphertext) (Str (lit "key")) "xor"
       = Return (Some [0x46; 0xE9; 0x20AC; 0x1F600])
    /\ (existsb ascii_isalpha [0x46; 0xE9; 0x20AC; 0x1F600] = true ->
        decrypt_final (fun _ => repeat 0 32) (fun _ _ data => data) ascii_isalpha
                      (Bytes ciphertext) (Str (lit "key")) "auto"
        = Return (Some [0x46; 0xE9; 0x20AC; 0x1F600])).
Proof.
  apply (decrypt_final_xor_round_trip (fun _ => repeat 0 32) (fun _ _ data => data)
           ascii_isalpha [0x46; 0xE9; 0x20AC; 0x1F600] (Str (lit "key")) (lit "key")).
  - repeat constructor; unfold Utf8Spec.scalar; lia.
  - reflexivity.
  - discriminate.
Defined.

End DecryptSpec.

(* ----------------------------------------------------------------- *)
(** ** The spiral goes outward *)

Module SpiralOrderSpec.
Import Spiral SpiralSpec.

(** The distance of a pixel to the centre, counted in rings: the larger of
    its horizontal and vertical distances. *)
Definition ring_distance (width height : Z) (p : coord) : Z :=
  Z.max (Z.abs (fst p - width / 2)) (Z.abs (snd p - height / 2)).

Definition outward (width height : Z) (p q : coord) : Prop :=
  ring_distance width height p <= ring_distance width height q.

(** A list that goes outward, and stays within the distance [D]. *)
Definition ordered (width height D : Z) (cs : list coord) : Prop :=
  StronglySorted (outward width height) cs
  /\ forall p, In p cs -> ring_distance width height p <= D.

Lemma StronglySorted_snoc {A : Type} (R : A -> A -> Prop) l a :
  StronglySorted R l -> (forall b, In b l -> R b a) ->
  StronglySorted R (l ++ [a]).
Proof.
  induction 1 as [| b l Hs IH Hb]; intros Ha; cbn [app].
  - repeat constructor.
  - constructor.
    + apply IH. intros c Hc. apply Ha. right. exact Hc.
    + apply Forall_app. split; [exact Hb |].
      constructor; [| constructor]. apply Ha. left. reflexivity.
Qed.

Section Legs.
Variables width height : Z.

Lemma leg_ordered dx dy n :
  forall st D,
    ordered width height D (coordinates st) ->
    (forall i, 1 <= i <= Z.of_nat n ->
               D <= ring_distance width height
                                  (pos_x st + i * dx, pos_y st + i * dy)) ->
    (forall i j, 1 <= i <= j -> j <= Z.of_nat n ->
                 ring_distance width height
                               (pos_x st + i * dx, pos_y st + i * dy)
                 <= ring_distance width height
                                  (pos_x st + j * dx, pos_y st + j * dy)) ->
    ordered width height
            (Z.max D (ring_distance width height
                                    (pos_x st + Z.of_nat n * dx,
                                     pos_y st + Z.of_nat n * dy)))
            (coordinates (leg width height dx dy n st)).
Proof.
  induction n as [| n IH]; intros st D [Hs Hb] Hfar Hmono.
  - cbn [leg]. split; [exact Hs |]. intros p Hp. specialize (Hb p Hp). lia.
  - cbn [leg].
    set (p1 := (pos_x st + dx, pos_y st + dy)).
    assert (H1 : D <= ring_distance width height p1).
    { specialize (Hfar 1 ltac:(lia)). rewrite !Z.mul_1_l in Hfar. exact Hfar. }
    assert (Hlast : ring_distance width height p1
                    <= ring_distance width height
                         (pos_x st + Z.of_nat (S n) * dx,
                          pos_y st + Z.of_nat (S n) * dy)).
    { specialize (Hmono 1 (Z.of_nat (S n)) ltac:(lia) ltac:(lia)).
      rewrite !Z.mul_1_l in Hmono. exact Hmono. }
    set (cs1 := if in_bounds width height (pos_x st + dx) (pos_y st + dy)
                then coordinates st ++ [p1] else coordinates st).
    assert (Hcs1 : ordered width height (ring_distance width height p1) cs1).
    { unfold cs1. destruct (in_bounds width height (pos_x st + dx) (pos_y st + dy)).
      - split.
        + apply StronglySorted_snoc; [exact Hs |].
          intros q Hq. unfold outward. specialize (Hb q Hq). lia.
        + intros q Hq. apply in_app_iff in Hq as [Hq | [<- | []]]; [| lia].
          specialize (Hb q Hq). lia.
      - split; [exact Hs |]. intros q Hq. specialize (Hb q Hq). lia. }
    destruct (filled width height cs1).
    + cbn [coordinates]. destruct Hcs1 as [Hs1 Hb1]. split; [exact Hs1 |].
      intros q Hq. specialize (Hb1 q Hq). lia.
    + specialize (IH (mkState (pos_x st + dx) (pos_y st + dy) cs1)
                     (ring_distance width height p1) Hcs1).
      cbn [pos_x pos_y coordinates] in IH.
      assert (Hshift : forall i,
                 (pos_x st + dx + i * dx, pos_y st + dy + i * dy)
                 = (pos_x st + (i + 1) * dx, pos_y st + (i + 1) * dy))
        by (intros i; f_equal; lia).
      destruct IH as [Hs' Hb'].
      * intros i Hi. rewrite Hshift.
        specialize (Hmono 1 (i + 1) ltac:(lia) ltac:(lia)).
        rewrite !Z.mul_1_l in Hmono. exact Hmono.
      * intros i j Hij Hj. rewrite !Hshift. apply Hmono; lia.
      * split; [exact Hs' |]. intros q Hq. specialize (Hb' q Hq).
        rewrite Hshift in Hb'.
        replace (Z.of_nat n + 1) with (Z.of_nat (S n)) in Hb' by lia. lia.
Qed.

Lemma leg_ordered_within dx dy n st D D' :
  ordered width height D (coordinates st) ->
  D <= D' ->
  (forall i, 1 <= i <= Z.of_nat n ->
             D <= ring_distance width height
                                (pos_x st + i * dx, pos_y st + i * dy)
             <= D') ->
  (forall i j, 1 <= i <= j -> j <= Z.of_nat n ->
               ring_distance width height
                             (pos_x st + i * dx, pos_y st + i * dy)
               <= ring_distance width height
                                (pos_x st + j * dx, pos_y st + j * dy)) ->
  ordered width height D' (coordinates (leg width height dx dy n st)).
Proof.
  intros Ho HD Hfar Hmono.
  destruct n as [| n].
  - cbn [leg]. destruct Ho as [Hs Hb]. split; [exact Hs |].
    intros p Hp. specialize (Hb p Hp). lia.
  - assert (H := leg_ordered dx dy (S n) st D Ho
                   (fun i Hi => proj1 (Hfar i Hi)) Hmono).
    destruct H as [Hs Hb]. split; [exact Hs |].
    intros p Hp. specialize (Hb p Hp).
    specialize (Hfar (Z.of_nat (S n)) ltac:(lia)). lia.
Qed.

(** The walk only adds coordinates. *)
Lemma leg_extends dx dy n :
  forall st, exists l,
    coordinates (leg width height dx dy n st) = coordinates st ++ l.
Proof.
  induction n as [| n IH]; intros st; [exists []; symmetry; apply app_nil_r |].
  cbn [leg].
  set (cs1 := if in_bounds width height (pos_x st + dx) (pos_y st + dy)
              then coordinates st ++ [(pos_x st + dx, pos_y st + dy)]
              else coordinates st).
  assert (H1 : exists l, cs1 = coordinates st ++ l).
  { unfold cs1. destruct (in_bounds width height (pos_x st + dx) (pos_y st + dy));
      eexists; [reflexivity | symmetry; apply app_nil_r]. }
  destruct H1 as (l1 & H1).
  destruct (filled width height cs1); [exists l1; exact H1 |].
  destruct (IH (mkState (pos_x st + dx) (pos_y st + dy) cs1)) as (l & Hl).
  cbn [coordinates] in Hl. exists (l1 ++ l). rewrite Hl, H1, app_assoc. reflexivity.
Qed.

Lemma spiral_loop_extends clockwise fuel :
  forall step st cs,
    spiral_loop fuel width height clockwise step st = Some cs ->
    exists l, cs = coordinates st ++ l.
Proof.
  induction fuel as [| fuel IH]; intros step st cs H; [discriminate |].
  cbn [spiral_loop] in H.
  set (st1 := leg width height (if clockwise then 1 else -1) 0 step st) in *.
  set (st2 := leg width height 0 (if clockwise then 1 else -1) step st1) in *.
  set (st3 := leg width height (if clockwise then -1 else 1) 0 (S step) st2) in *.
  set (st4 := leg width height 0 (if clockwise then -1 else 1) (S step) st3) in *.
  destruct (leg_extends (if clockwise then 1 else -1) 0 step st) as (l1 & H1).
  destruct (leg_extends 0 (if clockwise then 1 else -1) step st1) as (l2 & H2).
  destruct (leg_extends (if clockwise then -1 else 1) 0 (S step) st2) as (l3 & H3).
  destruct (leg_extends 0 (if clockwise then -1 else 1) (S step) st3) as (l4 & H4).
  fold st1 in H1. fold st2 in H2. fold st3 in H3. fold st4 in H4.
  destruct (filled width height (coordinates st)).
  { injection H as <-. exists []. symmetry. apply app_nil_r. }
  destruct (filled width height (coordinates st1)).
  { injection H as <-. exists l1. exact H1. }
  destruct (filled width height (coordinates st2)).
  { injection H as <-. exists (l1 ++ l2). rewrite H2, H1, app_assoc. reflexivity. }
  destruct (filled width height (coordinates st3)).
  { injection H as <-. exists (l1 ++ l2 ++ l3).
    rewrite H3, H2, H1, !app_assoc. reflexivity. }
  destruct (filled width height (coordinates st4)).
  { injection H as <-. exists (l1 ++ l2 ++ l3 ++ l4).
    rewrite H4, H3, H2, H1, !app_assoc. reflexivity. }
  apply IH in H as (l & ->). exists (l1 ++ l2 ++ l3 ++ l4 ++ l).
  rewrite H4, H3, H2, H1, !app_assoc. reflexivity.
Qed.

End Legs.

(** *** The rings, outward *)

Ltac distance_arith :=
  intros; unfold ring_distance, sign in *; cbn [fst snd] in *; lia.

(** The next leg of the walk, with the order of its coordinates: they lie
    between the distances [D], reached so far, and [D']. *)
Ltac next_leg_outward st' D' Hx Hy Hc Ho :=
  match goal with
  | Hcov : covers ?w ?h ?R (coordinates ?st),
    Hord : ordered ?w ?h ?D (coordinates ?st)
    |- context [leg ?w ?h ?dx ?dy ?n ?st] =>
      let Hs := fresh "Hsafe" in
      let Hn := fresh "Hnext" in
      let F := fresh "F" in
      destruct (leg_spec w h dx dy n ltac:(lia) st R Hcov) as [Hs Hn];
      [ intros ? ? ?; ring_arith
      | assert (Ho : ordered w h D' (coordinates (leg w h dx dy n st)))
          by (apply (leg_ordered_within w h dx dy n st D D' Hord);
              distance_arith);
        set (st' := leg w h dx dy n st) in *;
        destruct (filled w h (coordinates st')) eqn:F;
        [ left; exists (coordinates st');
          split; [reflexivity | exact (proj1 Ho)]
        | destruct (Hn eq_refl) as (Hx & Hy & Hc); clear Hn Hcov Hord ] ]
  end.

(** The cells of the ring [k + 1] are those of the ring [k] and of the
    four legs walked from it. *)
Ltac ring_closes width height clockwise k s :=
  intros [x y]; split;
  [ intros; ring_arith
  | let Hr := fresh "Hr" in
    let Hcases := fresh "Hcases" in
    intros Hr;
    assert (Hcases :
              ring width height clockwise k (x, y)
              \/ (s * (y - height / 2) = - k
                  /\ - k + 1 <= s * (x - width / 2) <= k + 1)
              \/ (s * (x - width / 2) = k + 1
                  /\ - k + 1 <= s * (y - height / 2) <= k + 1)
              \/ (s * (y - height / 2) = k + 1
                  /\ - k - 1 <= s * (x - width / 2) <= k)
              \/ (s * (x - width / 2) = - k - 1
                  /\ - k - 1 <= s * (y - height / 2) <= k))
      by (unfold ring, sign in *; cbn [fst snd] in *; lia);
    clear Hr;
    destruct Hcases as [Hr | [Hr | [Hr | [Hr | Hr]]]];
    [ auto
    | left; left; left; right; exists (s * (x - width / 2) + k);
      split; [lia | f_equal; unfold sign in *; lia]
    | left; left; right; exists (s * (y - height / 2) + k);
      split; [lia | f_equal; unfold sign in *; lia]
    | left; right; exists (k + 1 - s * (x - width / 2));
      split; [lia | f_equal; unfold sign in *; lia]
    | right; exists (k + 1 - s * (y - height / 2));
      split; [lia | f_equal; unfold sign in *; lia] ] ].

Lemma round_outward width height clockwise fuel k step st :
  0 <= k -> Z.of_nat step = 2 * k + 1 ->
  pos_x st = width / 2 - sign clockwise * k ->
  pos_y st = height / 2 - sign clockwise * k ->
  covers width height (ring width height clockwise k) (coordinates st) ->
  ordered width height k (coordinates st) ->
  filled width height (coordinates st) = false ->
  (exists cs,
      spiral_loop (S fuel) width height clockwise step st = Some cs
      /\ StronglySorted (outward width height) cs)
  \/ (exists st',
         spiral_loop (S fuel) width height clockwise step st
         = spiral_loop fuel width height clockwise (S (S step)) st'
         /\ pos_x st' = width / 2 - sign clockwise * (k + 1)
         /\ pos_y st' = height / 2 - sign clockwise * (k + 1)
         /\ covers width height (ring width height clockwise (k + 1))
                   (coordinates st')
         /\ ordered width height (k + 1) (coordinates st')).
Proof.
  intros Hk Hstep Hx Hy Hc Ho F0.
  cbn [spiral_loop]. rewrite F0.
  pose proof (Nat2Z.inj_succ step) as Hstep'.
  destruct clockwise.
  - next_leg_outward st1 (k + 1) Hx1 Hy1 Hc1 Ho1.
    next_leg_outward st2 (k + 1) Hx2 Hy2 Hc2 Ho2.
    next_leg_outward st3 (k + 1) Hx3 Hy3 Hc3 Ho3.
    next_leg_outward st4 (k + 1) Hx4 Hy4 Hc4 Ho4.
    right. exists st4. split; [reflexivity |].
    split; [unfold sign in *; lia | split; [unfold sign in *; lia |]].
    split.
    + revert Hc4. apply covers_ext. ring_closes width height true k 1.
    + exact Ho4.
  - next_leg_outward st1 (k + 1) Hx1 Hy1 Hc1 Ho1.
    next_leg_outward st2 (k + 1) Hx2 Hy2 Hc2 Ho2.
    next_leg_outward st3 (k + 1) Hx3 Hy3 Hc3 Ho3.
    next_leg_outward st4 (k + 1) Hx4 Hy4 Hc4 Ho4.
    right. exists st4. split; [reflexivity |].
    split; [unfold sign in *; lia | split; [unfold sign in *; lia |]].
    split.
    + revert Hc4. apply covers_ext. ring_closes width height false k (-1).
    + exact Ho4.
Qed.

Lemma spiral_loop_outward width height clockwise :
  1 <= width -> 1 <= height ->
  forall fuel k step st,
    0 <= k -> Z.of_nat step = 2 * k + 1 ->
    pos_x st = width / 2 - sign clockwise * k ->
    pos_y st = height / 2 - sign clockwise * k ->
    covers width height (ring width height clockwise k) (coordinates st) ->
    ordered width height k (coordinates st) ->
    width + height <= k + Z.of_nat fuel ->
    exists cs,
      spiral_loop (S fuel) width height clockwise step st = Some cs
      /\ StronglySorted (outward width height) cs.
Proof.
  intros Hw Hh.
  induction fuel as [| fuel IH]; intros k step st Hk Hstep Hx Hy Hc Ho Hfuel;
    destruct (filled width height (coordinates st)) eqn:F0.
  - exists (coordinates st). cbn [spiral_loop]. rewrite F0.
    split; [reflexivity | apply Ho].
  - rewrite (ring_filled width height clockwise k) in F0;
      [discriminate | lia | lia | simpl in Hfuel; lia | assumption].
  - exists (coordinates st). cbn [spiral_loop]. rewrite F0.
    split; [reflexivity | apply Ho].
  - destruct (round_outward width height clockwise (S fuel) k step st
                Hk Hstep Hx Hy Hc Ho F0)
      as [Hdone | (st' & Heq & Hx' & Hy' & Hc' & Ho')]; [exact Hdone |].
    rewrite Heq. apply (IH (k + 1)); try assumption; lia.
Qed.

(** For an image of at least one pixel the spiral starts at the centre
    [(width // 2, height // 2)] and goes outward: no coordinate is nearer
    to the centre, in rings, than a coordinate before it. *)
Theorem spiral_goes_outward (width height : Z) (clockwise : bool) :
  1 <= width -> 1 <= height ->
  exists cs,
    (forall fuel, (Z.to_nat (width + height) < fuel)%nat ->
                  generate_spiral_coordinates fuel width height clockwise = Some cs)
    /\ hd_error cs = Some (width / 2, height / 2)
    /\ StronglySorted (outward width height) cs.
Proof.
  intros Hw Hh.
  destruct (spiral_loop_outward width height clockwise Hw Hh
              (Z.to_nat (width + height)) 0 1%nat
              (mkState (width / 2) (height / 2) [(width / 2, height / 2)]))
    as (cs & Hrun & Hsorted); simpl; try lia.
  { assert (0 <= width / 2 < width) by (split; [apply Z.div_pos | apply Z.div_lt]; lia).
    assert (0 <= height / 2 < height) by (split; [apply Z.div_pos | apply Z.div_lt]; lia).
    split.
    - repeat constructor. simpl. tauto.
    - intros [x y]. unfold inb, ring, sign; simpl. split.
      + intros [Heq | []]. injection Heq as <- <-. destruct clockwise; lia.
      + intros [_ Hr]. left. f_equal; destruct clockwise; lia. }
  { split; [repeat constructor |].
    intros p [<- | []]. unfold ring_distance. cbn [fst snd]. lia. }
  exists cs. split; [| split; [| exact Hsorted]].
  - intros fuel Hfuel. unfold generate_spiral_coordinates.
    eapply spiral_loop_fuel_le; [| exact Hrun]. lia.
  - destruct (spiral_loop_extends width height clockwise _ _ _ _ Hrun) as (l & ->).
    reflexivity.
Qed.

Lemma spiral_goes_outward_witness :
  exists cs,
    (forall fuel, (Z.to_nat (2 + 3) < fuel)%nat ->
                  generate_spiral_coordinates fuel 2 3 false = Some cs)
    /\ hd_error cs = Some (2 / 2, 3 / 2)
    /\ StronglySorted (outward 2 3) cs.
Proof. apply (spiral_goes_outward 2 3 false); lia. Defined.

End SpiralOrderSpec.

(* ----------------------------------------------------------------- *)
(** ** The XOR key stream *)

Module XorSpec.
Import Py Assembler AssemblerSpec.

(** The repeated key is periodic. *)
Lemma nth_error_repeat_bytes key m :
  forall i, (i < m * length key)%nat ->
            nth_error (repeat_bytes key m) i = nth_error key (i mod length key).
Proof.
  induction m as [| m IH]; intros i Hi; [lia |].
  cbn [repeat_bytes].
  assert (Hlen : length key <> 0%nat) by (intros H; rewrite H in Hi; lia).
  destruct (Nat.lt_ge_cases i (length key)) as [Hlt | Hge].
  - rewrite nth_error_app1 by assumption. rewrite Nat.mod_small by assumption.
    reflexivity.
  - rewrite nth_error_app2 by assumption. rewrite IH by lia.
    f_equal. replace i with (i - length key + 1 * length key)%nat at 2 by lia.
    rewrite Nat.Div0.mod_add. reflexivity.
Qed.

Lemma nth_error_key_stream key n i :
  key <> [] -> (i < n)%nat ->
  nth_error (key_stream key n) i = nth_error key (i mod length key).
Proof.
  intros Hne Hi. unfold key_stream.
  assert (Hlen : length key <> 0%nat) by (destruct key; [contradiction | discriminate]).
  rewrite nth_error_firstn.
  destruct (Nat.ltb_spec i n) as [_ | H]; [| lia].
  apply nth_error_repeat_bytes.
  pose proof (Nat.mul_succ_div_gt n (length key) Hlen). nia.
Qed.

Lemma Forall_firstn_bytes (P : Z -> Prop) n (l : list Z) :
  Forall P l -> Forall P (firstn n l).
Proof.
  intros H. revert n. induction H as [| b l Hb _ IH]; intros [| n];
    cbn [firstn]; constructor; auto.
Qed.

(** [xor_decrypt] combines the byte at each position [i] of the data with
    the byte at position [i mod len(key)] of the key, and the bytes it
    returns are bytes. *)
Theorem xor_decrypt_bytewise (data : bytes) (key : value) (k : bytes) :
  as_bytes key = Return k -> k <> [] ->
  exists out,
    xor_decrypt (Bytes data) key = Return out
    /\ length out = length data
    /\ (forall i d,
           nth_error data i = Some d ->
           exists kb,
             nth_error k (i mod length k) = Some kb
             /\ nth_error out i = Some (Z.lxor d kb))
    /\ (Forall is_byte data -> Forall is_byte k -> Forall is_byte out).
Proof.
  intros Hk Hne.
  exists (map xor_pair (combine data (key_stream k (length data)))).
  split; [apply xor_decrypt_bytes; assumption |].
  split; [apply length_xor; rewrite length_key_stream; auto |].
  split.
  - intros i d Hd.
    assert (Hi : (i < length data)%nat) by (apply nth_error_Some; congruence).
    assert (Hlen : length k <> 0%nat) by (destruct k; [contradiction | discriminate]).
    destruct (nth_error k (i mod length k)) as [kb |] eqn:Hkb.
    + exists kb. split; [reflexivity |].
      rewrite nth_error_map.
      assert (Hc : nth_error (combine data (key_stream k (length data))) i
                   = Some (d, kb)).
      { revert Hd. rewrite <- (nth_error_key_stream k (length data) i Hne Hi) in Hkb.
        revert Hkb. generalize (key_stream k (length data)). revert i Hi.
        clear. induction data as [| d0 data IH]; intros i Hi ks Hkb Hd;
          [destruct i; discriminate |].
        destruct ks as [| k0 ks]; [destruct i; discriminate |].
        destruct i as [| i]; cbn in *; [congruence |].
        apply IH; [lia | assumption | assumption]. }
      rewrite Hc. reflexivity.
    + exfalso. apply nth_error_None in Hkb.
      pose proof (Nat.mod_upper_bound i (length k) Hlen). lia.
  - intros Hd Hkey. apply xor_bytes; [assumption |].
    unfold key_stream. apply Forall_firstn_bytes.
    generalize (length data / length k + 1)%nat. intros m.
    induction m as [| m IH]; cbn [repeat_bytes]; [constructor |].
    apply Forall_app. split; assumption.
Qed.

Lemma xor_decrypt_bytewise_witness :
  exists out,
    xor_decrypt (Bytes [1; 2; 3; 4; 5]) (Str (lit "ab")) = Return out
    /\ length out = length [1; 2; 3; 4; 5]
    /\ (forall i d,
           nth_error [1; 2; 3; 4; 5] i = Some d ->
           exists kb,
             nth_error [97; 98] (i mod length [97; 98]) = Some kb
             /\ nth_error out i = Some (Z.lxor d kb))
    /\ (Forall is_byte [1; 2; 3; 4; 5] -> Forall is_byte [97; 98] ->
        Forall is_byte out).
Proof.
  apply (xor_decrypt_bytewise [1; 2; 3; 4; 5] (Str (lit "ab")) [97; 98]).
  - reflexivity.
  - discriminate.
Defined.

End XorSpec.

(* ----------------------------------------------------------------- *)
(** ** The extractor's inline base64 attempt *)

Module InlineBase64Spec.
Import Py Lsb Extractor Decoder DecoderSpec.

Lemma in_lstrip_or_space c s :
  In c s -> In c (lstrip s) \/ isspace c = true.
Proof.
  induction s as [| d s IH]; [intros [] |].
  cbn [lstrip]. destruct (isspace d) eqn:Hd.
  - intros [<- | H]; [right; exact Hd | apply IH, H].
  - intros H. left. exact H.
Qed.

Lemma in_strip_or_space c s :
  In c s -> In c (strip s) \/ isspace c = true.
Proof.
  intros H. unfold strip.
  apply in_lstrip_or_space in H as [H | H]; [| right; exact H].
  apply in_rev, in_lstrip_or_space in H as [H | H]; [| right; exact H].
  left. apply in_rev in H. exact H.
Qed.

Lemma auto_detect_base64_entry data :
  dict_get "base64" (auto_detect_and_decode data)
  = if gate data then nonempty (decode_base64 (Str data)) else None.
Proof.
  unfold auto_detect_and_decode, gate, nonempty, decode_rot13,
    codecs_decode_rot_13, catch, succeeded, store.
  generalize (decode_base64 (Str (map rot13_char data))).
  generalize (decode_base64 (Str data)).
  generalize (str_eqb (map rot13_char data) data).
  generalize (forallb (fun c => base64_chars c || isspace c) data).
  generalize (map rot13_char data).
  intros r g e b rb.
  destruct g, e, b as [[| cb b] |], rb as [[| crb rb] |], r as [| cr r];
    reflexivity.
Qed.

(** What the raster extractor stores under ['base64_decoded'] for a text is
    what [decode_base64] returns for that text, which has more than ten
    characters; and when it is not empty, [auto_detect_and_decode] has it
    under "base64". *)
Theorem try_base64_agrees (ascii_text decoded : str) :
  try_base64 ascii_text = Some decoded ->
  (10 < length ascii_text)%nat
  /\ decode_base64 (Str ascii_text) = Some decoded
  /\ (truthy decoded = true ->
      dict_get "base64" (auto_detect_and_decode ascii_text) = Some decoded).
Proof.
  unfold try_base64.
  destruct (truthy ascii_text && (10 <? length ascii_text)%nat) eqn:Hlen;
    [| discriminate].
  destruct (forallb base64_line_chars (strip ascii_text)) eqn:Hchars;
    [| discriminate].
  intros Hdec. apply andb_true_iff in Hlen as [_ Hlen]. apply Nat.ltb_lt in Hlen.
  split; [exact Hlen |]. split; [exact Hdec |].
  intros Htruthy. rewrite auto_detect_base64_entry.
  change (decode_base64 (Str ascii_text)) with
    (catch (decoded <- b64decode (Str (strip ascii_text)) ;;
            Return (decode_utf8_ignore decoded))).
  rewrite Hdec. cbn [nonempty]. rewrite Htruthy.
  replace (gate ascii_text) with true; [reflexivity |].
  symmetry. apply forallb_forall. intros c Hc.
  apply in_strip_or_space in Hc as [Hc | Hc]; [| rewrite Hc; apply orb_true_r].
  rewrite forallb_forall in Hchars. specialize (Hchars c Hc).
  unfold base64_line_chars in Hchars.
  apply orb_true_iff in Hchars as [Hchars | H13].
  - apply orb_true_iff in Hchars as [Hb | H10]; [rewrite Hb; reflexivity |].
    apply Z.eqb_eq in H10. subst c. reflexivity.
  - apply Z.eqb_eq in H13. subst c. reflexivity.
Qed.

Lemma try_base64_agrees_witness :
  (10 < length (lit "SGVsbG8gd29ybGQ="))%nat
  /\ decode_base64 (Str (lit "SGVsbG8gd29ybGQ=")) = Some (lit "Hello world")
  /\ (truthy (lit "Hello world") = true ->
      dict_get "base64" (auto_detect_and_decode (lit "SGVsbG8gd29ybGQ="))
      = Some (lit "Hello world")).
Proof.
  apply (try_base64_agrees (lit "SGVsbG8gd29ybGQ=") (lit "Hello world")).
  reflexivity.
Defined.

End InlineBase64Spec.
